(** * itertools.js

    A shallow embedding of the functions of itertools.ts: first the
    generators [combinations], [combinationsWithReplacement], [groupBy],
    [islice], [zip] and [zipLongest] (and [count], [takeWhile], [range] and
    [enumerate], which they use), then the other functions of the file,
    followed by the properties of what they yield or return.
    combinations.ts, zip.ts and range.ts hold the same code.

    A JavaScript generator is embedded as a state together with a [next]
    function that performs one pull: it returns what [next()] returns (or
    the exception it raises) and the state the generator is left in.  The
    body of a [function*] does not run when the function is called; it runs
    up to the first [yield] on the first pull, and from one [yield] to the
    next on every later pull.

    The numbers of the code are IEEE 754 doubles.  The functions that
    compute with numbers are written over the class [Number] of the
    operations they use, which has two instances: [float], the doubles
    themselves, and [Z], the integers, which the doubles count exactly up
    to [2 ^ 53] in absolute value.  Lengths and array positions are [nat].
    [undefined] in a place that otherwise holds a value of [V] is [None] in
    [option V]. *)

From Stdlib Require Import String.
From Stdlib Require Import List ZArith Lia Bool Arith PeanoNat.
From Stdlib Require Import Sorting.Sorted Factorial Sorting.Permutation.
From Stdlib Require Import Floats.
Import ListNotations.

Set Implicit Arguments.

(** ** The iterator protocol *)

(** [{ value, done }].  [Done] is [{ value: undefined, done: true }]. *)
Inductive IteratorResult (V : Type) : Type :=
| Value (v : V)
| Done.
Arguments Done {V}.

(** The only exceptions raised by the library. *)
Inductive exn : Type :=
| TypeError (msg : string).

(** Outcome of a call: a normal result or a raised exception. *)
Inductive Completion (A : Type) : Type :=
| Normal (a : A)
| Throw (e : exn).
Arguments Throw {A}.

(** [r.done] *)
Definition done {V} (r : IteratorResult V) : bool :=
  match r with Value _ => false | Done => true end.

(** [r.value]; [None] is [undefined]. *)
Definition value {V} (r : IteratorResult V) : option V :=
  match r with Value v => Some v | Done => None end.

(** One pull on an iterator in state [S] producing values in [V]. *)
Definition Next (S V : Type) : Type := S -> Completion (IteratorResult V) * S.

(** A pull whose inner loops are bounded by fuel; [None] is out of fuel. *)
Definition PartialNext (S V : Type) : Type :=
  S -> option (Completion (IteratorResult V) * S).

Definition total {S V} (next : Next S V) : PartialNext S V :=
  fun g => Some (next g).

(** [[...g]]: pull until done.  An exception discards what was gathered. *)
Fixpoint collect {S V} (next : PartialNext S V) (fuel : nat) (g : S)
  : option (Completion (list V) * S) :=
  match fuel with
  | O => None
  | Datatypes.S fuel' =>
      match next g with
      | None => None
      | Some (Throw e, g') => Some (Throw e, g')
      | Some (Normal Done, g') => Some (Normal [], g')
      | Some (Normal (Value v), g') =>
          match collect next fuel' g' with
          | None => None
          | Some (Throw e, g'') => Some (Throw e, g'')
          | Some (Normal vs, g'') => Some (Normal (v :: vs), g'')
          end
      end
  end.

(** The iterator of an array: the state is the part not yet visited. *)
Definition array_next {T} : Next (list T) T :=
  fun l =>
    match l with
    | [] => (Normal Done, [])
    | x :: l' => (Normal (Value x), l')
    end.

(** ** Numbers *)

(** What the code does with its numbers.  [num_is_integer a] is the test
    [a % 1 === 0], and [num_lt_infinity a] is [a < Infinity]. *)
Class Number (N : Type) : Type :=
  {
    num_zero : N;
    num_one : N;
    num_add : N -> N -> N;
    num_ltb : N -> N -> bool;
    num_leb : N -> N -> bool;
    num_eqb : N -> N -> bool;
    num_is_integer : N -> bool;
    num_lt_infinity : N -> bool
  }.

(** [a > b] *)
Definition num_gtb {N : Type} {num : Number N} (a b : N) : bool := num_ltb b a.

(** [a % 1 === 0] on a double: it is finite and has no fractional part. *)
Definition float_is_integer (a : float) : bool :=
  match Prim2SF a with
  | S754_zero _ => true
  | S754_finite _ m e => (0 <=? e)%Z || (Z.pos m mod 2 ^ (- e) =? 0)%Z
  | S754_infinity _ => false
  | S754_nan => false
  end.

(** The doubles: [+], [<], [<=] and [===] are the IEEE 754 operations, so
    [NaN === NaN] is false and sums beyond [2 ^ 53] are rounded. *)
#[export] Instance float_number : Number float :=
  {|
    num_zero := 0%float;
    num_one := 1%float;
    num_add := PrimFloat.add;
    num_ltb := PrimFloat.ltb;
    num_leb := PrimFloat.leb;
    num_eqb := PrimFloat.eqb;
    num_is_integer := float_is_integer;
    num_lt_infinity := fun a => PrimFloat.ltb a infinity
  |}.

(** The integers. *)
#[export] Instance Z_number : Number Z :=
  {|
    num_zero := 0%Z;
    num_one := 1%Z;
    num_add := Z.add;
    num_ltb := Z.ltb;
    num_leb := Z.leb;
    num_eqb := Z.eqb;
    num_is_integer := fun _ => true;
    num_lt_infinity := fun _ => true
  |}.

(** [a] is an integer of absolute value at most [B]. *)
Definition within (B a : Z) : Prop := (Z.abs a <= B)%Z.

(** [inj] carries the integers within [B] to numbers on which the
    operations of the code are exact: they give what the operations of
    the integers give.  The doubles have such an [inj] at [B = 2 ^ 53]
    (sums and comparisons of integers are exact as long as the operands
    and the result are at most [2 ^ 53] in absolute value); the integers
    have the identity, at any [B]. *)
Record exact_within {N : Type} {num : Number N} (B : Z) (inj : Z -> N)
  : Prop :=
  {
    exact_zero : inj 0%Z = num_zero;
    exact_one : inj 1%Z = num_one;
    exact_add :
      forall a b, within B a -> within B b -> within B (a + b)%Z ->
                  num_add (inj a) (inj b) = inj (a + b)%Z;
    exact_ltb :
      forall a b, within B a -> within B b ->
                  num_ltb (inj a) (inj b) = (a <? b)%Z;
    exact_leb :
      forall a b, within B a -> within B b ->
                  num_leb (inj a) (inj b) = (a <=? b)%Z;
    exact_eqb :
      forall a b, within B a -> within B b ->
                  num_eqb (inj a) (inj b) = (a =? b)%Z;
    exact_is_integer : forall a, within B a -> num_is_integer (inj a) = true;
    exact_lt_infinity : forall a, within B a -> num_lt_infinity (inj a) = true
  }.
Arguments exact_zero {N num B inj} _.
Arguments exact_one {N num B inj} _.
Arguments exact_add {N num B inj} _ a b _ _ _.
Arguments exact_ltb {N num B inj} _ a b _ _.
Arguments exact_leb {N num B inj} _ a b _ _.
Arguments exact_eqb {N num B inj} _ a b _ _.
Arguments exact_is_integer {N num B inj} _ a _.
Arguments exact_lt_infinity {N num B inj} _ a _.

(** The double of an integer. *)
Definition float_of_Z (a : Z) : float :=
  match a with
  | Z0 => 0%float
  | Zpos _ => PrimFloat.of_uint63 (Uint63.of_Z a)
  | Zneg p => PrimFloat.opp (PrimFloat.of_uint63 (Uint63.of_Z (Zpos p)))
  end.

(** The integers from [-B] to [B], and a test made on every pair of
    them. *)
Definition integers_within (B : nat) : list Z :=
  map (fun k => (Z.of_nat k - Z.of_nat B)%Z) (seq 0 (2 * B + 1)).

Definition holds_within (B : nat) (test : Z -> Z -> bool) : bool :=
  forallb (fun a => forallb (fun b => test a b) (integers_within B))
          (integers_within B).

(** The laws of [exact_within], as a test on two integers, for the
    doubles. *)
Definition float_exact_test (B : nat) (a b : Z) : bool :=
  (if (Z.abs (a + b) <=? Z.of_nat B)%Z
   then PrimFloat.Leibniz.eqb (PrimFloat.add (float_of_Z a) (float_of_Z b))
                              (float_of_Z (a + b))
   else true)
  && Bool.eqb (PrimFloat.ltb (float_of_Z a) (float_of_Z b)) (a <? b)%Z
  && Bool.eqb (PrimFloat.leb (float_of_Z a) (float_of_Z b)) (a <=? b)%Z
  && Bool.eqb (PrimFloat.eqb (float_of_Z a) (float_of_Z b)) (a =? b)%Z
  && float_is_integer (float_of_Z a)
  && PrimFloat.ltb (float_of_Z a) infinity.

(** ** count, takeWhile, range *)

(** [function* count(start = 0, step = 1) { for (let i = start; ; i += step) yield i }]
    The state is the value of [i] at the next [yield]. *)
Record count_state (N : Type) : Type := mk_count { c_i : N; c_step : N }.

Section Count.
Context {N : Type} {num : Number N}.

Definition count (start step : N) : count_state N := mk_count start step.

Definition count_next : Next (count_state N) N :=
  fun g =>
    (Normal (Value (c_i g)), mk_count (num_add (c_i g) (c_step g)) (c_step g)).
End Count.

(** [takeWhile(iterable, predicate)]: the state is the iterator of
    [iterable] and whether the [for] loop has been left. *)
Record takeWhile_state (S : Type) : Type :=
  mk_takeWhile { tw_iterable : S; tw_finished : bool }.

Section TakeWhile.
Context {S V : Type}.
Variable next : Next S V.
Variable predicate : V -> bool.

Definition takeWhile (iterable : S) : takeWhile_state S :=
  mk_takeWhile iterable false.

Definition takeWhile_next : Next (takeWhile_state S) V :=
  fun g =>
    if tw_finished g then (Normal Done, g)
    else
      match next (tw_iterable g) with
      | (Throw e, it') => (Throw e, mk_takeWhile it' true)
      | (Normal Done, it') => (Normal Done, mk_takeWhile it' true)
      | (Normal (Value item), it') =>
          if negb (predicate item) then (Normal Done, mk_takeWhile it' true)
          else (Normal (Value item), mk_takeWhile it' false)
      end.
End TakeWhile.

(** [range(startOrEnd, maybeEnd?, step = 1)] *)
Inductive range_state (N : Type) : Type :=
| RangeStart (startOrEnd : N) (maybeEnd : option N) (step : N)
| RangeLoop (step end_ : N) (tw : takeWhile_state (count_state N))
| RangeDone.
Arguments RangeDone {N}.

Section Range.
Context {N : Type} {num : Number N}.

(** [step > 0 ? (v) => v < end : (v) => v > end] *)
Definition range_predicate (step end_ : N) : N -> bool :=
  if num_gtb step num_zero
  then fun v => num_ltb v end_
  else fun v => num_gtb v end_.

Definition range (startOrEnd : N) (maybeEnd : option N) (step : N)
  : range_state N :=
  RangeStart startOrEnd maybeEnd step.

Definition range_loop (step end_ : N) (tw : takeWhile_state (count_state N))
  : Completion (IteratorResult N) * range_state N :=
  match takeWhile_next count_next (range_predicate step end_) tw with
  | (Throw e, _) => (Throw e, RangeDone)
  | (Normal Done, _) => (Normal Done, RangeDone)
  | (Normal (Value v), tw') => (Normal (Value v), RangeLoop step end_ tw')
  end.

Definition range_next : Next (range_state N) N :=
  fun g =>
    match g with
    | RangeDone => (Normal Done, RangeDone)
    | RangeStart startOrEnd maybeEnd step =>
        if num_eqb step num_zero
        then (Throw (TypeError "The step argument must not be zero."), RangeDone)
        else
          let '(start, end_) :=
            match maybeEnd with
            | None => (num_zero, startOrEnd)
            | Some e => (startOrEnd, e)
            end in
          if negb (num_is_integer start) || negb (num_is_integer end_)
             || negb (num_is_integer step)
          then (Throw (TypeError "The range arguments must be integers."),
                RangeDone)
          else range_loop step end_ (takeWhile (count start step))
    | RangeLoop step end_ tw => range_loop step end_ tw
    end.
End Range.

(** ** zip and zipLongest *)

Record zip_state (S : Type) : Type :=
  mk_zip { iterators : list S; zip_finished : bool }.

Section Zip.
Context {S V : Type}.
Variable next : Next S V.

(** [iterators.map((i) => i.next())]: every iterator is pulled, in order;
    an exception leaves the later ones untouched. *)
Fixpoint pull_all (its : list S)
  : Completion (list (IteratorResult V)) * list S :=
  match its with
  | [] => (Normal [], [])
  | i :: rest =>
      match next i with
      | (Throw e, i') => (Throw e, i' :: rest)
      | (Normal r, i') =>
          match pull_all rest with
          | (Throw e, rest') => (Throw e, i' :: rest')
          | (Normal rs, rest') => (Normal (r :: rs), i' :: rest')
          end
      end
  end.

Definition zip (toZip : list S) : zip_state S := mk_zip toZip false.

(** A tuple is an array of JavaScript values: [None] is [undefined]. *)
Definition zip_next : Next (zip_state S) (list (option V)) :=
  fun g =>
    if zip_finished g then (Normal Done, g)
    else
      match pull_all (iterators g) with
      | (Throw e, its) => (Throw e, mk_zip its true)
      | (Normal result, its) =>
          if existsb (fun r => done r) result
          then (Normal Done, mk_zip its true)
          else (Normal (Value (map (fun r => value r) result)), mk_zip its false)
      end.

Definition zipLongest (toZip : list S) : zip_state S := mk_zip toZip false.

Definition zipLongest_next : Next (zip_state S) (list (option V)) :=
  fun g =>
    if zip_finished g then (Normal Done, g)
    else
      match pull_all (iterators g) with
      | (Throw e, its) => (Throw e, mk_zip its true)
      | (Normal result, its) =>
          if negb (existsb (fun r => negb (done r)) result)
          then (Normal Done, mk_zip its true)
          else
            (Normal (Value (map (fun r => if done r then None else value r) result)),
             mk_zip its false)
      end.
End Zip.


(** ** combinations and combinationsWithReplacement

    The arity [r] is a natural number: the code reads it as a count and
    does not check it.  [saved = [...iterable]] is the list itself;
    [[...range(r)]] is [seq 0 r] and [Array(r).fill(0)] is [repeat 0 r]. *)

(** [indicies[j] = v], for a position [j] inside the array (the loops below
    only write at positions [j < r], the length of [indicies]). *)
Fixpoint assign (indicies : list nat) (j v : nat) : list nat :=
  match indicies, j with
  | [], _ => []
  | _ :: rest, O => v :: rest
  | a :: rest, S j' => a :: assign rest j' v
  end.

(** [let i = r - 1; for (; i >= 0; i--) { if (indicies[i] !== limit) break }]
    where [limit] is [i + n - r] or [n - 1].  The loop variable is kept as
    [k = i + 1]; the answer [None] is [i === -1].  Only positions [i < r]
    are read, all inside [indicies]. *)
Fixpoint scan (limit : nat -> nat) (indicies : list nat) (k : nat) : option nat :=
  match k with
  | O => None
  | S i => if nth i indicies 0 =? limit i then scan limit indicies i else Some i
  end.

(** [for (let j = ...; j < r; j++) { indicies[j] = indicies[j - 1] + bump }]
    with [todo = r - j] rounds to go; [bump] is 1 or 0. *)
Fixpoint reset (bump : nat) (indicies : list nat) (j todo : nat) : list nat :=
  match todo with
  | O => indicies
  | S todo' =>
      reset bump (assign indicies j (nth (j - 1) indicies 0 + bump)) (S j) todo'
  end.

(** The part of the loop body after the [yield]: [None] is the [break]. *)
Definition advance (limit : nat -> nat) (bump r : nat) (indicies : list nat)
  : option (list nat) :=
  match scan limit indicies r with
  | None => None
  | Some i =>
      let indicies' := assign indicies i (nth i indicies 0 + 1) in
      Some (reset bump indicies' (i + 1) (r - (i + 1)))
  end.

(** Both generators run the same three phases. *)
Inductive comb_state (T : Type) : Type :=
| CombStart (iterable : list T) (r : nat)
| CombLoop (saved : list T) (r : nat) (indicies : list nat)
| CombDone.
Arguments CombDone {T}.

Section Combinations.
Context {T : Type}.

(** [indicies.map((i) => saved[i])]; [saved[i]] is [undefined] ([None])
    outside the array. *)
Definition pick (saved : list T) (indicies : list nat) : list (option T) :=
  map (fun i => nth_error saved i) indicies.

Definition combinations (iterable : list T) (r : nat) : comb_state T :=
  CombStart iterable r.

Definition combinations_next : Next (comb_state T) (list (option T)) :=
  fun g =>
    match g with
    | CombDone => (Normal Done, CombDone)
    | CombStart iterable r =>
        let saved := iterable in
        let n := length saved in
        if n <? r then (Normal Done, CombDone)
        else
          let indicies := seq 0 r in
          (Normal (Value (pick saved indicies)), CombLoop saved r indicies)
    | CombLoop saved r indicies =>
        let n := length saved in
        match advance (fun i => i + n - r) 1 r indicies with
        | None => (Normal Done, CombDone)
        | Some indicies' =>
            (Normal (Value (pick saved indicies')), CombLoop saved r indicies')
        end
    end.

Definition combinationsWithReplacement (iterable : list T) (r : nat)
  : comb_state T :=
  CombStart iterable r.

Definition combinationsWithReplacement_next
  : Next (comb_state T) (list (option T)) :=
  fun g =>
    match g with
    | CombDone => (Normal Done, CombDone)
    | CombStart iterable r =>
        let saved := iterable in
        let n := length saved in
        if (n =? 0) && negb (r =? 0) then (Normal Done, CombDone)
        else
          let indicies := repeat 0 r in
          (Normal (Value (pick saved indicies)), CombLoop saved r indicies)
    | CombLoop saved r indicies =>
        let n := length saved in
        match advance (fun _ => n - 1) 0 r indicies with
        | None => (Normal Done, CombDone)
        | Some indicies' =>
            (Normal (Value (pick saved indicies')), CombLoop saved r indicies')
        end
    end.
End Combinations.

(** The index tuple a generator holds while suspended at its [yield]. *)
Definition indicies_at_yield {T} (g : comb_state T) : option (list nat) :=
  match g with
  | CombLoop _ _ indicies => Some indicies
  | _ => None
  end.

(** ** enumerate and islice *)

(** [enumerate] is [zip] at two sources of different element types. *)
Record enumerate_state (N Src : Type) : Type :=
  mk_enumerate { en_count : count_state N; en_iterable : Src; en_finished : bool }.

(** Where an [islice] generator is suspended: before the first statement of
    its body (holding the arguments of the call), at the [yield] inside the
    two loops, or after its end. *)
Inductive islice_pc (N : Type) : Type :=
| IsliceStart (startOrEnd : N) (endValue stepValue : option N)
| IsliceLoop (end_ : option N) (selects : takeWhile_state (count_state N))
| IsliceDone.
Arguments IsliceDone {N}.

Record islice_state (N Src : Type) : Type :=
  mk_islice { is_pc : islice_pc N; enumerated : enumerate_state N Src }.

Section IsliceArguments.
Context {N : Type} {num : Number N}.

(** [v < end], where [end] may be the [Infinity] that the code assigns
    ([None]). *)
Definition lt_end (end_ : option N) (v : N) : bool :=
  match end_ with
  | None => num_lt_infinity v
  | Some e => num_ltb v e
  end.

(** The assignments and checks at the head of the body of [islice];
    [undefined] arguments are [None], and so is the [end] that is
    [Infinity] (for which [end < 0] is false). *)
Definition islice_arguments (startOrEnd : N) (endValue stepValue : option N)
  : Completion (N * option N * N) :=
  let check (start : N) (end_ : option N) (step : N) :=
    if num_ltb start num_zero
    then Throw (TypeError "start param must be non-negative or undefined")
    else if match end_ with Some e => num_ltb e num_zero | None => false end
    then Throw (TypeError "end param must be non-negative or undefined")
    else if num_leb step num_zero
    then Throw (TypeError "step param must be positive or undefined")
    else Normal (start, end_, step) in
  match endValue with
  | None =>
      match stepValue with
      | None =>
          if num_ltb startOrEnd num_zero
          then Throw (TypeError "k param must be non-negative or undefined")
          else check num_zero (Some startOrEnd) num_one
      | Some stepValue => check startOrEnd None stepValue
      end
  | Some endValue =>
      check startOrEnd (Some endValue)
            (match stepValue with Some s => s | None => num_one end)
  end.
End IsliceArguments.

Section Islice.
Context {N : Type} {num : Number N}.
Context {Src T : Type}.
Variable src_next : Next Src T.

(** [function* enumerate(iterable, start = 0) { yield* zip(count(start), iterable) }]:
    both sources are pulled, [count] first; the tuple is yielded only if
    neither is done. *)
Definition enumerate (iterable : Src) (start : N) : enumerate_state N Src :=
  mk_enumerate (count start num_one) iterable false.

Definition enumerate_next : Next (enumerate_state N Src) (N * T) :=
  fun g =>
    if en_finished g then (Normal Done, g)
    else
      match count_next (en_count g) with
      | (Throw e, c') => (Throw e, mk_enumerate c' (en_iterable g) true)
      | (Normal r1, c') =>
          match src_next (en_iterable g) with
          | (Throw e, s') => (Throw e, mk_enumerate c' s' true)
          | (Normal r2, s') =>
              match r1, r2 with
              | Value i, Value x =>
                  (Normal (Value (i, x)), mk_enumerate c' s' false)
              | _, _ => (Normal Done, mk_enumerate c' s' true)
              end
          end
      end.

(** The generator made by a call [islice(iterable, startOrEnd, endValue,
    stepValue)].  Its first statement, [const enumerated =
    enumerate(iterable)], makes a generator and pulls nothing, so
    [enumerated] is part of the state from the start. *)
Definition islice_generator (iterable : Src) (startOrEnd : N)
  (endValue stepValue : option N) : islice_state N Src :=
  mk_islice (IsliceStart startOrEnd endValue stepValue)
            (enumerate iterable num_zero).

(** The call itself.  [islice] is declared with [function*]: the call runs
    no statement of the body and hands back the suspended generator. *)
Definition islice (iterable : Src) (startOrEnd : N)
  (endValue stepValue : option N) : Completion (islice_state N Src) :=
  Normal (islice_generator iterable startOrEnd endValue stepValue).

(** The inner [for (;;)]: pull [enumerated] until position [select] comes
    up ([Value val]: go on to [yield val]) or the source ends ([Done]: the
    [return]).  One unit of fuel per round. *)
Fixpoint seek (fuel : nat) (select : N) (en : enumerate_state N Src)
  : option (Completion (IteratorResult T) * enumerate_state N Src) :=
  match fuel with
  | O => None
  | S fuel' =>
      match enumerate_next en with
      | (Throw e, en') => Some (Throw e, en')
      | (Normal Done, en') => Some (Normal Done, en')
      | (Normal (Value (i, val)), en') =>
          if num_eqb i select then Some (Normal (Value val), en')
          else seek fuel' select en'
      end
  end.

(** One round of [for (const select of takeWhile(count(start, step), (v) => v < end))]
    up to the [yield]. *)
Definition islice_loop (fuel : nat) (end_ : option N)
  (selects : takeWhile_state (count_state N)) (en : enumerate_state N Src)
  : option (Completion (IteratorResult T) * islice_state N Src) :=
  match takeWhile_next count_next (lt_end end_) selects with
  | (Throw e, _) => Some (Throw e, mk_islice (IsliceDone) en)
  | (Normal Done, _) => Some (Normal Done, mk_islice IsliceDone en)
  | (Normal (Value select), selects') =>
      match seek fuel select en with
      | None => None
      | Some (Normal (Value val), en') =>
          Some (Normal (Value val), mk_islice (IsliceLoop end_ selects') en')
      | Some (Normal Done, en') => Some (Normal Done, mk_islice IsliceDone en')
      | Some (Throw e, en') => Some (Throw e, mk_islice IsliceDone en')
      end
  end.

Definition islice_next (fuel : nat) : PartialNext (islice_state N Src) T :=
  fun g =>
    match is_pc g with
    | IsliceDone => Some (Normal Done, g)
    | IsliceStart startOrEnd endValue stepValue =>
        match islice_arguments startOrEnd endValue stepValue with
        | Throw e => Some (Throw e, mk_islice IsliceDone (enumerated g))
        | Normal (start, end_, step) =>
            islice_loop fuel end_ (takeWhile (count start step)) (enumerated g)
        end
    | IsliceLoop end_ selects => islice_loop fuel end_ selects (enumerated g)
    end.
End Islice.

(** *** enumerate as an instance of zip *)

Section EnumerateAsZip.
Context {N : Type} {num : Number N}.
Context {Src T : Type}.
Variable src_next : Next Src T.

(** The two sources of [zip(count(start), iterable)] under one type. *)
Definition either_next : Next (count_state N + Src) (N + T) :=
  fun s =>
    match s with
    | inl c =>
        match count_next c with
        | (Normal (Value i), c') => (Normal (Value (inl i)), inl c')
        | (Normal Done, c') => (Normal Done, inl c')
        | (Throw e, c') => (Throw e, inl c')
        end
    | inr it =>
        match src_next it with
        | (Normal (Value x), it') => (Normal (Value (inr x)), inr it')
        | (Normal Done, it') => (Normal Done, inr it')
        | (Throw e, it') => (Throw e, inr it')
        end
    end.

Definition as_zip (g : enumerate_state N Src)
  : zip_state (count_state N + Src) :=
  mk_zip [inl (en_count g); inr (en_iterable g)] (en_finished g).

Definition as_tuple (r : Completion (IteratorResult (N * T)))
  : Completion (IteratorResult (list (option (N + T)))) :=
  match r with
  | Normal (Value (i, x)) => Normal (Value [Some (inl i); Some (inr x)])
  | Normal Done => Normal Done
  | Throw e => Throw e
  end.
End EnumerateAsZip.

(** *** Vocabulary for the statements about islice *)

Section IsliceVocabulary.
Context {N : Type} {num : Number N}.
Context {Src : Type}.

(** [enumerated] with [i] as its next position and [s] as its source. *)
Definition en_at (i : N) (s : Src) : enumerate_state N Src :=
  mk_enumerate (mk_count i num_one) s false.

(** The state at the [yield], or at the head of the first round: [c] is
    the next wanted position. *)
Definition loop_at (end_ : option N) (c step i : N) (s : Src)
  : islice_state N Src :=
  mk_islice
    (IsliceLoop end_ (mk_takeWhile (mk_count c step) false)) (en_at i s).

End IsliceVocabulary.

(** Pulling [s] gives the values [xs], in order, and leaves [s']. *)
Inductive yields {S V} (next : Next S V) : S -> list V -> S -> Prop :=
| yields_nil s : yields next s [] s
| yields_cons s x s1 xs s' :
    next s = (Normal (Value x), s1) ->
    yields next s1 xs s' ->
    yields next s (x :: xs) s'.

(** The next pull on [s] answers done. *)
Definition exhausted {S V} (next : Next S V) (s : S) : Prop :=
  exists s', next s = (Normal Done, s').

Section EffectiveArguments.
Context {N : Type} {num : Number N}.

(** The values of [start], [end] and [step] a call works with. *)
Definition effective_start (startOrEnd : N) (endValue stepValue : option N) : N :=
  match endValue, stepValue with
  | None, None => num_zero
  | _, _ => startOrEnd
  end.

Definition effective_end (startOrEnd : N) (endValue stepValue : option N)
  : option N :=
  match endValue, stepValue with
  | Some e, _ => Some e
  | None, None => Some startOrEnd
  | None, Some _ => None
  end.

Definition effective_step (stepValue : option N) : N :=
  match stepValue with
  | Some s => s
  | None => num_one
  end.
End EffectiveArguments.

(** [v < end] on the integers, where [end] may be unbounded ([None]). *)
Definition below_end (end_ : option Z) (v : Z) : bool :=
  match end_ with
  | None => true
  | Some e => (v <? e)%Z
  end.

(** A slice of a source of [n] values all of whose numbers are within [B]:
    [end], and every value the two counters of [islice] take; the counter
    of [enumerate] stays below [n + 2] and the counter of the wanted
    positions below [max start (n + step) + step]. *)
Definition slice_within (B : Z) (n : nat) (start : Z) (end_ : option Z)
  (step : Z) : Prop :=
  (forall e, end_ = Some e -> within B e)
  /\ within B (Z.max start (Z.of_nat n + step) + step).

(** The first [n] values of a generator, fewer if it ends before. *)
Fixpoint take_pulls {S V} (next : PartialNext S V) (n : nat) (g : S)
  : option (Completion (list V) * S) :=
  match n with
  | O => Some (Normal [], g)
  | Datatypes.S n' =>
      match next g with
      | None => None
      | Some (Throw e, g') => Some (Throw e, g')
      | Some (Normal Done, g') => Some (Normal [], g')
      | Some (Normal (Value v), g') =>
          match take_pulls next n' g' with
          | None => None
          | Some (Throw e, g'') => Some (Throw e, g'')
          | Some (Normal vs, g'') => Some (Normal (v :: vs), g'')
          end
      end
  end.

(** ** groupBy *)

(** What [currKey], [targetKey] and [currValue] may hold: the object [{}]
    they are initialised with (one object per variable, equal to itself
    only), [undefined] (what the destructuring assigns when the iterator is
    done), or a key or element of the iterable. *)
Inductive slot (A : Type) : Type :=
| Placeholder
| Undefined
| Item (a : A).
Arguments Placeholder {A}.
Arguments Undefined {A}.

(** Where a [grouper] generator is suspended: before its [while], at its
    [yield], or after its end. *)
Inductive grouper_pc : Type :=
| GrouperStart
| GrouperYielded
| GrouperDone.

(** A [grouper] generator: the [targetId] it was called with, and where it
    is suspended.  Everything else it touches belongs to [groupBy]. *)
Record grouper_state : Type :=
  mk_grouper { targetId : nat; g_pc : grouper_pc }.

Section GroupBy.
Context {T K : Type}.

(** [===] on keys: [key_eq a b] is [a === b].  Nothing is assumed of it:
    on doubles [NaN === NaN] is false. *)
Variable key_eq : K -> K -> bool.

(** The key function; the default is [(v) => v]. *)
Variable keyFunc : T -> K.

Definition strict_eq (a b : slot K) : bool :=
  match a, b with
  | Placeholder, Placeholder => true
  | Undefined, Undefined => true
  | Item x, Item y => key_eq x y
  | _, _ => false
  end.

(** The variables of one [groupBy] call, shared with every [grouper] it
    makes.  [it] is the iterator of an array; [id] is the object [{}] made
    at each round of the outer loop, kept as a counter: two of them are
    [===] exactly when they were made in the same round. *)
Record groupBy_state : Type :=
  mk_groupBy {
      it : list T;
      currKey : slot K;
      targetKey : slot K;
      currValue : slot T;
      id : nat;
      gb_finished : bool
    }.

Definition groupBy (iterable : list T) : groupBy_state :=
  mk_groupBy iterable Placeholder Placeholder Placeholder 0 false.

(** [while (currKey === targetKey) {
       if (!({ value: currValue } = it.next()).done) currKey = keyFunc(currValue)
       else return }]
    The boolean tells whether the [return] was taken. *)
Fixpoint skip (target ck : slot K) (cv : slot T) (l : list T) {struct l}
  : bool * slot K * slot T * list T :=
  if strict_eq ck target then
    match l with
    | [] => (true, ck, Undefined, [])
    | x :: l' => skip target (Item (keyFunc x)) (Item x) l'
    end
  else (false, ck, cv, l).

(** One pull on the outer generator: one round of [while (true)]. *)
Definition groupBy_next (g : groupBy_state)
  : IteratorResult (slot K * grouper_state) * groupBy_state :=
  if gb_finished g then (Done, g)
  else
    let id' := S (id g) in
    match skip (targetKey g) (currKey g) (currValue g) (it g) with
    | (true, ck, cv, l) => (Done, mk_groupBy l ck (targetKey g) cv id' true)
    | (false, ck, cv, l) =>
        (Value (ck, mk_grouper id' GrouperStart),
         mk_groupBy l ck ck cv id' false)
    end.

(** The head of [while (id === targetId && currKey === targetKey) { yield currValue ... }] *)
Definition grouper_head (g : groupBy_state) (h : grouper_state)
  : IteratorResult (slot T) * groupBy_state * grouper_state :=
  if (id g =? targetId h) && strict_eq (currKey g) (targetKey g)
  then (Value (currValue g), g, mk_grouper (targetId h) GrouperYielded)
  else (Done, g, mk_grouper (targetId h) GrouperDone).

(** One pull on a [grouper].  Resumed at its [yield], it first runs
    [({ value: currValue } = it.next())] and only then comes back to the
    head of the loop. *)
Definition grouper_next (g : groupBy_state) (h : grouper_state)
  : IteratorResult (slot T) * groupBy_state * grouper_state :=
  match g_pc h with
  | GrouperDone => (Done, g, h)
  | GrouperStart => grouper_head g h
  | GrouperYielded =>
      match it g with
      | x :: l' =>
          grouper_head
            (mk_groupBy l' (Item (keyFunc x)) (targetKey g) (Item x) (id g)
                        (gb_finished g))
            h
      | [] =>
          (Done,
           mk_groupBy [] (currKey g) (targetKey g) Undefined (id g)
                      (gb_finished g),
           mk_grouper (targetId h) GrouperDone)
      end
  end.

(** [[...h]] for a grouper [h]. *)
Fixpoint spread_grouper (fuel : nat) (g : groupBy_state) (h : grouper_state)
  : option (list (slot T) * groupBy_state) :=
  match fuel with
  | O => None
  | S fuel' =>
      match grouper_next g h with
      | (Done, g', _) => Some ([], g')
      | (Value v, g', h') =>
          match spread_grouper fuel' g' h' with
          | None => None
          | Some (vs, g'') => Some (v :: vs, g'')
          end
      end
  end.

(** [for (const [k, h] of groupBy(xs)) { out.push([k, [...h]]) }]: every
    group is spread as soon as it is yielded. *)
Fixpoint consume_groups (F fuel : nat) (g : groupBy_state)
  : option (list (slot K * list (slot T))) :=
  match fuel with
  | O => None
  | S fuel' =>
      match groupBy_next g with
      | (Done, _) => Some []
      | (Value (k, h), g') =>
          match spread_grouper F g' h with
          | None => None
          | Some (vs, g'') =>
              match consume_groups F fuel' g'' with
              | None => None
              | Some groups => Some ((k, vs) :: groups)
              end
          end
      end
  end.
End GroupBy.

(** ** tailIterable, map, filter, filterFalse, takeWhile's sibling dropWhile *)

(** A generator whose body is one loop over one iterator: that iterator,
    and whether the generator has ended. *)
Record loop_state (S : Type) : Type :=
  mk_loop { source : S; ended : bool }.

(** [dropWhile]: first the [while] that looks for an item failing the
    predicate, then [yield* tailIterable(iterator)]. *)
Inductive dropWhile_state (S : Type) : Type :=
| DropWhileStart (iterator : S)
| DropWhileTail (tail : loop_state S).

(** [chain(...toChain)]: the iterables not yet finished, the one being
    iterated first. *)
Record chain_state (S : Type) : Type :=
  mk_chain { toChain : list S; chain_ended : bool }.

(** Where [cycle] is suspended: before its body, at the [yield] of the
    first loop ([item] is yet to be pushed on [saved]), at the [yield] of
    the second loop (having yielded [saved[j]]), or after its end. *)
Inductive cycle_state (S T : Type) : Type :=
| CycleStart (iterable : S)
| CycleFirst (iterator : S) (saved : list T) (item : T)
| CycleAgain (saved : list T) (j : nat)
| CycleDone.

Arguments CycleStart {S T} iterable.
Arguments CycleFirst {S T} iterator saved item.
Arguments CycleAgain {S T} saved j.
Arguments CycleDone {S T}.

(** Where [accumulate] is suspended: before its body, at one of its two
    [yield accumulated], or after its end. *)
Inductive accumulate_state (S R : Type) : Type :=
| AccumulateStart (iterator : S)
| AccumulateLoop (accumulated : R) (tail : loop_state S)
| AccumulateDone.

Arguments AccumulateDone {S R}.
Arguments AccumulateStart {S R} iterator.
Arguments AccumulateLoop {S R} accumulated tail.

Section Transforms.
Context {S T : Type}.
Variable next : Next S T.

(** [function* tailIterable(iterator) {
       while (!({ value } = iterator.next()).done) yield value }] *)
Definition tailIterable (iterator : S) : loop_state S :=
  mk_loop iterator false.

Definition tailIterable_next : Next (loop_state S) T :=
  fun g =>
    if ended g then (Normal Done, g)
    else
      match next (source g) with
      | (Throw e, s') => (Throw e, mk_loop s' true)
      | (Normal Done, s') => (Normal Done, mk_loop s' true)
      | (Normal (Value value), s') => (Normal (Value value), mk_loop s' false)
      end.

(** [for (const item of iterable) { if (predicate(item)) yield item }]
    from the head of the loop to the next [yield]; one unit of fuel per
    item looked at. *)
Fixpoint filter_loop (predicate : T -> bool) (fuel : nat) (s : S)
  : option (Completion (IteratorResult T) * loop_state S) :=
  match fuel with
  | O => None
  | Datatypes.S fuel' =>
      match next s with
      | (Throw e, s') => Some (Throw e, mk_loop s' true)
      | (Normal Done, s') => Some (Normal Done, mk_loop s' true)
      | (Normal (Value item), s') =>
          if predicate item
          then Some (Normal (Value item), mk_loop s' false)
          else filter_loop predicate fuel' s'
      end
  end.

Definition filter_next (predicate : T -> bool) (fuel : nat)
  : PartialNext (loop_state S) T :=
  fun g =>
    if ended g then Some (Normal Done, g)
    else filter_loop predicate fuel (source g).

(** [function* filterFalse(iterable, predicate) {
       yield* filter(iterable, (v) => !predicate(v)) }] *)
Definition filterFalse_next (predicate : T -> bool) (fuel : nat)
  : PartialNext (loop_state S) T :=
  filter_next (fun v => negb (predicate v)) fuel.

Definition dropWhile (iterable : S) : dropWhile_state S :=
  DropWhileStart iterable.

(** [while (!({ value } = iterator.next()).done) {
       if (!predicate(value)) { yield value; break } }]
    When the iterator is done the loop is left and [tailIterable] pulls it
    once more. *)
Fixpoint dropWhile_loop (predicate : T -> bool) (fuel : nat) (s : S)
  : option (Completion (IteratorResult T) * dropWhile_state S) :=
  match fuel with
  | O => None
  | Datatypes.S fuel' =>
      match next s with
      | (Throw e, s') => Some (Throw e, DropWhileTail (mk_loop s' true))
      | (Normal Done, s') =>
          let '(r, t) := tailIterable_next (tailIterable s') in
          Some (r, DropWhileTail t)
      | (Normal (Value value), s') =>
          if negb (predicate value)
          then Some (Normal (Value value), DropWhileTail (tailIterable s'))
          else dropWhile_loop predicate fuel' s'
      end
  end.

Definition dropWhile_next (predicate : T -> bool) (fuel : nat)
  : PartialNext (dropWhile_state S) T :=
  fun g =>
    match g with
    | DropWhileStart s => dropWhile_loop predicate fuel s
    | DropWhileTail t =>
        let '(r, t') := tailIterable_next t in Some (r, DropWhileTail t')
    end.

(** ** all, any, contains, reduce *)

(** [for (const item of iterable) { if (!predicate(item)) return false }
    return true] *)
Fixpoint all (predicate : T -> bool) (fuel : nat) (s : S)
  : option (Completion bool * S) :=
  match fuel with
  | O => None
  | Datatypes.S fuel' =>
      match next s with
      | (Throw e, s') => Some (Throw e, s')
      | (Normal Done, s') => Some (Normal true, s')
      | (Normal (Value item), s') =>
          if negb (predicate item) then Some (Normal false, s')
          else all predicate fuel' s'
      end
  end.

(** [return !all(iterable, (item) => !predicate(item))] *)
Definition any (predicate : T -> bool) (fuel : nat) (s : S)
  : option (Completion bool * S) :=
  match all (fun item => negb (predicate item)) fuel s with
  | None => None
  | Some (Throw e, s') => Some (Throw e, s')
  | Some (Normal b, s') => Some (Normal (negb b), s')
  end.

(** [return any(haystack, (value) => value === needle)]; [value_eq a b] is
    [a === b], of which nothing is assumed. *)
Definition contains (value_eq : T -> T -> bool)
  (fuel : nat) (haystack : S) (needle : T) : option (Completion bool * S) :=
  any (fun value => value_eq value needle) fuel haystack.

(** [let accumulated = initialValue
    for (const item of iterable) { accumulated = reducer(accumulated, item) }
    return accumulated] *)
Fixpoint reduce {R : Type} (reducer : R -> T -> R) (fuel : nat) (s : S)
  (accumulated : R) : option (Completion R * S) :=
  match fuel with
  | O => None
  | Datatypes.S fuel' =>
      match next s with
      | (Throw e, s') => Some (Throw e, s')
      | (Normal Done, s') => Some (Normal accumulated, s')
      | (Normal (Value item), s') =>
          reduce reducer fuel' s' (reducer accumulated item)
      end
  end.

(** ** chain *)

Definition chain (toChain : list S) : chain_state S :=
  mk_chain toChain false.

(** [for (const iterable of toChain) { for (const item of iterable) { yield item } }] *)
Fixpoint chain_loop (its : list S)
  : Completion (IteratorResult T) * chain_state S :=
  match its with
  | [] => (Normal Done, mk_chain [] true)
  | i :: rest =>
      match next i with
      | (Throw e, i') => (Throw e, mk_chain (i' :: rest) true)
      | (Normal Done, _) => chain_loop rest
      | (Normal (Value item), i') =>
          (Normal (Value item), mk_chain (i' :: rest) false)
      end
  end.

Definition chain_next : Next (chain_state S) T :=
  fun g =>
    if chain_ended g then (Normal Done, g) else chain_loop (toChain g).

(** ** cycle *)

Definition cycle (iterable : S) : cycle_state S T :=
  CycleStart iterable.

(** [while (saved.length > 0) { for (const item of saved) { yield item } }]
    with the inner loop about to visit index [j]. *)
Definition cycle_again (saved : list T) (j : nat)
  : Completion (IteratorResult T) * cycle_state S T :=
  match nth_error saved j with
  | Some item => (Normal (Value item), CycleAgain saved j)
  | None =>
      match saved with
      | [] => (Normal Done, CycleDone)
      | item :: _ => (Normal (Value item), CycleAgain saved 0)
      end
  end.

(** The head of [for (const item of iterable) { yield item; saved.push(item) }] *)
Definition cycle_first (iterator : S) (saved : list T)
  : Completion (IteratorResult T) * cycle_state S T :=
  match next iterator with
  | (Throw e, _) => (Throw e, CycleDone)
  | (Normal Done, _) => cycle_again saved 0
  | (Normal (Value item), s') =>
      (Normal (Value item), CycleFirst s' saved item)
  end.

Definition cycle_next : Next (cycle_state S T) T :=
  fun g =>
    match g with
    | CycleStart iterable => cycle_first iterable []
    | CycleFirst iterator saved item => cycle_first iterator (saved ++ [item])
    | CycleAgain saved j => cycle_again saved (Datatypes.S j)
    | CycleDone => (Normal Done, CycleDone)
    end.
End Transforms.

(** [map] and [filter], under names that leave those of lists alone. *)
Module Itertools.
Section MapFilter.
Context {S T M : Type}.
Variable next : Next S T.

(** [function* map(iterable, mapFunction) {
       for (const item of iterable) { yield mapFunction(item) } }] *)
Definition map (iterable : S) : loop_state S := mk_loop iterable false.

Definition map_next (mapFunction : T -> M) : Next (loop_state S) M :=
  fun g =>
    if ended g then (Normal Done, g)
    else
      match next (source g) with
      | (Throw e, s') => (Throw e, mk_loop s' true)
      | (Normal Done, s') => (Normal Done, mk_loop s' true)
      | (Normal (Value item), s') =>
          (Normal (Value (mapFunction item)), mk_loop s' false)
      end.

Definition filter (iterable : S) : loop_state S := mk_loop iterable false.

Definition filterFalse (iterable : S) : loop_state S := filter iterable.
End MapFilter.
End Itertools.

(** ** reduce_ and accumulate *)

Section Accumulate.
Context {S T : Type}.
Variable next : Next S T.

(** [const { done, value: initialValue } = iterator.next()
    if (done) return undefined
    return reduce(tailIterable(iterator), reducer, initialValue)] *)
Definition reduce_ (reducer : T -> T -> T) (fuel : nat) (iterator : S)
  : option (Completion (option T) * S) :=
  match next iterator with
  | (Throw e, s') => Some (Throw e, s')
  | (Normal Done, s') => Some (Normal None, s')
  | (Normal (Value initialValue), s') =>
      match reduce (tailIterable_next next) reducer fuel (tailIterable s')
                   initialValue with
      | None => None
      | Some (Throw e, t) => Some (Throw e, source t)
      | Some (Normal r, t) => Some (Normal (Some r), source t)
      end
  end.

(** The body of [accumulate].  [initial] is [None] when [undefined];
    [seed] is what the first value makes of [accumulated] then
    ([accumulated = value] without a reducer, [reducer(undefined, value)]
    with one), and [reducer] is what the loop calls. *)
Definition accumulate_body {R : Type} (seed : T -> R) (reducer : R -> T -> R)
  (initial : option R) : Next (accumulate_state S R) R :=
  fun g =>
    match g with
    | AccumulateDone => (Normal Done, AccumulateDone)
    | AccumulateStart iterator =>
        match initial with
        | None =>
            match next iterator with
            | (Throw e, _) => (Throw e, AccumulateDone)
            | (Normal Done, _) => (Normal Done, AccumulateDone)
            | (Normal (Value value), s') =>
                let accumulated := seed value in
                (Normal (Value accumulated),
                 AccumulateLoop accumulated (tailIterable s'))
            end
        | Some accumulated =>
            (Normal (Value accumulated),
             AccumulateLoop accumulated (tailIterable iterator))
        end
    | AccumulateLoop accumulated tail =>
        match tailIterable_next next tail with
        | (Throw e, _) => (Throw e, AccumulateDone)
        | (Normal Done, _) => (Normal Done, AccumulateDone)
        | (Normal (Value item), tail') =>
            let accumulated' := reducer accumulated item in
            (Normal (Value accumulated'), AccumulateLoop accumulated' tail')
        end
    end.

Definition accumulate (R : Type) (iterable : S) : accumulate_state S R :=
  AccumulateStart iterable.

(** [accumulate(iterable, reducer, initial)].  What the reducer takes and
    gives, and [initial], are values that may be [undefined] ([None]); the
    code tests [initial === undefined], so an [undefined] initial value is
    taken for a missing one. *)
Definition accumulate_next {R : Type} (reducer : option R -> T -> option R)
  (initial : option R) : Next (accumulate_state S (option R)) (option R) :=
  accumulate_body (fun value => reducer None value) reducer
                  (option_map (@Some R) initial).

(** [accumulate(iterable, reducer)]: the reducer is given [undefined]
    ([None]) with the first value. *)
Definition accumulate_seeded_next {R : Type} (reducer : option R -> T -> R)
  : Next (accumulate_state S R) R :=
  accumulate_body (fun value => reducer None value)
                  (fun accumulated item => reducer (Some accumulated) item)
                  None.
End Accumulate.

(** [accumulate(iterable)] over numbers: the default reducer is
    [(a ?? 0) + b], given the value accumulated so far, which is never
    [undefined]; its [typeof b !== 'number'] never fires. *)
Definition accumulate_sum_next {N : Type} {num : Number N} {S : Type}
  (next : Next S N) : Next (accumulate_state S N) N :=
  accumulate_body next (fun value => value)
                  (fun accumulated item => num_add accumulated item) None.

(** ** compress *)

(** [zip] at two sources of different element types. *)
Record zip2_state (A B : Type) : Type :=
  mk_zip2 { z_first : A; z_second : B; z_ended : bool }.

Section Compress.
Context {A B VA VB : Type}.
Variable nextA : Next A VA.
Variable nextB : Next B VB.

Definition zip2 (a : A) (b : B) : zip2_state A B := mk_zip2 a b false.

(** Both sources are pulled, the first one first; the pair is yielded only
    if neither is done. *)
Definition zip2_next : Next (zip2_state A B) (VA * VB) :=
  fun g =>
    if z_ended g then (Normal Done, g)
    else
      match nextA (z_first g) with
      | (Throw e, a') => (Throw e, mk_zip2 a' (z_second g) true)
      | (Normal r1, a') =>
          match nextB (z_second g) with
          | (Throw e, b') => (Throw e, mk_zip2 a' b' true)
          | (Normal r2, b') =>
              match r1, r2 with
              | Value x, Value y =>
                  (Normal (Value (x, y)), mk_zip2 a' b' false)
              | _, _ => (Normal Done, mk_zip2 a' b' true)
              end
          end
      end.

(** The two sources under one type, as [zip] takes them. *)
Definition sum_next : Next (A + B) (VA + VB) :=
  fun s =>
    match s with
    | inl a =>
        match nextA a with
        | (Normal (Value x), a') => (Normal (Value (inl x)), inl a')
        | (Normal Done, a') => (Normal Done, inl a')
        | (Throw e, a') => (Throw e, inl a')
        end
    | inr b =>
        match nextB b with
        | (Normal (Value y), b') => (Normal (Value (inr y)), inr b')
        | (Normal Done, b') => (Normal Done, inr b')
        | (Throw e, b') => (Throw e, inr b')
        end
    end.

Definition zip2_as_zip_state (g : zip2_state A B) : zip_state (A + B) :=
  mk_zip [inl (z_first g); inr (z_second g)] (z_ended g).

Definition pair_as_tuple (r : Completion (IteratorResult (VA * VB)))
  : Completion (IteratorResult (list (option (VA + VB)))) :=
  match r with
  | Normal (Value (x, y)) => Normal (Value [Some (inl x); Some (inr y)])
  | Normal Done => Normal Done
  | Throw e => Throw e
  end.

(** [function* compress(data, selectors) {
       for (const [d, s] of zip(data, selectors)) { if (s) { yield d } } }]
    [truthy] is the test [if (s)]. *)
Definition compress (data : A) (selectors : B) : zip2_state A B :=
  zip2 data selectors.

Fixpoint compress_loop (truthy : VB -> bool) (fuel : nat) (g : zip2_state A B)
  : option (Completion (IteratorResult VA) * zip2_state A B) :=
  match fuel with
  | O => None
  | S fuel' =>
      match zip2_next g with
      | (Throw e, g') => Some (Throw e, g')
      | (Normal Done, g') => Some (Normal Done, g')
      | (Normal (Value (d, s)), g') =>
          if truthy s then Some (Normal (Value d), g')
          else compress_loop truthy fuel' g'
      end
  end.

Definition compress_next (truthy : VB -> bool) (fuel : nat)
  : PartialNext (zip2_state A B) VA :=
  compress_loop truthy fuel.
End Compress.

(** ** chainFromIterable *)

(** The iterator over the iterables, and the iterable being iterated, if
    any. *)
Record chainFrom_state (Outer S : Type) : Type :=
  mk_chainFrom { cf_outer : Outer; cf_inner : option S; cf_ended : bool }.

Section ChainFromIterable.
Context {Outer S T : Type}.
Variable outer_next : Next Outer S.
Variable next : Next S T.

Definition chainFromIterable (toChain : Outer) : chainFrom_state Outer S :=
  mk_chainFrom toChain None false.

(** [for (const iterable of toChain) { for (const item of iterable) { yield item } }]
    with [toChain] itself pulled on demand. *)
Fixpoint chainFrom_loop (fuel : nat) (outer : Outer) (inner : option S)
  : option (Completion (IteratorResult T) * chainFrom_state Outer S) :=
  match fuel with
  | O => None
  | Datatypes.S fuel' =>
      match inner with
      | Some i =>
          match next i with
          | (Throw e, i') => Some (Throw e, mk_chainFrom outer (Some i') true)
          | (Normal Done, _) => chainFrom_loop fuel' outer None
          | (Normal (Value item), i') =>
              Some (Normal (Value item), mk_chainFrom outer (Some i') false)
          end
      | None =>
          match outer_next outer with
          | (Throw e, outer') => Some (Throw e, mk_chainFrom outer' None true)
          | (Normal Done, outer') =>
              Some (Normal Done, mk_chainFrom outer' None true)
          | (Normal (Value iterable), outer') =>
              chainFrom_loop fuel' outer' (Some iterable)
          end
      end
  end.

Definition chainFromIterable_next (fuel : nat)
  : PartialNext (chainFrom_state Outer S) T :=
  fun g =>
    if cf_ended g then Some (Normal Done, g)
    else chainFrom_loop fuel (cf_outer g) (cf_inner g).
End ChainFromIterable.

(** ** groupBy, spread before its groups *)

Section GroupByOuterFirst.
Context {T K : Type}.
Variable key_eq : K -> K -> bool.
Variable keyFunc : T -> K.

(** [[...groupBy(values)]] *)
Fixpoint spread_groupBy (fuel : nat) (g : groupBy_state (T := T) (K := K))
  : option (list (slot K * grouper_state) * groupBy_state (T := T) (K := K)) :=
  match fuel with
  | O => None
  | S fuel' =>
      match groupBy_next key_eq keyFunc g with
      | (Done, g') => Some ([], g')
      | (Value kh, g') =>
          match spread_groupBy fuel' g' with
          | None => None
          | Some (pairs, g'') => Some (kh :: pairs, g'')
          end
      end
  end.

(** [pairs.map(([k, g]) => [...g])] *)
Fixpoint spread_each (F : nat) (g : groupBy_state (T := T) (K := K))
  (pairs : list (slot K * grouper_state))
  : option (list (list (slot T)) * groupBy_state (T := T) (K := K)) :=
  match pairs with
  | [] => Some ([], g)
  | (_, h) :: pairs' =>
      match spread_grouper key_eq keyFunc F g h with
      | None => None
      | Some (vs, g') =>
          match spread_each F g' pairs' with
          | None => None
          | Some (vss, g'') => Some (vs :: vss, g'')
          end
      end
  end.
End GroupByOuterFirst.

(** *** Vocabulary for the further statements *)

(** The value of [i] in [count(start, step)] after [k] rounds of its loop:
    [step] added [k] times to [start]. *)
Fixpoint count_value {N : Type} {num : Number N} (start step : N) (k : nat)
  : N :=
  match k with
  | O => start
  | S k' => count_value (num_add start step) step k'
  end.

(** Arguments of [range] all of whose numbers are within [B]: every value
    its counter takes lies between [start] and [end], or at most one step
    beyond [end]. *)
Definition range_within (B : Z) (start end_ step : Z) : Prop :=
  within B start /\ within B (Z.abs end_ + Z.abs step).

(** No key is [===] to the key before it. *)
Fixpoint adjacent_differ {K : Type} (key_eq : K -> K -> bool) (ks : list K)
  : Prop :=
  match ks with
  | a :: (b :: _) as rest => key_eq b a = false /\ adjacent_differ key_eq rest
  | _ => True
  end.

(** The keys of the runs of [xs]: the key of each element whose key is not
    [===] to the key [run] of the run before it. *)
Fixpoint run_keys {T K : Type} (key_eq : K -> K -> bool)
  (keyFunc : T -> K) (run : option K) (xs : list T) : list K :=
  match xs with
  | [] => []
  | x :: rest =>
      let k := keyFunc x in
      match run with
      | Some p =>
          if key_eq k p then run_keys key_eq keyFunc (Some p) rest
          else k :: run_keys key_eq keyFunc (Some k) rest
      | None => k :: run_keys key_eq keyFunc (Some k) rest
      end
  end.

(** No key of an element of [xs] is [NaN]: each is [===] to itself. *)
Definition keys_self_equal {T K : Type} (key_eq : K -> K -> bool)
  (keyFunc : T -> K) (xs : list T) : Prop :=
  Forall (fun x => key_eq (keyFunc x) (keyFunc x) = true) xs.


(** The strict lexicographic order on tuples of values that an order [R]
    on values gives: the first entries that differ decide, and they stand
    in [R]; a tuple comes after its proper prefixes. *)
Inductive lex {A : Type} (R : A -> A -> Prop) : list A -> list A -> Prop :=
| lex_nil b y : lex R [] (b :: y)
| lex_head a b x y : R a b -> a <> b -> lex R (a :: x) (b :: y)
| lex_tail a x y : lex R x y -> lex R (a :: x) (a :: y).

(** An order on values, carried to array slots: a slot that is
    [undefined] is not compared. *)
Definition on_defined {A : Type} (R : A -> A -> Prop) (a b : option A) : Prop :=
  match a, b with
  | Some x, Some y => R x y
  | _, _ => False
  end.

(** The longest prefix whose elements all pass [p], and what follows it. *)
Fixpoint take_while {A : Type} (p : A -> bool) (xs : list A) : list A :=
  match xs with
  | [] => []
  | x :: rest => if p x then x :: take_while p rest else []
  end.

Fixpoint drop_while {A : Type} (p : A -> bool) (xs : list A) : list A :=
  match xs with
  | [] => []
  | x :: rest => if p x then drop_while p rest else x :: rest
  end.

(** What a pull of [chainFromIterable] over an array of arrays comes to
    when the iterable being iterated has [l] left and [outer] are the
    iterables after it: the first element to come, if any. *)
Fixpoint chain_seek {T : Type} (outer : list (list T)) (l : list T)
  : Completion (IteratorResult T) * chainFrom_state (list (list T)) (list T) :=
  match l with
  | x :: l' => (Normal (Value x), mk_chainFrom outer (Some l') false)
  | [] =>
      match outer with
      | [] => (Normal Done, mk_chainFrom [] None true)
      | i :: outer' => chain_seek outer' i
      end
  end.

(** ** Vocabulary for the statements about zip *)

(** The state a generator is left in by [n] pulls. *)
Fixpoint after {S V} (next : Next S V) (n : nat) (g : S) : S :=
  match n with
  | O => g
  | Datatypes.S n' => after next n' (snd (next g))
  end.

Section ZipVocabulary.
Context {T : Type}.

(** What an array iterator answers on its next pull. *)
Definition front (l : list T) : IteratorResult T :=
  match l with [] => Done | x :: _ => Value x end.

(** Length of the shortest of the sources [s0, rest...]. *)
Definition min_length (s0 : list T) (rest : list (list T)) : nat :=
  fold_right Nat.min (length s0) (map (@length T) rest).

(** Length of the longest source. *)
Definition max_length (sources : list (list T)) : nat :=
  list_max (map (@length T) sources).

(** The tuple of position [k]: slot [j] is [sources[j][k]], which is
    [undefined] when source [j] has fewer than [k + 1] elements. *)
Definition column (sources : list (list T)) (k : nat) : list (option T) :=
  map (fun s => nth_error s k) sources.
End ZipVocabulary.


(** ** Vocabulary for the statements about combinations *)

(** Binomial coefficient, by Pascal's rule. *)
Fixpoint choose (n k : nat) : nat :=
  match k, n with
  | O, _ => 1
  | S _, O => 0
  | S k', S n' => choose n' k' + choose n' k
  end.

(** Lexicographic order on index tuples. *)
Inductive lex_lt : list nat -> list nat -> Prop :=
| lex_lt_nil b y : lex_lt [] (b :: y)
| lex_lt_head a b x y : a < b -> lex_lt (a :: x) (b :: y)
| lex_lt_tail a x y : lex_lt x y -> lex_lt (a :: x) (a :: y).

(** [v, v + bump, v + 2 * bump, ...], [len] values. *)
Fixpoint ramp (bump v len : nat) : list nat :=
  match len with
  | O => []
  | S len' => v :: ramp bump (v + bump) len'
  end.

(** The [r]-tuples over [lo .. n - 1] whose consecutive entries grow by at
    least [bump], listed by first entry, then by the rest. *)
Fixpoint tuples (bump n r : nat) : nat -> list (list nat) :=
  match r with
  | O => fun _ => [[]]
  | S r' =>
      fun lo =>
        flat_map (fun a => map (cons a) (tuples bump n r' (a + bump)))
                 (seq lo (n - lo))
  end.

(** [l] lists the successive images of [x] under [f], and [f] answers [z]
    on the last of them. *)
Fixpoint run {A} (f : A -> option A) (x : A) (l : list A) (z : option A) : Prop :=
  match l with
  | [] => f x = z
  | y :: l' => f x = Some y /\ run f y l' z
  end.

(** Entries start at [lo] or above, stay below [n], and each is at least
    [bump] above the one before. *)
Fixpoint spaced (bump n lo : nat) (x : list nat) : Prop :=
  match x with
  | [] => True
  | a :: x' => lo <= a /\ a < n /\ spaced bump n (a + bump) x'
  end.

Section CombinationsInvariants.
Context {T : Type}.
Variable saved : list T.
Variable r : nat.

(** What holds of a [combinations] generator between pulls. *)
Definition strict_inv (g : comb_state T) : Prop :=
  match g with
  | CombStart s r' => s = saved /\ r' = r
  | CombLoop s r' ind =>
      s = saved /\ r' = r /\ r <= length saved
      /\ spaced 1 (length saved) 0 ind /\ length ind = r
  | CombDone => True
  end.

(** What holds of a [combinationsWithReplacement] generator between pulls. *)
Definition repeat_inv (g : comb_state T) : Prop :=
  match g with
  | CombStart s r' => s = saved /\ r' = r
  | CombLoop s r' ind =>
      s = saved /\ r' = r /\ (r = 0 \/ length saved <> 0)
      /\ spaced 0 (length saved) 0 ind /\ length ind = r
  | CombDone => True
  end.

End CombinationsInvariants.
(* ================================================================== *)
(** * Properties *)

Unset Implicit Arguments.

(** The operations of [Number] at the integers, as the operations of [Z]. *)
Ltac num_Z :=
  unfold num_gtb in *;
  cbn [num_zero num_one num_add num_ltb num_leb num_eqb num_is_integer
       num_lt_infinity Z_number] in *.

(** ** Unfolding [collect] *)

Lemma collect_S {S V} (next : PartialNext S V) (fuel : nat) (g : S) :
  collect next (Datatypes.S fuel) g
  = match next g with
    | None => None
    | Some (Throw e, g') => Some (Throw e, g')
    | Some (Normal Done, g') => Some (Normal [], g')
    | Some (Normal (Value v), g') =>
        match collect next fuel g' with
        | None => None
        | Some (Throw e, g'') => Some (Throw e, g'')
        | Some (Normal vs, g'') => Some (Normal (v :: vs), g'')
        end
    end.
Proof. reflexivity. Qed.

(** ** zip and zipLongest over finite sources *)

Section ZipFacts.
Context {T : Type}.

Lemma pull_all_array (ls : list (list T)) :
  pull_all array_next ls = (Normal (map front ls), map (@tl T) ls).
Proof.
  induction ls as [|l ls IH]; simpl; [reflexivity|].
  destruct l as [|x l]; simpl; rewrite IH; reflexivity.
Qed.

Lemma value_front (ls : list (list T)) :
  map (fun r => value r) (map front ls) = column ls 0.
Proof.
  unfold column. rewrite map_map. apply map_ext.
  intros [|x l]; reflexivity.
Qed.

Lemma value_or_undefined_front (ls : list (list T)) :
  map (fun r => if done r then None else value r) (map front ls) = column ls 0.
Proof.
  unfold column. rewrite map_map. apply map_ext.
  intros [|x l]; reflexivity.
Qed.

Lemma column_tl (ls : list (list T)) (k : nat) :
  column (map (@tl T) ls) k = column ls (S k).
Proof.
  unfold column. rewrite map_map. apply map_ext.
  intros [|x l]; simpl; [destruct k|]; reflexivity.
Qed.

Lemma skipn_tl (ls : list (list T)) (k : nat) :
  map (skipn k) (map (@tl T) ls) = map (skipn (S k)) ls.
Proof.
  rewrite map_map. apply map_ext.
  intros [|x l]; simpl; [destruct k|]; reflexivity.
Qed.

Lemma skipn_1_tl (ls : list (list T)) :
  map (skipn 1) ls = map (@tl T) ls.
Proof. apply map_ext. intros [|x l]; reflexivity. Qed.

Lemma length_tl (l : list T) : length (tl l) = length l - 1.
Proof. destruct l; simpl; lia. Qed.

Lemma min_length_tl (s0 : list T) (rest : list (list T)) :
  min_length (tl s0) (map (@tl T) rest) = min_length s0 rest - 1.
Proof.
  unfold min_length. induction rest as [|s1 rest IH]; simpl.
  - apply length_tl.
  - rewrite IH, length_tl. lia.
Qed.

Lemma max_length_tl (ls : list (list T)) :
  max_length (map (@tl T) ls) = max_length ls - 1.
Proof.
  unfold max_length. induction ls as [|s ls IH]; simpl; [reflexivity|].
  rewrite IH, length_tl. lia.
Qed.

Lemma some_done_min (s0 : list T) (rest : list (list T)) :
  existsb (fun r => done r) (map front (s0 :: rest)) = (min_length s0 rest =? 0).
Proof.
  unfold min_length. induction rest as [|s1 rest IH].
  - destruct s0; reflexivity.
  - simpl in *. destruct s0 as [|x s0]; simpl in *.
    + symmetry. apply Nat.eqb_eq.
      symmetry in IH. apply Nat.eqb_eq in IH. lia.
    + destruct s1 as [|y s1]; simpl; [reflexivity|].
      rewrite IH.
      destruct (fold_right Nat.min (S (length s0)) (map (@length T) rest));
        reflexivity.
Qed.

Lemma some_live_max (ls : list (list T)) :
  existsb (fun r => negb (done r)) (map front ls) = negb (max_length ls =? 0).
Proof.
  unfold max_length. induction ls as [|s ls IH]; simpl; [reflexivity|].
  rewrite IH. destruct s as [|x s]; simpl; [reflexivity|].
  destruct (list_max (map (@length T) ls)); reflexivity.
Qed.

Lemma skipn_all_sources (ls : list (list T)) :
  map (skipn (S (max_length ls))) ls = map (fun _ => []) ls.
Proof.
  apply map_ext_in. intros s Hs. apply skipn_all2.
  unfold max_length.
  assert (length s <= list_max (map (@length T) ls)); [|lia].
  pose proof (proj1 (list_max_le (map (@length T) ls) _) (le_n _)) as H.
  rewrite Forall_forall in H. apply H. now apply in_map.
Qed.

Lemma zip_next_array (s0 : list T) (rest : list (list T)) :
  zip_next array_next (zip (s0 :: rest))
  = if min_length s0 rest =? 0
    then (Normal Done, mk_zip (map (@tl T) (s0 :: rest)) true)
    else (Normal (Value (column (s0 :: rest) 0)),
          zip (map (@tl T) (s0 :: rest))).
Proof.
  unfold zip_next, zip. cbn [zip_finished iterators].
  rewrite pull_all_array, some_done_min, value_front. reflexivity.
Qed.

Lemma zipLongest_next_array (ls : list (list T)) :
  zipLongest_next array_next (zipLongest ls)
  = if max_length ls =? 0
    then (Normal Done, mk_zip (map (@tl T) ls) true)
    else (Normal (Value (column ls 0)), zipLongest (map (@tl T) ls)).
Proof.
  unfold zipLongest_next, zipLongest. cbn [zip_finished iterators].
  rewrite pull_all_array, some_live_max, value_or_undefined_front.
  destruct (max_length ls =? 0); reflexivity.
Qed.

Lemma columns_shift (ls : list (list T)) (m : nat) :
  map (column ls) (seq 0 (S m))
  = column ls 0 :: map (column (map (@tl T) ls)) (seq 0 m).
Proof.
  cbn [seq map]. f_equal.
  rewrite <- seq_shift, map_map. apply map_ext. intros k.
  symmetry. apply column_tl.
Qed.

Lemma zip_collect (m : nat) :
  forall (s0 : list T) (rest : list (list T)),
    min_length s0 rest = m ->
    collect (total (zip_next array_next)) (S m) (zip (s0 :: rest))
    = Some (Normal (map (column (s0 :: rest)) (seq 0 m)),
            mk_zip (map (skipn (S m)) (s0 :: rest)) true).
Proof.
  induction m as [|m IH]; intros s0 rest Hm.
  - rewrite collect_S. unfold total at 1.
    rewrite zip_next_array, Hm. reflexivity.
  - rewrite collect_S. unfold total at 1.
    rewrite zip_next_array, Hm. cbn [Nat.eqb].
    cbn [map]. rewrite IH by (rewrite min_length_tl; lia).
    rewrite columns_shift.
    change (tl s0 :: map (@tl T) rest) with (map (@tl T) (s0 :: rest)).
    rewrite skipn_tl. reflexivity.
Qed.

Lemma zipLongest_collect (m : nat) :
  forall (ls : list (list T)),
    max_length ls = m ->
    collect (total (zipLongest_next array_next)) (S m) (zipLongest ls)
    = Some (Normal (map (column ls) (seq 0 m)),
            mk_zip (map (skipn (S m)) ls) true).
Proof.
  induction m as [|m IH]; intros ls Hm.
  - rewrite collect_S. unfold total at 1.
    rewrite zipLongest_next_array, Hm. reflexivity.
  - rewrite collect_S. unfold total at 1.
    rewrite zipLongest_next_array, Hm. cbn [Nat.eqb].
    rewrite IH by (rewrite max_length_tl; lia).
    rewrite columns_shift, skipn_tl. reflexivity.
Qed.
End ZipFacts.

Section ZipClaims.
Context {T : Type}.

Lemma column_slot (sources : list (list T)) (k j : nat) (s : list T) :
  nth_error sources j = Some s ->
  nth_error (column sources k) j = Some (nth_error s k).
Proof.
  intros Hs. unfold column. rewrite nth_error_map, Hs. reflexivity.
Qed.

Lemma nth_error_columns (sources : list (list T)) (m k : nat) :
  k < m ->
  nth_error (map (column sources) (seq 0 m)) k = Some (column sources k).
Proof.
  intros Hk.
  rewrite nth_error_map.
  rewrite nth_error_nth' with (d := 0) by (rewrite length_seq; lia).
  rewrite seq_nth by lia. reflexivity.
Qed.

Lemma min_length_le (s0 : list T) (rest : list (list T)) (s : list T) :
  In s (s0 :: rest) -> min_length s0 rest <= length s.
Proof.
  unfold min_length. induction rest as [|s1 rest IH]; simpl.
  - intros [<-|[]]. lia.
  - intros [<-|[<-|H]]; [| lia |].
    + assert (fold_right Nat.min (length s0) (map (@length T) rest)
              <= length s0) by (apply IH; now left). lia.
    + assert (fold_right Nat.min (length s0) (map (@length T) rest)
              <= length s) by (apply IH; now right). lia.
Qed.

Lemma zip_stops_at_exhausted (its : list (list T)) :
  In [] its ->
  zip_next array_next (zip its) = (Normal Done, mk_zip (map (@tl T) its) true).
Proof.
  intros Hin. unfold zip_next, zip. cbn [zip_finished iterators].
  rewrite pull_all_array.
  replace (existsb (fun r => done r) (map front its)) with true; [reflexivity|].
  symmetry. apply existsb_exists. exists Done. split; [|reflexivity].
  change Done with (front (@nil T)). now apply in_map.
Qed.

(** C5: for sources [s0, rest...] (at least one) of minimum length [m],
    spreading [zip] gives exactly [m] tuples; slot [j] of tuple [k] is
    element [k] of source [j].  Termination leaves every source advanced
    by [m + 1] pulls: at position [m] all sources were pulled and the
    values obtained were dropped; in general a pull that meets an
    exhausted source answers done after pulling every source once. *)
Theorem zip_min_length_tuples (s0 : list T) (rest : list (list T)) :
  exists tuples,
    collect (total (zip_next array_next)) (S (min_length s0 rest))
      (zip (s0 :: rest))
    = Some (Normal tuples,
            mk_zip (map (skipn (S (min_length s0 rest))) (s0 :: rest)) true)
    /\ length tuples = min_length s0 rest
    /\ (forall k t, nth_error tuples k = Some t ->
          length t = length (s0 :: rest)
          /\ forall j s, nth_error (s0 :: rest) j = Some s ->
               exists x, nth_error s k = Some x
                         /\ nth_error t j = Some (Some x))
    /\ (forall its, In [] its ->
          zip_next array_next (zip its)
          = (Normal Done, mk_zip (map (@tl T) its) true)).
Proof.
  exists (map (column (s0 :: rest)) (seq 0 (min_length s0 rest))).
  split; [now apply zip_collect|].
  split; [now rewrite length_map, length_seq|].
  split; [|apply zip_stops_at_exhausted].
  intros k t Ht.
  assert (Hk : k < min_length s0 rest).
  { assert (H : nth_error (map (column (s0 :: rest))
                  (seq 0 (min_length s0 rest))) k <> None) by congruence.
    apply nth_error_Some in H. rewrite length_map, length_seq in H. exact H. }
  rewrite nth_error_columns in Ht by exact Hk.
  assert (Et : t = column (s0 :: rest) k) by congruence.
  subst t. clear Ht. split.
  - apply (length_map (fun s => nth_error s k) (s0 :: rest)).
  - intros j s Hs.
    assert (Hlen : k < length s).
    { apply nth_error_In in Hs. apply min_length_le in Hs. lia. }
    destruct (nth_error s k) as [x|] eqn:Hx.
    + exists x. split; [reflexivity|].
      rewrite column_slot with (s := s) by exact Hs. now rewrite Hx.
    + apply nth_error_None in Hx. lia.
Qed.

Lemma zipLongest_done_iff (its : list (list T)) :
  fst (zipLongest_next array_next (zipLongest its)) = Normal Done
  <-> Forall (fun s => s = []) its.
Proof.
  rewrite zipLongest_next_array.
  destruct (max_length its =? 0) eqn:E; simpl.
  - apply Nat.eqb_eq in E. split; [intros _|reflexivity].
    apply Forall_forall. intros s Hs.
    assert (length s <= max_length its).
    { unfold max_length.
      pose proof (proj1 (list_max_le (map (@length T) its) _) (le_n _)) as H.
      rewrite Forall_forall in H. apply H. now apply in_map. }
    destruct s; [reflexivity|simpl in *; lia].
  - apply Nat.eqb_neq in E. split; [discriminate|].
    intros Hall. exfalso. apply E. clear E. unfold max_length.
    induction Hall as [|s l Hs _ IH]; [reflexivity|].
    subst s. simpl. exact IH.
Qed.

(** C6: for sources of maximum length [M], spreading [zipLongest] gives
    exactly [M] tuples; in tuple [k], the slot of a source with at most [k]
    elements is [undefined] ([None]) and the slot of any other source is
    its element [k].  A pull answers done exactly when every source is
    exhausted, and that is how the sequence ends. *)
Theorem zipLongest_max_length_tuples (sources : list (list T)) :
  exists tuples,
    collect (total (zipLongest_next array_next)) (S (max_length sources))
      (zipLongest sources)
    = Some (Normal tuples, mk_zip (map (fun _ => @nil T) sources) true)
    /\ length tuples = max_length sources
    /\ (forall k t, nth_error tuples k = Some t ->
          length t = length sources
          /\ forall j s, nth_error sources j = Some s ->
               (length s <= k -> nth_error t j = Some None)
               /\ (k < length s ->
                   exists x, nth_error s k = Some x
                             /\ nth_error t j = Some (Some x)))
    /\ (forall its : list (list T),
          fst (zipLongest_next array_next (zipLongest its)) = Normal Done
          <-> Forall (fun s => s = []) its).
Proof.
  exists (map (column sources) (seq 0 (max_length sources))).
  split; [rewrite <- skipn_all_sources; now apply zipLongest_collect|].
  split; [now rewrite length_map, length_seq|].
  split; [|apply zipLongest_done_iff].
  intros k t Ht.
  assert (Hk : k < max_length sources).
  { assert (H : nth_error (map (column sources)
                  (seq 0 (max_length sources))) k <> None) by congruence.
    apply nth_error_Some in H. rewrite length_map, length_seq in H. exact H. }
  rewrite nth_error_columns in Ht by exact Hk.
  assert (Et : t = column sources k) by congruence.
  subst t. clear Ht. split.
  - apply (length_map (fun s => nth_error s k) sources).
  - intros j s Hs. rewrite column_slot with (s := s) by exact Hs. split.
    + intros Hle. f_equal. now apply nth_error_None.
    + intros Hlt. destruct (nth_error s k) as [x|] eqn:Hx.
      * exists x. split; reflexivity.
      * apply nth_error_None in Hx. lia.
Qed.
End ZipClaims.

Section ZipZeroSources.
Context {S V : Type}.
Variable next : Next S V.

Lemma zip_nil_after (n : nat) : after (zip_next next) n (zip []) = zip [].
Proof. induction n as [|n IH]; [reflexivity|exact IH]. Qed.

(** C10: without sources [zipLongest] is done at its first pull and
    yields nothing, while every pull of [zip] yields the empty tuple and
    leaves it as it was, so spreading it never ends. *)
Theorem zip_zero_sources :
  zipLongest_next next (zipLongest []) = (Normal Done, mk_zip [] true)
  /\ collect (total (zipLongest_next next)) 1 (zipLongest [])
     = Some (Normal [], mk_zip [] true)
  /\ (forall n,
        zip_next next (after (zip_next next) n (zip []))
        = (Normal (Value []), zip []))
  /\ (forall fuel, collect (total (zip_next next)) fuel (zip []) = None).
Proof.
  split; [reflexivity|]. split; [reflexivity|]. split.
  - intros n. rewrite zip_nil_after. reflexivity.
  - induction fuel as [|fuel IH]; [reflexivity|].
    rewrite collect_S. unfold total at 1. cbn. 
    change (mk_zip (@nil S) false) with (zip (@nil S)).
    now rewrite IH.
Qed.
End ZipZeroSources.

(** ** The index tuple and how it is advanced *)

Lemma scan_cons (limit : nat -> nat) (a : nat) (rest : list nat) (k : nat) :
  scan limit (a :: rest) (S k)
  = match scan (fun i => limit (S i)) rest k with
    | Some i => Some (S i)
    | None => if a =? limit 0 then None else Some 0
    end.
Proof.
  induction k as [|k IH]; [reflexivity|].
  change (scan limit (a :: rest) (S (S k)))
    with (if nth k rest 0 =? limit (S k)
          then scan limit (a :: rest) (S k) else Some (S k)).
  rewrite IH. cbn [scan].
  destruct (nth k rest 0 =? limit (S k)); reflexivity.
Qed.

Lemma reset_cons (bump a : nat) (todo : nat) :
  forall (l : list nat) (j : nat),
    reset bump (a :: l) (S (S j)) todo = a :: reset bump l (S j) todo.
Proof.
  induction todo as [|todo IH]; intros l j; [reflexivity|].
  cbn [reset]. cbn [Nat.sub nth assign].
  rewrite IH. rewrite Nat.sub_0_r. reflexivity.
Qed.

Lemma reset_ramp (bump : nat) (rest : list nat) :
  forall v, reset bump (v :: rest) 1 (length rest) = ramp bump v (S (length rest)).
Proof.
  induction rest as [|w rest IH]; intros v; [reflexivity|].
  cbn [length reset Nat.sub nth assign].
  rewrite reset_cons, IH. reflexivity.
Qed.

Lemma advance_cons (limit : nat -> nat) (bump r a : nat) (rest : list nat) :
  length rest = r ->
  advance limit bump (S r) (a :: rest)
  = match advance (fun i => limit (S i)) bump r rest with
    | Some rest' => Some (a :: rest')
    | None => if a =? limit 0 then None else Some (ramp bump (a + 1) (S r))
    end.
Proof.
  intros Hlen. unfold advance. rewrite scan_cons.
  destruct (scan (fun i => limit (S i)) rest r) as [i|].
  - cbn [nth assign]. rewrite !Nat.add_1_r. cbn [Nat.sub].
    rewrite reset_cons. reflexivity.
  - destruct (a =? limit 0); [reflexivity|].
    cbn [nth assign Nat.add Nat.sub]. rewrite Nat.sub_0_r, <- Hlen.
    now rewrite reset_ramp.
Qed.

Lemma advance_nil (limit : nat -> nat) (bump : nat) :
  advance limit bump 0 [] = None.
Proof. reflexivity. Qed.

(** ** range *)

Lemma range_loop_spread (d : nat) :
  forall i : nat,
    collect (total range_next) (S d)
      (RangeLoop 1%Z (Z.of_nat (i + d))
                 (mk_takeWhile (mk_count (Z.of_nat i) 1%Z) false))
    = Some (Normal (map Z.of_nat (seq i d)), RangeDone).
Proof.
  induction d as [|d IH]; intros i; rewrite collect_S; unfold total at 1;
    cbn [range_next]; unfold range_loop, takeWhile_next;
    cbn [tw_finished tw_iterable count_next c_i c_step];
    unfold range_predicate; num_Z; cbn [Z.ltb Z.compare].
  - replace (Z.of_nat i <? Z.of_nat (i + 0))%Z with false
      by (symmetry; apply Z.ltb_ge; lia).
    reflexivity.
  - replace (Z.of_nat i <? Z.of_nat (i + S d))%Z with true
      by (symmetry; apply Z.ltb_lt; lia).
    cbn [negb].
    replace (Z.of_nat i + 1)%Z with (Z.of_nat (S i)) by lia.
    replace (i + S d) with (S i + d) by lia.
    rewrite IH. reflexivity.
Qed.

(** [[...range(r)]] is [[0, 1, ..., r - 1]], the tuple [combinations]
    starts from. *)
Lemma range_spread (r : nat) :
  collect (total range_next) (S r) (range (Z.of_nat r) None 1%Z)
  = Some (Normal (map Z.of_nat (seq 0 r)), RangeDone).
Proof.
  rewrite <- (range_loop_spread r 0).
  rewrite !collect_S. reflexivity.
Qed.

(** ** The list of index tuples is what [advance] walks through *)

Lemma tuples_step (bump n r lo : nat) :
  lo < n ->
  tuples bump n (S r) lo
  = map (cons lo) (tuples bump n r (lo + bump)) ++ tuples bump n (S r) (S lo).
Proof.
  intros Hlo. cbn [tuples].
  replace (n - lo) with (S (n - S lo)) by lia.
  reflexivity.
Qed.

Lemma tuples_empty (bump n r lo : nat) :
  n <= lo -> tuples bump n (S r) lo = [].
Proof.
  intros Hlo. cbn [tuples].
  replace (n - lo) with 0 by lia. reflexivity.
Qed.

Lemma tuples_length (bump n r : nat) :
  forall lo x, In x (tuples bump n r lo) -> length x = r.
Proof.
  induction r as [|r IH]; intros lo x Hx.
  - destruct Hx as [<-|[]]. reflexivity.
  - cbn [tuples] in Hx. apply in_flat_map in Hx.
    destruct Hx as (a & _ & Hx). apply in_map_iff in Hx.
    destruct Hx as (y & <- & Hy). simpl. f_equal. eapply IH, Hy.
Qed.

Lemma run_lift {A} (f g : list A -> option (list A)) (a : A) (c : option (list A)) :
  forall l x,
    (forall u, In u (x :: l) ->
       f (a :: u) = match g u with Some v => Some (a :: v) | None => c end) ->
    run g x l None ->
    run f (a :: x) (map (cons a) l) c.
Proof.
  induction l as [|y l IH]; intros x Hf Hrun; cbn [run map] in *.
  - rewrite Hf by now left. now rewrite Hrun.
  - destruct Hrun as [Hxy Hrun]. split.
    + rewrite Hf by now left. now rewrite Hxy.
    + apply IH; [|exact Hrun]. intros u Hu. apply Hf. now right.
Qed.

Lemma run_app {A} (f : A -> option A) (y : A) (l2 : list A) (z : option A) :
  forall l1 x,
    run f x l1 (Some y) -> run f y l2 z -> run f x (l1 ++ y :: l2) z.
Proof.
  induction l1 as [|w l1 IH]; intros x H1 H2; cbn [run app] in *.
  - now split.
  - destruct H1 as [Hxw H1]. split; [exact Hxw|]. now apply IH.
Qed.

Lemma mul_pred_shift (bump r : nat) : r <> 0 -> bump + bump * (r - 1) = bump * r.
Proof.
  intros Hr. destruct r as [|r]; [congruence|].
  rewrite Nat.mul_succ_r. cbn [Nat.sub]. rewrite Nat.sub_0_r. lia.
Qed.

(** With [limit i] the largest value position [i] may take, the tuples are
    listed in the order [advance] produces them, from the first ramp up to
    the one [advance] gives up on. *)
Lemma tuples_run (bump n r : nat) :
  forall (limit : nat -> nat) (lo : nat),
    (forall i, i < r -> limit i + bump * (r - 1 - i) + 1 = n) ->
    (r = 0 \/ lo + bump * (r - 1) < n ->
     exists l, tuples bump n r lo = ramp bump lo r :: l
               /\ run (advance limit bump r) (ramp bump lo r) l None)
    /\ (r <> 0 -> n <= lo + bump * (r - 1) -> tuples bump n r lo = []).
Proof.
  induction r as [|r IHr]; intros limit lo Hlimit.
  { split; [|congruence]. intros _. exists []. split; reflexivity. }
  cbn [Nat.sub]. rewrite Nat.sub_0_r.
  remember (n - lo) as k eqn:Hk. revert lo Hk.
  induction k as [|k IHk]; intros lo Hk.
  { split.
    - intros [H|H]; [discriminate|lia].
    - intros _ _. apply tuples_empty. lia. }
  assert (Hlo : lo < n) by lia.
  rewrite tuples_step by exact Hlo.
  assert (Hlimit' : forall i, i < r ->
            limit (S i) + bump * (r - 1 - i) + 1 = n).
  { intros i Hi. specialize (Hlimit (S i)).
    replace (S r - 1 - S i) with (r - 1 - i) in Hlimit by lia.
    apply Hlimit. lia. }
  assert (Hlimit0 : limit 0 + bump * r + 1 = n).
  { specialize (Hlimit 0). replace (S r - 1 - 0) with r in Hlimit by lia.
    apply Hlimit. lia. }
  destruct (IHr (fun i => limit (S i)) (lo + bump) Hlimit') as [IHa IHa0].
  destruct (IHk (S lo) ltac:(lia)) as [IHb IHb0].
  split.
  - intros [H|Hfit]; [discriminate|].
    destruct IHa as (la & Ea & Ra).
    { destruct r as [|r']; [now left|right].
      rewrite <- Nat.add_assoc, mul_pred_shift by discriminate. exact Hfit. }
    rewrite Ea. cbn [map app ramp].
    assert (Hlift : forall u, In u (ramp bump (lo + bump) r :: la) ->
              advance limit bump (S r) (lo :: u)
              = match advance (fun i => limit (S i)) bump r u with
                | Some v => Some (lo :: v)
                | None => if lo =? limit 0 then None
                          else Some (ramp bump (lo + 1) (S r))
                end).
    { intros u Hu. apply advance_cons.
      apply tuples_length with (bump := bump) (n := n) (lo := lo + bump).
      now rewrite Ea. }
    assert (Rlift : run (advance limit bump (S r))
                      (lo :: ramp bump (lo + bump) r) (map (cons lo) la)
                      (if lo =? limit 0 then None
                       else Some (ramp bump (lo + 1) (S r)))).
    { apply run_lift with (g := advance (fun i => limit (S i)) bump r);
        assumption. }
    destruct (Nat.lt_ge_cases (S lo + bump * r) n) as [Hnext|Hlast].
    + destruct IHb as (lb & Eb & Rb); [now right|].
      rewrite Eb.
      exists (map (cons lo) la ++ ramp bump (S lo) (S r) :: lb).
      split; [reflexivity|].
      apply run_app; [|exact Rb].
      replace (lo =? limit 0) with false in Rlift
        by (symmetry; apply Nat.eqb_neq; lia).
      rewrite Nat.add_1_r in Rlift. exact Rlift.
    + rewrite IHb0 by (discriminate || exact Hlast).
      rewrite app_nil_r. exists (map (cons lo) la). split; [reflexivity|].
      replace (lo =? limit 0) with true in Rlift
        by (symmetry; apply Nat.eqb_eq; lia).
      exact Rlift.
  - intros _ Hfull.
    rewrite IHb0 by (discriminate || lia).
    rewrite app_nil_r.
    rewrite IHa0; [reflexivity| |].
    + intros ->. lia.
    + destruct r as [|r']; [lia|].
      rewrite <- Nat.add_assoc, mul_pred_shift by discriminate. exact Hfull.
Qed.

(** ** What the list of index tuples contains *)

Lemma tuples_spaced (bump n r : nat) :
  forall lo x, In x (tuples bump n r lo) <-> spaced bump n lo x /\ length x = r.
Proof.
  induction r as [|r IH]; intros lo x.
  - cbn [tuples In]. split.
    + intros [<-|[]]. now split.
    + intros [_ Hlen]. left. destruct x; [reflexivity|discriminate].
  - cbn [tuples]. rewrite in_flat_map. split.
    + intros (a & Ha & Hx). apply in_seq in Ha.
      apply in_map_iff in Hx. destruct Hx as (y & <- & Hy).
      apply IH in Hy. destruct Hy as [Hy Hlen].
      cbn [spaced length]. repeat split; try lia. exact Hy.
    + intros [Hx Hlen]. destruct x as [|a y]; [discriminate|].
      cbn [spaced length] in *. destruct Hx as (Hlo & Hn & Hy).
      exists a. split; [apply in_seq; lia|].
      apply in_map. apply IH. split; [exact Hy|lia].
Qed.

Lemma spaced_sorted (bump n : nat) :
  forall x lo,
    spaced bump n lo x
    <-> StronglySorted (fun a c => a + bump <= c) x
        /\ Forall (fun i => lo <= i < n) x.
Proof.
  induction x as [|a x IH]; intros lo; cbn [spaced].
  - split; [intros _; split; constructor|trivial].
  - rewrite IH. split.
    + intros (Hlo & Hn & Hs & Hall). split.
      * constructor; [exact Hs|].
        eapply Forall_impl; [|exact Hall]. cbn. intros i Hi. lia.
      * constructor; [lia|].
        eapply Forall_impl; [|exact Hall]. cbn. intros i Hi. lia.
    + intros [Hs Hall]. inversion Hs as [|? ? Hs' Ha]; subst.
      inversion Hall as [|? ? Hlo Hall']; subst.
      repeat split; try lia; [exact Hs'|].
      rewrite Forall_forall in *. intros i Hi.
      specialize (Ha i Hi). specialize (Hall' i Hi). cbn in Ha. lia.
Qed.

Lemma StronglySorted_equiv {A} (R R' : A -> A -> Prop) (l : list A) :
  (forall a c, R a c <-> R' a c) ->
  StronglySorted R l <-> StronglySorted R' l.
Proof.
  intros HR. induction l as [|a l IH].
  - split; constructor.
  - split; intros Hs; inversion Hs as [|? ? Hs' Ha]; subst;
      (constructor; [now apply IH|]);
      (eapply Forall_impl; [|exact Ha]); intros c; apply HR.
Qed.

(** Strictly increasing positions below [n]. *)
Lemma spaced_increasing (n : nat) (x : list nat) :
  spaced 1 n 0 x <-> StronglySorted lt x /\ Forall (fun i => i < n) x.
Proof.
  rewrite spaced_sorted.
  rewrite (StronglySorted_equiv (fun a c => a + 1 <= c) lt)
    by (intros a c; lia).
  split; intros [Hs Hall]; (split; [exact Hs|]);
    (eapply Forall_impl; [|exact Hall]); cbn; intros i Hi; lia.
Qed.

(** Non-decreasing positions below [n]. *)
Lemma spaced_nondecreasing (n : nat) (x : list nat) :
  spaced 0 n 0 x <-> StronglySorted le x /\ Forall (fun i => i < n) x.
Proof.
  rewrite spaced_sorted.
  rewrite (StronglySorted_equiv (fun a c => a + 0 <= c) le)
    by (intros a c; lia).
  split; intros [Hs Hall]; (split; [exact Hs|]);
    (eapply Forall_impl; [|exact Hall]); cbn; intros i Hi; lia.
Qed.

Lemma StronglySorted_app {A} (R : A -> A -> Prop) (l1 l2 : list A) :
  StronglySorted R l1 -> StronglySorted R l2 ->
  (forall x y, In x l1 -> In y l2 -> R x y) ->
  StronglySorted R (l1 ++ l2).
Proof.
  intros H1 H2 Hcross. induction H1 as [|a l1 H1 IH Ha]; [exact H2|].
  cbn [app]. constructor.
  - apply IH. intros x y Hx Hy. apply Hcross; [now right|exact Hy].
  - apply Forall_app. split; [exact Ha|].
    apply Forall_forall. intros y Hy. apply Hcross; [now left|exact Hy].
Qed.

Lemma StronglySorted_map_cons (a : nat) (l : list (list nat)) :
  StronglySorted lex_lt l -> StronglySorted lex_lt (map (cons a) l).
Proof.
  induction 1 as [|x l Hl IH Hx]; cbn [map]; constructor; [exact IH|].
  apply Forall_map. eapply Forall_impl; [|exact Hx].
  intros y Hy. now apply lex_lt_tail.
Qed.

Lemma tuples_lex_sorted (bump n r : nat) :
  forall lo, StronglySorted lex_lt (tuples bump n r lo).
Proof.
  induction r as [|r IHr]; intros lo.
  - cbn [tuples]. repeat constructor.
  - remember (n - lo) as k eqn:Hk. revert lo Hk.
    induction k as [|k IHk]; intros lo Hk.
    + rewrite tuples_empty by lia. constructor.
    + rewrite tuples_step by lia. apply StronglySorted_app.
      * apply StronglySorted_map_cons, IHr.
      * apply IHk. lia.
      * intros x y Hx Hy. apply in_map_iff in Hx.
        destruct Hx as (u & <- & _).
        apply tuples_spaced in Hy. destruct Hy as [Hy Hlen].
        destruct y as [|b v]; [discriminate|].
        cbn [spaced] in Hy. apply lex_lt_head. lia.
Qed.

(** ** Counting *)

Lemma choose_0_r (n : nat) : choose n 0 = 1.
Proof. destruct n; reflexivity. Qed.

Lemma choose_small (n : nat) : forall k, n < k -> choose n k = 0.
Proof.
  induction n as [|n IH]; intros k Hk.
  - destruct k; [lia|reflexivity].
  - destruct k as [|k]; [lia|]. cbn [choose].
    rewrite !IH by lia. reflexivity.
Qed.

Lemma choose_diag (n : nat) : choose n n = 1.
Proof.
  induction n as [|n IH]; [reflexivity|].
  cbn [choose]. rewrite IH, choose_small by lia. reflexivity.
Qed.

(** [choose] is the binomial coefficient. *)
Lemma choose_fact (n : nat) :
  forall k, k <= n -> choose n k * (fact k * fact (n - k)) = fact n.
Proof.
  induction n as [|n IH]; intros k Hk.
  - replace k with 0 by lia. reflexivity.
  - destruct k as [|k].
    + rewrite choose_0_r. cbn [fact Nat.sub]. lia.
    + cbn [choose]. destruct (Nat.eq_dec k n) as [->|Hne].
      * rewrite choose_diag, choose_small by lia.
        rewrite Nat.sub_diag. cbn [fact]. lia.
      * pose proof (IH k ltac:(lia)) as H1.
        pose proof (IH (S k) ltac:(lia)) as H2.
        replace (S n - S k) with (S (n - S k)) by lia.
        replace (n - k) with (S (n - S k)) in H1 by lia.
        assert (Hsum : S n = S k + S (n - S k)) by lia.
        remember (n - S k) as m eqn:Hm. clear Hm.
        change (fact (S n)) with (S n * fact n).
        change (fact (S m)) with (S m * fact m) in *.
        change (fact (S k)) with (S k * fact k) in *.
        rewrite Hsum. clear Hsum Hne Hk IH.
        remember (S k) as a. remember (S m) as b.
        remember (choose n k) as c1. remember (choose n a) as c2.
        transitivity (a * (c1 * (fact k * (b * fact m)))
                      + b * (c2 * (a * fact k * fact m))); [ring|].
        rewrite H1, H2. ring.
Qed.

Lemma tuples_count_strict (n r : nat) :
  forall lo, length (tuples 1 n r lo) = choose (n - lo) r.
Proof.
  induction r as [|r IHr]; intros lo.
  - now rewrite choose_0_r.
  - remember (n - lo) as k eqn:Hk. revert lo Hk.
    induction k as [|k IHk]; intros lo Hk.
    + rewrite tuples_empty by lia. reflexivity.
    + rewrite tuples_step by lia.
      rewrite length_app, length_map, IHr, (IHk (S lo)) by lia.
      cbn [choose]. replace (n - (lo + 1)) with k by lia. reflexivity.
Qed.

Lemma tuples_count_repeat (n r : nat) :
  forall lo,
    length (tuples 0 n r lo)
    = match n - lo with
      | O => if r =? 0 then 1 else 0
      | S k => choose (k + r) r
      end.
Proof.
  induction r as [|r IHr]; intros lo.
  - cbn [tuples length Nat.eqb]. destruct (n - lo); [reflexivity|].
    now rewrite choose_0_r.
  - remember (n - lo) as k eqn:Hk. revert lo Hk.
    induction k as [|k IHk]; intros lo Hk.
    + rewrite tuples_empty by lia. reflexivity.
    + rewrite tuples_step by lia.
      rewrite length_app, length_map, IHr, (IHk (S lo)) by lia.
      rewrite Nat.add_0_r, <- Hk.
      destruct k as [|k].
      * cbn [Nat.add Nat.eqb]. cbn [choose].
        rewrite choose_diag, choose_small by lia. lia.
      * replace (S k + S r) with (S (S k + r)) by lia.
        replace (k + S r) with (S k + r) by lia.
        cbn [choose]. reflexivity.
Qed.

(** ** The index tuple stays well formed *)

Lemma ramp_length (bump len : nat) : forall v, length (ramp bump v len) = len.
Proof.
  induction len as [|len IH]; intros v; [reflexivity|].
  cbn [ramp length]. now rewrite IH.
Qed.

Lemma ramp_spaced (bump n len : nat) :
  forall v lo,
    lo <= v -> (len = 0 \/ v + bump * (len - 1) < n) ->
    spaced bump n lo (ramp bump v len).
Proof.
  induction len as [|len IH]; intros v lo Hlo Hfit; [exact I|].
  destruct Hfit as [H|Hfit]; [discriminate|].
  cbn [Nat.sub] in Hfit. rewrite Nat.sub_0_r in Hfit.
  cbn [ramp spaced]. repeat split; [exact Hlo|lia|].
  apply IH; [lia|]. destruct len as [|len']; [now left|right].
  rewrite <- Nat.add_assoc, mul_pred_shift by discriminate. exact Hfit.
Qed.

Lemma spaced_bound (bump n : nat) :
  forall x lo a, spaced bump n lo (a :: x) -> a + bump * length x < n.
Proof.
  induction x as [|c x IH]; intros lo a (Hlo & Hn & Hx).
  - cbn [length]. lia.
  - pose proof (IH _ _ Hx) as Hc. destruct Hx as (Hac & _).
    cbn [length]. rewrite Nat.mul_succ_r. lia.
Qed.

Lemma seq_ramp (r : nat) : forall v, seq v r = ramp 1 v r.
Proof.
  induction r as [|r IH]; intros v; [reflexivity|].
  cbn [seq ramp]. rewrite IH, Nat.add_1_r. reflexivity.
Qed.

Lemma repeat_ramp (r v : nat) : repeat v r = ramp 0 v r.
Proof.
  induction r as [|r IH]; [reflexivity|].
  cbn [repeat ramp]. rewrite IH, Nat.add_0_r. reflexivity.
Qed.

Lemma advance_spaced (bump n : nat) :
  forall (x : list nat) (limit : nat -> nat) (lo : nat) (y : list nat),
    (forall i, i < length x -> limit i + bump * (length x - 1 - i) + 1 = n) ->
    spaced bump n lo x ->
    advance limit bump (length x) x = Some y ->
    spaced bump n lo y /\ length y = length x.
Proof.
  induction x as [|a x IH]; intros limit lo y Hlimit Hx Hy.
  - discriminate.
  - cbn [length] in Hy. rewrite advance_cons in Hy by reflexivity.
    pose proof (spaced_bound _ _ _ _ _ Hx) as Hbound.
    destruct Hx as (Hlo & Hn & Hx).
    destruct (advance (fun i => limit (S i)) bump (length x) x) as [x'|] eqn:E.
    + injection Hy as <-.
      apply IH with (lo := a + bump) in E; [|intros i Hi|exact Hx].
      * destruct E as [Hx' Hlen]. cbn [spaced length].
        repeat split; try assumption. now rewrite Hlen.
      * specialize (Hlimit (S i)). cbn [length] in Hlimit.
        replace (S (length x) - 1 - S i) with (length x - 1 - i) in Hlimit by lia.
        apply Hlimit. lia.
    + specialize (Hlimit 0). cbn [length] in Hlimit.
      replace (S (length x) - 1 - 0) with (length x) in Hlimit by lia.
      specialize (Hlimit ltac:(lia)).
      destruct (a =? limit 0) eqn:Ea; [discriminate|].
      apply Nat.eqb_neq in Ea.
      assert (Ey : ramp bump (a + 1) (S (length x)) = y) by congruence.
      subst y. clear Hy. split.
      * apply ramp_spaced; [lia|right].
        cbn [Nat.sub]. rewrite Nat.sub_0_r. lia.
      * now rewrite ramp_length.
Qed.

Section CombinationsFacts.
Context {T : Type}.
Variable saved : list T.
Variable r : nat.

Lemma limit_strict (i : nat) :
  r <= length saved -> i < r ->
  i + length saved - r + 1 * (r - 1 - i) + 1 = length saved.
Proof. intros Hr Hi. lia. Qed.

Lemma limit_repeat (i : nat) :
  length saved <> 0 -> i < r ->
  length saved - 1 + 0 * (r - 1 - i) + 1 = length saved.
Proof. intros Hn Hi. lia. Qed.

Lemma strict_inv_next (g : comb_state T) :
  strict_inv saved r g -> strict_inv saved r (snd (combinations_next g)).
Proof.
  destruct g as [s r'|s r' ind|]; cbn [strict_inv combinations_next].
  - intros [-> ->]. destruct (length saved <? r) eqn:E; [exact I|].
    apply Nat.ltb_ge in E. cbn [snd strict_inv].
    repeat split; try assumption.
    + rewrite seq_ramp. apply ramp_spaced; [lia|].
      destruct r; [now left|right]. lia.
    + apply length_seq.
  - intros (-> & -> & Hr & Hind & Hlen).
    destruct (advance (fun i => i + length saved - r) 1 r ind) as [ind'|] eqn:E;
      [|exact I].
    rewrite <- Hlen in E. apply advance_spaced with (n := length saved) (lo := 0) in E.
    + cbn [snd strict_inv]. destruct E as [Hind' Hlen'].
      repeat split; try assumption. congruence.
    + intros i Hi. rewrite Hlen in *. now apply limit_strict.
    + exact Hind.
  - trivial.
Qed.

Lemma repeat_inv_next (g : comb_state T) :
  repeat_inv saved r g ->
  repeat_inv saved r (snd (combinationsWithReplacement_next g)).
Proof.
  destruct g as [s r'|s r' ind|];
    cbn [repeat_inv combinationsWithReplacement_next].
  - intros [-> ->].
    destruct ((length saved =? 0) && negb (r =? 0)) eqn:E; [exact I|].
    assert (Hok : r = 0 \/ length saved <> 0).
    { destruct (Nat.eqb_spec (length saved) 0), (Nat.eqb_spec r 0);
        try discriminate; auto. }
    cbn [snd repeat_inv]. repeat split; try assumption.
    + rewrite repeat_ramp. apply ramp_spaced; [lia|].
      destruct Hok as [->|Hn]; [now left|].
      destruct r; [now left|right]. lia.
    + apply repeat_length.
  - intros (-> & -> & Hok & Hind & Hlen).
    destruct (advance (fun _ => length saved - 1) 0 r ind) as [ind'|] eqn:E;
      [|exact I].
    rewrite <- Hlen in E. apply advance_spaced with (n := length saved) (lo := 0) in E.
    + cbn [snd repeat_inv]. destruct E as [Hind' Hlen'].
      repeat split; try assumption. congruence.
    + intros i Hi. rewrite Hlen in *. apply limit_repeat; [|exact Hi].
      destruct Hok as [->|Hn]; [lia|exact Hn].
    + exact Hind.
  - trivial.
Qed.

Lemma after_invariant {S V} (next : Next S V) (P : S -> Prop) :
  (forall g, P g -> P (snd (next g))) ->
  forall k g, P g -> P (after next k g).
Proof.
  intros Hstep. induction k as [|k IH]; intros g Hg; [exact Hg|].
  cbn [after]. apply IH, Hstep, Hg.
Qed.

(** C9: whenever [combinations] is suspended at its [yield] (after any
    number of pulls), its index tuple has [r] entries, strictly increasing,
    all below [n]; for [combinationsWithReplacement] the [r] entries are
    non-decreasing and all below [n]. *)
Theorem index_tuple_invariants :
  (forall k ind,
     indicies_at_yield (after combinations_next k (combinations saved r))
     = Some ind ->
     length ind = r /\ StronglySorted lt ind
     /\ Forall (fun i => i < length saved) ind)
  /\ (forall k ind,
        indicies_at_yield
          (after combinationsWithReplacement_next k
                 (combinationsWithReplacement saved r))
        = Some ind ->
        length ind = r /\ StronglySorted le ind
        /\ Forall (fun i => i < length saved) ind).
Proof.
  split; intros k ind Hat.
  - assert (Hinv : strict_inv saved r
                     (after combinations_next k (combinations saved r))).
    { apply after_invariant; [apply strict_inv_next|]. now split. }
    destruct (after combinations_next k (combinations saved r));
      try discriminate.
    injection Hat as ->. destruct Hinv as (_ & _ & _ & Hind & Hlen).
    split; [exact Hlen|]. now apply spaced_increasing.
  - assert (Hinv : repeat_inv saved r
                     (after combinationsWithReplacement_next k
                            (combinationsWithReplacement saved r))).
    { apply after_invariant; [apply repeat_inv_next|]. now split. }
    destruct (after combinationsWithReplacement_next k
                    (combinationsWithReplacement saved r));
      try discriminate.
    injection Hat as ->. destruct Hinv as (_ & _ & _ & Hind & Hlen).
    split; [exact Hlen|]. now apply spaced_nondecreasing.
Qed.
End CombinationsFacts.

(** ** combinations and combinationsWithReplacement list the index tuples *)

Section CombinationsEnumeration.
Context {T : Type}.
Variable saved : list T.
Variable r : nat.

Lemma combinations_loop_collect :
  forall l x,
    run (advance (fun i => i + length saved - r) 1 r) x l None ->
    collect (total combinations_next) (S (length l)) (CombLoop saved r x)
    = Some (Normal (map (pick saved) l), CombDone).
Proof.
  induction l as [|y l IH]; intros x Hrun; cbn [run] in Hrun;
    rewrite collect_S; unfold total at 1; cbn [combinations_next].
  - now rewrite Hrun.
  - destruct Hrun as [Hxy Hrun]. rewrite Hxy.
    cbn [length]. now rewrite IH.
Qed.

Lemma combinationsWithReplacement_loop_collect :
  forall l x,
    run (advance (fun _ => length saved - 1) 0 r) x l None ->
    collect (total combinationsWithReplacement_next) (S (length l))
      (CombLoop saved r x)
    = Some (Normal (map (pick saved) l), CombDone).
Proof.
  induction l as [|y l IH]; intros x Hrun; cbn [run] in Hrun;
    rewrite collect_S; unfold total at 1;
    cbn [combinationsWithReplacement_next].
  - now rewrite Hrun.
  - destruct Hrun as [Hxy Hrun]. rewrite Hxy.
    cbn [length]. now rewrite IH.
Qed.

Lemma pick_defined (x : list nat) :
  Forall (fun i => i < length saved) x -> ~ In None (pick saved x).
Proof.
  intros Hall Hin. apply in_map_iff in Hin.
  destruct Hin as (i & Hi & Hx).
  rewrite Forall_forall in Hall. apply Hall in Hx.
  apply nth_error_None in Hi. lia.
Qed.

Lemma tuples_strict_members (x : list nat) :
  In x (tuples 1 (length saved) r 0)
  <-> length x = r /\ StronglySorted lt x
      /\ Forall (fun i => i < length saved) x.
Proof.
  rewrite tuples_spaced, spaced_increasing. tauto.
Qed.

Lemma tuples_repeat_members (x : list nat) :
  In x (tuples 0 (length saved) r 0)
  <-> length x = r /\ StronglySorted le x
      /\ Forall (fun i => i < length saved) x.
Proof.
  rewrite tuples_spaced, spaced_nondecreasing. tauto.
Qed.

Lemma combinations_listing :
  r <= length saved ->
  exists idxs,
    collect (total combinations_next) (S (choose (length saved) r))
      (combinations saved r)
    = Some (Normal (map (pick saved) idxs), CombDone)
    /\ length idxs = choose (length saved) r
    /\ (forall x, In x idxs
                  <-> length x = r /\ StronglySorted lt x
                      /\ Forall (fun i => i < length saved) x)
    /\ StronglySorted lex_lt idxs
    /\ (forall x, In x idxs -> ~ In None (pick saved x)).
Proof.
  intros Hr. exists (tuples 1 (length saved) r 0).
  assert (Hcount : length (tuples 1 (length saved) r 0)
                   = choose (length saved) r)
    by (rewrite tuples_count_strict; f_equal; lia).
  split; [|split; [exact Hcount|split; [exact tuples_strict_members|split]]].
  - destruct (tuples_run 1 (length saved) r
                (fun i => i + length saved - r) 0) as [Hrun _].
    { intros i Hi. lia. }
    destruct Hrun as (l & El & Hrun); [destruct r; [now left|right; lia]|].
    rewrite <- Hcount, El. cbn [length].
    rewrite collect_S. unfold total at 1, combinations.
    cbn [combinations_next].
    replace (length saved <? r) with false
      by (symmetry; apply Nat.ltb_ge; exact Hr).
    rewrite seq_ramp, (combinations_loop_collect l _ Hrun).
    reflexivity.
  - apply tuples_lex_sorted.
  - intros x Hx. apply pick_defined.
    now apply tuples_strict_members in Hx.
Qed.

Lemma combinations_beyond :
  length saved < r ->
  combinations_next (combinations saved r) = (Normal Done, CombDone).
Proof.
  intros Hr. unfold combinations. cbn [combinations_next].
  replace (length saved <? r) with true
    by (symmetry; apply Nat.ltb_lt; exact Hr).
  reflexivity.
Qed.

Lemma combinationsWithReplacement_spread :
  exists idxs,
    collect (total combinationsWithReplacement_next) (S (length idxs))
      (combinationsWithReplacement saved r)
    = Some (Normal (map (pick saved) idxs), CombDone)
    /\ (0 < length saved -> length idxs = choose (length saved + r - 1) r)
    /\ (length saved = 0 -> r = 0 -> idxs = [[]])
    /\ (length saved = 0 -> 0 < r -> idxs = [])
    /\ (forall x, In x idxs
                  <-> length x = r /\ StronglySorted le x
                      /\ Forall (fun i => i < length saved) x)
    /\ StronglySorted lex_lt idxs.
Proof.
  exists (tuples 0 (length saved) r 0).
  split; [|split; [|split; [|split; [|split]]]].
  - destruct (Nat.eq_dec (length saved) 0) as [Hn|Hn];
      [destruct r as [|r'] eqn:Er|].
    + rewrite collect_S. unfold total at 1, combinationsWithReplacement.
      cbn [combinationsWithReplacement_next]. rewrite Hn. reflexivity.
    + rewrite tuples_empty by lia.
      rewrite collect_S. unfold total at 1, combinationsWithReplacement.
      cbn [combinationsWithReplacement_next]. rewrite Hn. reflexivity.
    + destruct (tuples_run 0 (length saved) r
                  (fun _ => length saved - 1) 0) as [Hrun _].
      { intros i Hi. lia. }
      destruct Hrun as (l & El & Hrun); [destruct r; [now left|right; lia]|].
      rewrite El. cbn [length].
      rewrite collect_S. unfold total at 1, combinationsWithReplacement.
      cbn [combinationsWithReplacement_next].
      replace (length saved =? 0) with false
        by (symmetry; apply Nat.eqb_neq; exact Hn).
      cbn [andb].
      rewrite repeat_ramp, (combinationsWithReplacement_loop_collect l _ Hrun).
      reflexivity.
  - intros Hn. rewrite tuples_count_repeat.
    destruct (length saved) as [|k]; [lia|].
    cbn [Nat.sub]. f_equal. lia.
  - intros Hn ->. reflexivity.
  - intros Hn Hr. destruct r as [|r']; [lia|]. apply tuples_empty. lia.
  - exact tuples_repeat_members.
  - apply tuples_lex_sorted.
Qed.
End CombinationsEnumeration.

(** C3: for [0 <= r <= n], spreading [combinations(source, r)] gives one
    tuple for each index tuple of [idxs], holding the elements of the
    source at these positions, in this order; [idxs] has [C(n, r)]
    entries, holds exactly the strictly increasing [r]-tuples of positions
    below [n], and is in lexicographic order; every slot of a tuple is an
    element of the source.  For [r > n] the first pull already answers
    done and nothing is raised.  Over ABCD with [r = 2] the tuples are
    AB AC AD BC BD CD. *)
Theorem combinations_enumerates :
  (forall (T : Type) (saved : list T) (r : nat),
     r <= length saved ->
     exists idxs,
       collect (total combinations_next) (S (choose (length saved) r))
         (combinations saved r)
       = Some (Normal (map (fun x => map (fun i => nth_error saved i) x) idxs),
               CombDone)
       /\ length idxs = choose (length saved) r
       /\ (forall x, In x idxs
                     <-> length x = r /\ StronglySorted lt x
                         /\ Forall (fun i => i < length saved) x)
       /\ StronglySorted lex_lt idxs
       /\ (forall x, In x idxs ->
             Forall (fun i => exists v, nth_error saved i = Some v) x))
  /\ (forall (T : Type) (saved : list T) (r : nat),
        length saved < r ->
        combinations_next (combinations saved r) = (Normal Done, CombDone))
  /\ collect (total combinations_next) 7
       (combinations ["A"; "B"; "C"; "D"]%string 2)
     = Some (Normal (map (map (@Some string))
               [["A"; "B"]; ["A"; "C"]; ["A"; "D"];
                ["B"; "C"]; ["B"; "D"]; ["C"; "D"]]%string),
             CombDone).
Proof.
  split; [|split; [|reflexivity]].
  - intros T saved r Hr.
    destruct (combinations_listing saved r Hr)
      as (idxs & Hcollect & Hlen & Hmem & Hsorted & _).
    exists idxs. split; [exact Hcollect|]. split; [exact Hlen|].
    split; [exact Hmem|]. split; [exact Hsorted|].
    intros x Hx. apply Hmem in Hx. destruct Hx as (_ & _ & Hrange).
    eapply Forall_impl; [|exact Hrange]. cbn beta. intros i Hi.
    destruct (nth_error saved i) as [v|] eqn:E; [now exists v|].
    apply nth_error_None in E. lia.
  - intros T saved r. apply combinations_beyond.
Qed.

(** C4: spreading [combinationsWithReplacement(source, r)] gives the
    selections at the index tuples [idxs], which hold exactly the
    non-decreasing [r]-tuples of positions below [n], in lexicographic
    order: [C(n + r - 1, r)] of them when [n > 0], the empty tuple alone
    when [n = 0] and [r = 0], none when [n = 0] and [r > 0].  Over ABCD
    with [r = 2] these are AA AB AC AD BB BC BD CC CD DD. *)
Theorem combinationsWithReplacement_enumerates :
  (forall (T : Type) (saved : list T) (r : nat),
   exists idxs,
     collect (total combinationsWithReplacement_next) (S (length idxs))
       (combinationsWithReplacement saved r)
     = Some (Normal (map (pick saved) idxs), CombDone)
     /\ (0 < length saved -> length idxs = choose (length saved + r - 1) r)
     /\ (length saved = 0 -> r = 0 -> idxs = [[]])
     /\ (length saved = 0 -> 0 < r -> idxs = [])
     /\ (forall x, In x idxs
                   <-> length x = r /\ StronglySorted le x
                       /\ Forall (fun i => i < length saved) x)
     /\ StronglySorted lex_lt idxs)
  /\ collect (total combinationsWithReplacement_next) 11
       (combinationsWithReplacement ["A"; "B"; "C"; "D"]%string 2)
     = Some (Normal (map (map (@Some string))
               [["A"; "A"]; ["A"; "B"]; ["A"; "C"]; ["A"; "D"];
                ["B"; "B"]; ["B"; "C"]; ["B"; "D"];
                ["C"; "C"]; ["C"; "D"]; ["D"; "D"]]%string),
             CombDone).
Proof.
  split; [intros T saved r; apply combinationsWithReplacement_spread|].
  reflexivity.
Qed.

(** C3 at two of three elements. *)
Lemma combinations_enumerates_witness :
  2 <= length [1; 2; 3]
  /\ exists idxs,
       collect (total combinations_next) (S (choose (length [1; 2; 3]) 2))
         (combinations [1; 2; 3] 2)
       = Some (Normal (map (fun x => map (fun i => nth_error [1; 2; 3] i) x)
                           idxs),
               CombDone)
       /\ length idxs = choose (length [1; 2; 3]) 2
       /\ (forall x, In x idxs
                     <-> length x = 2 /\ StronglySorted lt x
                         /\ Forall (fun i => i < length [1; 2; 3]) x)
       /\ StronglySorted lex_lt idxs
       /\ (forall x, In x idxs ->
             Forall (fun i => exists v, nth_error [1; 2; 3] i = Some v) x).
Proof.
  split; [cbn; lia|].
  apply (proj1 combinations_enumerates nat [1; 2; 3] 2). cbn. lia.
Defined.

(** C9 after two pulls of [combinations([1, 2, 3], 2)]. *)
Lemma index_tuple_invariants_witness :
  indicies_at_yield (after combinations_next 2 (combinations [1; 2; 3] 2))
  = Some [0; 2]
  /\ length [0; 2] = 2 /\ StronglySorted lt [0; 2]
  /\ Forall (fun i => i < length [1; 2; 3]) [0; 2].
Proof.
  split; [reflexivity|].
  apply (proj1 (index_tuple_invariants [1; 2; 3] 2) 2 [0; 2]). reflexivity.
Defined.

(** ** islice *)

Section IsliceFacts.
Context {Src T : Type}.
Variable src_next : Next Src T.

Lemma enumerate_next_value {N : Type} {num : Number N} (i : N) (s s1 : Src)
  (x : T) :
  src_next s = (Normal (Value x), s1) ->
  enumerate_next src_next (en_at i s)
  = (Normal (Value (i, x)), en_at (num_add i num_one) s1).
Proof.
  intros Hs. unfold enumerate_next, en_at.
  cbn [en_finished en_count en_iterable count_next c_i c_step].
  now rewrite Hs.
Qed.

Lemma enumerate_next_done {N : Type} {num : Number N} (i : N) (s s1 : Src) :
  src_next s = (Normal Done, s1) ->
  enumerate_next src_next (en_at i s)
  = (Normal Done, mk_enumerate (mk_count (num_add i num_one) num_one) s1 true).
Proof.
  intros Hs. unfold enumerate_next, en_at.
  cbn [en_finished en_count en_iterable count_next c_i c_step].
  now rewrite Hs.
Qed.

Lemma yields_app (s s1 s' : Src) (xs ys : list T) :
  yields src_next s xs s1 -> yields src_next s1 ys s' ->
  yields src_next s (xs ++ ys) s'.
Proof.
  induction 1 as [|s x s2 xs s1 Hx _ IH]; intros Hys; [exact Hys|].
  cbn [app]. econstructor; [exact Hx|]. now apply IH.
Qed.

Lemma yields_split (xs ys : list T) :
  forall s s',
    yields src_next s (xs ++ ys) s' ->
    exists s1, yields src_next s xs s1 /\ yields src_next s1 ys s'.
Proof.
  induction xs as [|x xs IH]; intros s s' H.
  - exists s. split; [constructor|exact H].
  - cbn [app] in H. inversion H as [|? ? s2 ? ? Hx Hrest]; subst.
    destruct (IH _ _ Hrest) as (s1 & H1 & H2).
    exists s1. split; [econstructor; eassumption|exact H2].
Qed.

End IsliceFacts.

(** *** Numbers that are exact on the integers within a bound *)

Lemma exact_within_Z (B : Z) : exact_within B (fun a : Z => a).
Proof. constructor; intros; reflexivity. Qed.

Lemma in_integers_within (B : nat) (a : Z) :
  within (Z.of_nat B) a -> In a (integers_within B).
Proof.
  unfold within, integers_within. intros Ha. apply in_map_iff.
  exists (Z.to_nat (a + Z.of_nat B)). split; [lia|].
  apply in_seq. lia.
Qed.

Lemma holds_within_correct (B : nat) (test : Z -> Z -> bool) :
  holds_within B test = true ->
  forall a b, within (Z.of_nat B) a -> within (Z.of_nat B) b -> test a b = true.
Proof.
  unfold holds_within. intros H a b Ha Hb.
  rewrite forallb_forall in H. specialize (H a (in_integers_within B a Ha)).
  rewrite forallb_forall in H. exact (H b (in_integers_within B b Hb)).
Qed.

(** The doubles of the integers up to 64, by trying every pair. *)
Lemma exact_within_float : exact_within 64 float_of_Z.
Proof.
  assert (H : holds_within 64 (float_exact_test 64) = true)
    by (vm_compute; reflexivity).
  pose proof (holds_within_correct 64 (float_exact_test 64) H) as Hall.
  assert (Hab : forall a b, within 64 a -> within 64 b ->
                            float_exact_test 64 a b = true)
    by (intros a b Ha Hb; apply Hall; assumption).
  clear H Hall.
  constructor; try reflexivity.
  - intros a b Ha Hb Hsum. specialize (Hab a b Ha Hb).
    unfold float_exact_test in Hab.
    replace (Z.abs (a + b) <=? Z.of_nat 64)%Z with true in Hab
      by (symmetry; apply Z.leb_le; exact Hsum).
    repeat (apply andb_prop in Hab; destruct Hab as [Hab ?]).
    now apply Leibniz.eqb_spec.
  - intros a b Ha Hb. specialize (Hab a b Ha Hb).
    unfold float_exact_test in Hab.
    repeat (apply andb_prop in Hab; destruct Hab as [Hab ?]).
    now apply Bool.eqb_prop.
  - intros a b Ha Hb. specialize (Hab a b Ha Hb).
    unfold float_exact_test in Hab.
    repeat (apply andb_prop in Hab; destruct Hab as [Hab ?]).
    now apply Bool.eqb_prop.
  - intros a b Ha Hb. specialize (Hab a b Ha Hb).
    unfold float_exact_test in Hab.
    repeat (apply andb_prop in Hab; destruct Hab as [Hab ?]).
    now apply Bool.eqb_prop.
  - intros a Ha. specialize (Hab a a Ha Ha).
    unfold float_exact_test in Hab.
    repeat (apply andb_prop in Hab; destruct Hab as [Hab ?]).
    assumption.
  - intros a Ha. specialize (Hab a a Ha Ha).
    unfold float_exact_test in Hab.
    repeat (apply andb_prop in Hab; destruct Hab as [Hab ?]).
    assumption.
Qed.

Section IsliceExact.
Context {N : Type} {num : Number N}.
Context {Src T : Type}.
Variable src_next : Next Src T.
Variable inj : Z -> N.
Variable B : Z.
Hypothesis exact : exact_within B inj.

Lemma within_between (a b : Z) :
  (0 <= a <= b)%Z -> within B b -> within B a.
Proof. unfold within. lia. Qed.

Lemma enumerate_pull_exact (i : Z) (s s1 : Src) (x : T) :
  src_next s = (Normal (Value x), s1) ->
  (0 <= i)%Z -> within B (i + 1) ->
  enumerate_next src_next (en_at (inj i) s)
  = (Normal (Value (inj i, x)), en_at (inj (i + 1)) s1).
Proof.
  intros Hs Hi Hb. rewrite (enumerate_next_value src_next _ _ _ _ Hs).
  rewrite <- (exact_one exact), (exact_add exact i 1); [reflexivity| | |exact Hb];
    apply (within_between _ (i + 1)); (lia || assumption).
Qed.

Lemma enumerate_done_exact (i : Z) (s s1 : Src) :
  src_next s = (Normal Done, s1) ->
  exists en',
    enumerate_next src_next (en_at (inj i) s) = (Normal Done, en').
Proof.
  intros Hs. rewrite (enumerate_next_done src_next _ _ _ Hs).
  eexists. reflexivity.
Qed.

Lemma seek_found (pre : list T) (x : T) :
  forall (s s1 : Src) (i : Z) (fuel : nat),
    yields src_next s (pre ++ [x]) s1 ->
    length pre < fuel ->
    (0 <= i)%Z -> within B (i + Z.of_nat (length pre) + 1) ->
    seek src_next fuel (inj (i + Z.of_nat (length pre))) (en_at (inj i) s)
    = Some (Normal (Value x), en_at (inj (i + Z.of_nat (length pre) + 1)) s1).
Proof.
  induction pre as [|p pre IH]; intros s s1 i fuel Hy Hfuel Hi Hb;
    (destruct fuel as [|fuel]; [lia|]);
    cbn [app] in Hy; inversion Hy as [|? ? s2 ? ? Hx Hrest]; subst;
    cbn [seek].
  - inversion Hrest; subst. cbn [length Z.of_nat] in *.
    rewrite Z.add_0_r in *.
    rewrite (enumerate_pull_exact i _ _ _ Hx Hi Hb).
    rewrite (exact_eqb exact i i), Z.eqb_refl; [reflexivity| |];
      apply (within_between _ (i + 1)); (lia || assumption).
  - cbn [length] in Hb, Hfuel.
    rewrite (enumerate_pull_exact i _ _ _ Hx Hi)
      by (apply (within_between _ (i + Z.of_nat (S (length pre)) + 1));
          (lia || assumption)).
    rewrite (exact_eqb exact i (i + Z.of_nat (length (p :: pre))))
      by (apply (within_between _ (i + Z.of_nat (S (length pre)) + 1));
          (cbn [length]; lia || assumption)).
    replace (i =? i + Z.of_nat (length (p :: pre)))%Z with false
      by (symmetry; apply Z.eqb_neq; cbn [length]; lia).
    replace (i + Z.of_nat (length (p :: pre)))%Z
      with (i + 1 + Z.of_nat (length pre))%Z by (cbn [length]; lia).
    rewrite (IH s2 s1 (i + 1)%Z fuel Hrest); [|lia|lia|].
    + reflexivity.
    + replace (i + 1 + Z.of_nat (length pre) + 1)%Z
        with (i + Z.of_nat (S (length pre)) + 1)%Z by lia.
      exact Hb.
Qed.

Lemma seek_done (xs : list T) :
  forall (s s' : Src) (i select : Z) (fuel : nat),
    yields src_next s xs s' -> exhausted src_next s' ->
    length xs < fuel ->
    (i + Z.of_nat (length xs) <= select)%Z ->
    (0 <= i)%Z -> within B (i + Z.of_nat (length xs) + 1) ->
    within B select ->
    exists en',
      seek src_next fuel (inj select) (en_at (inj i) s)
      = Some (Normal Done, en').
Proof.
  induction xs as [|x xs IH];
    intros s s' i select fuel Hy Hex Hfuel Hsel Hi Hb Hselect;
    (destruct fuel as [|fuel]; [lia|]);
    inversion Hy as [|? ? s2 ? ? Hx Hrest]; subst; cbn [seek].
  - destruct Hex as (s2 & Hdone).
    destruct (enumerate_done_exact i _ _ Hdone) as (en' & ->).
    eexists. reflexivity.
  - cbn [length] in *.
    rewrite (enumerate_pull_exact i _ _ _ Hx Hi)
      by (apply (within_between _ (i + Z.of_nat (S (length xs)) + 1));
          (lia || assumption)).
    rewrite (exact_eqb exact i select)
      by ((apply (within_between _ (i + Z.of_nat (S (length xs)) + 1));
           (lia || assumption)) || assumption).
    replace (i =? select)%Z with false
      by (symmetry; apply Z.eqb_neq; lia).
    apply IH with (s' := s'); try assumption; try lia.
    replace (i + 1 + Z.of_nat (length xs) + 1)%Z
      with (i + Z.of_nat (S (length xs)) + 1)%Z by lia.
    exact Hb.
Qed.

Lemma lt_end_exact (end_ : option Z) (c : Z) :
  (forall e, end_ = Some e -> within B e) -> within B c ->
  lt_end (option_map inj end_) (inj c) = below_end end_ c.
Proof.
  intros Hend Hc. destruct end_ as [e|]; cbn [option_map lt_end below_end].
  - apply (exact_ltb exact); [exact Hc|now apply Hend].
  - now apply (exact_lt_infinity exact).
Qed.

Lemma below_end_later (end_ : option Z) (c d : Z) :
  below_end end_ c = false -> (0 <= d)%Z -> below_end end_ (c + d)%Z = false.
Proof.
  destruct end_ as [e|]; cbn [below_end]; [|discriminate].
  intros Hc Hd. apply Z.ltb_ge in Hc. apply Z.ltb_ge. lia.
Qed.

Lemma below_end_earlier (end_ : option Z) (c d : Z) :
  below_end end_ (c + d)%Z = true -> (0 <= d)%Z -> below_end end_ c = true.
Proof.
  destruct end_ as [e|]; cbn [below_end]; [|reflexivity].
  intros Hc Hd. apply Z.ltb_lt in Hc. apply Z.ltb_lt. lia.
Qed.

Lemma islice_loop_collect (fuel : nat) :
  forall (xs : list T) (s s' : Src) (end_ : option Z) (c step i : Z) (F : nat),
    yields src_next s xs s' ->
    (exhausted src_next s'
     \/ exists e, end_ = Some e /\ (e <= i + Z.of_nat (length xs))%Z) ->
    (0 <= i)%Z -> (i <= c)%Z -> (0 < step)%Z ->
    (forall e, end_ = Some e -> within B e) ->
    within B (Z.max c (i + Z.of_nat (length xs) + step) + step) ->
    length xs < fuel -> length xs < F ->
    exists out g',
      collect (islice_next src_next F) fuel
        (loop_at (option_map inj end_) (inj c) (inj step) (inj i) s)
      = Some (Normal out, g')
      /\ forall j,
           nth_error out j
           = if below_end end_ (c + Z.of_nat j * step)%Z
             then nth_error xs (Z.to_nat (c + Z.of_nat j * step - i))
             else None.
Proof.
  induction fuel as [|fuel IH];
    intros xs s s' end_ c step i F Hy Htail Hi Hic Hstep Hend Hb Hfuel HF;
    [lia|].
  assert (Hwc : within B c) by (unfold within in *; lia).
  assert (Hwstep : within B step) by (unfold within in *; lia).
  assert (Hwnext : within B (c + step)) by (unfold within in *; lia).
  rewrite collect_S.
  change (islice_next src_next F
            (loop_at (option_map inj end_) (inj c) (inj step) (inj i) s))
    with (islice_loop src_next F (option_map inj end_)
            (mk_takeWhile (mk_count (inj c) (inj step)) false)
            (en_at (inj i) s)).
  unfold islice_loop, takeWhile_next.
  cbn [tw_finished tw_iterable count_next c_i c_step].
  rewrite (lt_end_exact end_ c Hend Hwc).
  rewrite (exact_add exact c step Hwc Hwstep Hwnext).
  destruct (below_end end_ c) eqn:Hbelow; cbn [negb].
  2:{ eexists [], _. split; [reflexivity|]. intros j.
      rewrite below_end_later by (assumption || nia).
      now destruct j. }
  destruct (Nat.lt_ge_cases (Z.to_nat (c - i)) (length xs)) as [Hin|Hout].
  - (* position [c] is among the values still to come *)
    destruct (nth_error xs (Z.to_nat (c - i))) as [x|] eqn:Hx;
      [|apply nth_error_None in Hx; lia].
    apply nth_error_split in Hx. destruct Hx as (pre & post & -> & Hpre).
    replace (pre ++ x :: post) with ((pre ++ [x]) ++ post) in Hy
      by (rewrite <- app_assoc; reflexivity).
    apply yields_split in Hy. destruct Hy as (s1 & Hy1 & Hy2).
    rewrite length_app in Hfuel, HF, Htail, Hb.
    cbn [length] in Hfuel, HF, Htail, Hb.
    assert (Hseek : seek src_next F (inj c) (en_at (inj i) s)
                    = Some (Normal (Value x), en_at (inj (c + 1)) s1)).
    { replace c with (i + Z.of_nat (length pre))%Z at 1 2 by lia.
      apply seek_found; [exact Hy1|lia|exact Hi|].
      unfold within in *. lia. }
    rewrite Hseek.
    destruct (IH post s1 s' end_ (c + step)%Z step (c + 1)%Z F Hy2)
      as (out & g' & Hcollect & Hout); try lia; try assumption.
    { destruct Htail as [Hex|(e & He & Hle)]; [now left|right].
      exists e. split; [exact He|lia]. }
    { unfold within in *. lia. }
    unfold loop_at in Hcollect. rewrite Hcollect.
    exists (x :: out), g'. split; [reflexivity|].
    intros [|j].
    + cbn [nth_error Z.of_nat]. rewrite Z.mul_0_l, Z.add_0_r, Hbelow.
      rewrite nth_error_app2 by lia.
      replace (Z.to_nat (c - i) - length pre) with 0 by lia. reflexivity.
    + cbn [nth_error]. rewrite Hout.
      replace (c + step + Z.of_nat j * step)%Z
        with (c + Z.of_nat (S j) * step)%Z by lia.
      destruct (below_end end_ (c + Z.of_nat (S j) * step)%Z); [|reflexivity].
      rewrite nth_error_app2 by nia.
      replace (Z.to_nat (c + Z.of_nat (S j) * step - i) - length pre)
        with (S (Z.to_nat (c + Z.of_nat (S j) * step - (c + 1)))) by nia.
      reflexivity.
  - (* the source ends before position [c] *)
    assert (Hex : exhausted src_next s').
    { destruct Htail as [Hex|(e & -> & Hle)]; [exact Hex|].
      cbn [below_end] in Hbelow. apply Z.ltb_lt in Hbelow. lia. }
    destruct (seek_done xs s s' i c F Hy Hex HF ltac:(lia) Hi) as (en' & Hseek);
      [unfold within in *; lia|exact Hwc|].
    rewrite Hseek.
    eexists [], _. split; [reflexivity|].
    intros j. replace (nth_error [] j) with (@None T) by now destruct j.
    destruct (below_end end_ (c + Z.of_nat j * step)%Z); [|reflexivity].
    symmetry. apply nth_error_None. nia.
Qed.

(** The same walk, stopped after [n] values: for sources that do not end
    and slices without end. *)
Lemma islice_loop_take (n : nat) :
  forall (xs : list T) (s s' : Src) (end_ : option Z) (c step i : Z) (F : nat),
    yields src_next s xs s' ->
    (0 <= i)%Z -> (i <= c)%Z -> (0 < step)%Z ->
    (forall e, end_ = Some e -> within B e) ->
    within B (Z.max c (i + Z.of_nat (length xs) + step) + step) ->
    (n = 0
     \/ (below_end end_ (c + Z.of_nat (n - 1) * step)%Z = true
         /\ Z.to_nat (c + Z.of_nat (n - 1) * step - i) < length xs)) ->
    length xs < F ->
    exists out g',
      take_pulls (islice_next src_next F) n
        (loop_at (option_map inj end_) (inj c) (inj step) (inj i) s)
      = Some (Normal out, g')
      /\ length out = n
      /\ forall j, j < n ->
           nth_error out j
           = nth_error xs (Z.to_nat (c + Z.of_nat j * step - i)).
Proof.
  induction n as [|n IH];
    intros xs s s' end_ c step i F Hy Hi Hic Hstep Hend Hb Hfit HF.
  { eexists [], _. split; [reflexivity|]. split; [reflexivity|]. lia. }
  destruct Hfit as [Hfit|[Hbelow Hin]]; [discriminate|].
  cbn [Nat.sub] in Hbelow, Hin. rewrite Nat.sub_0_r in Hbelow, Hin.
  assert (Hwc : within B c) by (unfold within in *; lia).
  assert (Hwstep : within B step) by (unfold within in *; lia).
  assert (Hwnext : within B (c + step)) by (unfold within in *; lia).
  cbn [take_pulls].
  change (islice_next src_next F
            (loop_at (option_map inj end_) (inj c) (inj step) (inj i) s))
    with (islice_loop src_next F (option_map inj end_)
            (mk_takeWhile (mk_count (inj c) (inj step)) false)
            (en_at (inj i) s)).
  unfold islice_loop, takeWhile_next.
  cbn [tw_finished tw_iterable count_next c_i c_step].
  rewrite (lt_end_exact end_ c Hend Hwc).
  rewrite (exact_add exact c step Hwc Hwstep Hwnext).
  rewrite (below_end_earlier end_ c _ Hbelow) by nia. cbn [negb].
  destruct (nth_error xs (Z.to_nat (c - i))) as [x|] eqn:Hx;
    [|apply nth_error_None in Hx; nia].
  apply nth_error_split in Hx. destruct Hx as (pre & post & -> & Hpre).
  replace (pre ++ x :: post) with ((pre ++ [x]) ++ post) in Hy
    by (rewrite <- app_assoc; reflexivity).
  apply yields_split in Hy. destruct Hy as (s1 & Hy1 & Hy2).
  rewrite length_app in HF, Hin, Hb. cbn [length] in HF, Hin, Hb.
  assert (Hseek : seek src_next F (inj c) (en_at (inj i) s)
                  = Some (Normal (Value x), en_at (inj (c + 1)) s1)).
  { replace c with (i + Z.of_nat (length pre))%Z at 1 2 by lia.
    apply seek_found; [exact Hy1|lia|exact Hi|].
    unfold within in *. lia. }
  rewrite Hseek.
  destruct (IH post s1 s' end_ (c + step)%Z step (c + 1)%Z F Hy2)
    as (out & g' & Htake & Hlen & Hout); try lia; try assumption.
  { unfold within in *. lia. }
  { destruct n as [|n']; [now left|right].
    cbn [Nat.sub]. rewrite Nat.sub_0_r.
    replace (c + step + Z.of_nat n' * step)%Z
      with (c + Z.of_nat (S n') * step)%Z by lia.
    split; [exact Hbelow|nia]. }
  unfold loop_at in Htake. rewrite Htake.
  exists (x :: out), g'. split; [reflexivity|].
  split; [cbn [length]; now rewrite Hlen|].
  intros [|j] Hj.
  - cbn [nth_error Z.of_nat]. rewrite Z.mul_0_l, Z.add_0_r.
    rewrite nth_error_app2 by lia.
    replace (Z.to_nat (c - i) - length pre) with 0 by lia. reflexivity.
  - cbn [nth_error]. rewrite Hout by lia.
    rewrite nth_error_app2 by nia.
    replace (Z.to_nat (c + Z.of_nat (S j) * step - i) - length pre)
      with (S (Z.to_nat (c + step + Z.of_nat j * step - (c + 1)))) by nia.
    reflexivity.
Qed.
End IsliceExact.
Section IsliceClaims.
Context {Src T : Type}.
Variable src_next : Next Src T.

(** [enumerate] does what [zip(count(start), iterable)] does. *)
Lemma enumerate_as_zip {N : Type} {num : Number N} (g : enumerate_state N Src) :
  zip_next (either_next src_next) (as_zip g)
  = (as_tuple (fst (enumerate_next src_next g)),
     as_zip (snd (enumerate_next src_next g))).
Proof.
  destruct g as [c s [|]]; [reflexivity|].
  unfold zip_next, enumerate_next, as_zip.
  cbn [zip_finished iterators en_finished en_count en_iterable pull_all
       either_next count_next].
  destruct (src_next s) as [[[x|]|e] s']; reflexivity.
Qed.

Lemma islice_arguments_bad (startOrEnd : Z) (endValue stepValue : option Z) :
  (effective_start startOrEnd endValue stepValue < 0)%Z
  \/ (exists e, effective_end startOrEnd endValue stepValue = Some e /\ (e < 0)%Z)
  \/ (effective_step stepValue <= 0)%Z ->
  exists msg, islice_arguments startOrEnd endValue stepValue
              = Throw (TypeError msg).
Proof.
  intros Hbad. unfold islice_arguments.
  destruct endValue as [e|], stepValue as [st|];
    cbn [effective_start effective_end effective_step] in *; num_Z;
    repeat match goal with
      | |- context [(?a <? ?b)%Z] => destruct (Z.ltb_spec a b)
      | |- context [(?a <=? ?b)%Z] => destruct (Z.leb_spec a b)
      end;
    try (eexists; reflexivity);
    exfalso;
    (destruct Hbad as [Hb|[(e' & He & Hb)|Hb]];
     [lia| (injection He as <- || discriminate He); lia |lia]).
Qed.

Lemma islice_first_pull {N : Type} {num : Number N} (s : Src) (startOrEnd : N)
  (endValue stepValue : option N) (start step : N) (end_ : option N)
  (F fuel : nat) :
  islice_arguments startOrEnd endValue stepValue = Normal (start, end_, step) ->
  collect (islice_next src_next F) fuel
    (islice_generator s startOrEnd endValue stepValue)
  = collect (islice_next src_next F) fuel (loop_at end_ start step num_zero s).
Proof.
  intros Hargs. destruct fuel as [|fuel]; [reflexivity|].
  rewrite !collect_S.
  replace (islice_next src_next F
             (islice_generator s startOrEnd endValue stepValue))
    with (islice_next src_next F (loop_at end_ start step num_zero s));
    [reflexivity|].
  unfold islice_next, islice_generator, loop_at. cbn [is_pc enumerated].
  rewrite Hargs. reflexivity.
Qed.

Lemma islice_first_take {N : Type} {num : Number N} (s : Src) (startOrEnd : N)
  (endValue stepValue : option N) (start step : N) (end_ : option N)
  (F n : nat) :
  islice_arguments startOrEnd endValue stepValue = Normal (start, end_, step) ->
  take_pulls (islice_next src_next F) (S n)
    (islice_generator s startOrEnd endValue stepValue)
  = take_pulls (islice_next src_next F) (S n)
      (loop_at end_ start step num_zero s).
Proof.
  intros Hargs. cbn [take_pulls].
  replace (islice_next src_next F
             (islice_generator s startOrEnd endValue stepValue))
    with (islice_next src_next F (loop_at end_ start step num_zero s));
    [reflexivity|].
  unfold islice_next, islice_generator, loop_at. cbn [is_pc enumerated].
  rewrite Hargs. reflexivity.
Qed.
End IsliceClaims.

Section IsliceArgumentsExact.
Context {N : Type} {num : Number N}.
Variable inj : Z -> N.
Variable B : Z.
Hypothesis exact : exact_within B inj.

Lemma islice_arguments_ok (startOrEnd : Z) (endValue stepValue : option Z) :
  (0 <= effective_start startOrEnd endValue stepValue)%Z ->
  (forall e, effective_end startOrEnd endValue stepValue = Some e -> (0 <= e)%Z) ->
  (0 < effective_step stepValue)%Z ->
  within B (effective_start startOrEnd endValue stepValue) ->
  (forall e, effective_end startOrEnd endValue stepValue = Some e ->
             within B e) ->
  within B (effective_step stepValue) ->
  islice_arguments (inj startOrEnd) (option_map inj endValue)
    (option_map inj stepValue)
  = Normal (inj (effective_start startOrEnd endValue stepValue),
            option_map inj (effective_end startOrEnd endValue stepValue),
            inj (effective_step stepValue)).
Proof.
  intros Hstart Hend Hstep Wstart Wend Wstep.
  assert (W0 : within B 0) by (unfold within in *; lia).
  assert (W1 : within B 1) by (unfold within in *; lia).
  unfold islice_arguments.
  destruct endValue as [e|], stepValue as [st|];
    cbn [effective_start effective_end effective_step option_map] in *;
    num_Z;
    try specialize (Hend _ eq_refl); try specialize (Wend _ eq_refl);
    rewrite <- ?(exact_zero exact), <- ?(exact_one exact);
    rewrite ?(exact_ltb exact), ?(exact_leb exact) by assumption.
  - replace (startOrEnd <? 0)%Z with false by (symmetry; apply Z.ltb_ge; lia).
    replace (e <? 0)%Z with false by (symmetry; apply Z.ltb_ge; lia).
    replace (st <=? 0)%Z with false by (symmetry; apply Z.leb_gt; lia).
    reflexivity.
  - replace (startOrEnd <? 0)%Z with false by (symmetry; apply Z.ltb_ge; lia).
    replace (e <? 0)%Z with false by (symmetry; apply Z.ltb_ge; lia).
    reflexivity.
  - replace (startOrEnd <? 0)%Z with false by (symmetry; apply Z.ltb_ge; lia).
    replace (st <=? 0)%Z with false by (symmetry; apply Z.leb_gt; lia).
    reflexivity.
  - replace (startOrEnd <? 0)%Z with false by (symmetry; apply Z.ltb_ge; lia).
    reflexivity.
Qed.
End IsliceArgumentsExact.

(** C7, for integers: take numbers that are exact on the integers within
    [B], as the doubles are for [B = 2 ^ 53], and any source whose pulls
    give [xs] and which then is exhausted or has by then reached [end];
    for integers [start], [end] (possibly unbounded) and [step], as the
    call forms assign them, with [start >= 0], [end >= 0] and [step > 0]
    and with all positions within [B], spreading [islice] gives [out]
    whose entry [j] is the element of the source at position
    [start + j * step] as long as that position is below [end] and inside
    the source, and which ends there.  For any source at all, ended or
    not: as long as position [start + n * step] is below [end] and among
    the values [xs] the source gives, the first [n + 1] pulls yield the
    elements at positions [start], [start + step], ..., [start + n * step].
    The one-argument form [islice(source, k)] makes the same first pull,
    hence the same generator from then on, as [islice(source, 0, k, 1)],
    for every number [k] that is not below 0; and over [range(0, 100)]
    the slice [(2, 10, 3)] is [[2, 5, 8]], on the integers and on the
    doubles. *)
Theorem islice_selects_positions :
  (forall (N : Type) (num : Number N) (inj : Z -> N) (B : Z)
          (Src T : Type) (src_next : Next Src T) (s s' : Src) (xs : list T)
          (startOrEnd : Z) (endValue stepValue : option Z) (F fuel : nat),
      exact_within B inj ->
      yields src_next s xs s' ->
      (exhausted src_next s'
       \/ exists e, effective_end startOrEnd endValue stepValue = Some e
                    /\ (e <= Z.of_nat (length xs))%Z) ->
      (0 <= effective_start startOrEnd endValue stepValue)%Z ->
      (forall e, effective_end startOrEnd endValue stepValue = Some e ->
                 (0 <= e)%Z) ->
      (0 < effective_step stepValue)%Z ->
      slice_within B (length xs)
        (effective_start startOrEnd endValue stepValue)
        (effective_end startOrEnd endValue stepValue)
        (effective_step stepValue) ->
      length xs < F -> length xs < fuel ->
      exists out g',
        collect (islice_next src_next F) fuel
          (islice_generator s (inj startOrEnd) (option_map inj endValue)
                            (option_map inj stepValue))
        = Some (Normal out, g')
        /\ forall j,
             nth_error out j
             = if below_end (effective_end startOrEnd endValue stepValue)
                    (effective_start startOrEnd endValue stepValue
                     + Z.of_nat j * effective_step stepValue)%Z
               then nth_error xs
                      (Z.to_nat
                         (effective_start startOrEnd endValue stepValue
                          + Z.of_nat j * effective_step stepValue))
               else None)
  /\ (forall (N : Type) (num : Number N) (inj : Z -> N) (B : Z)
             (Src T : Type) (src_next : Next Src T) (s s' : Src) (xs : list T)
             (startOrEnd : Z) (endValue stepValue : option Z) (F n : nat),
        exact_within B inj ->
        yields src_next s xs s' ->
        (0 <= effective_start startOrEnd endValue stepValue)%Z ->
        (forall e, effective_end startOrEnd endValue stepValue = Some e ->
                   (0 <= e)%Z) ->
        (0 < effective_step stepValue)%Z ->
        slice_within B (length xs)
          (effective_start startOrEnd endValue stepValue)
          (effective_end startOrEnd endValue stepValue)
          (effective_step stepValue) ->
        below_end (effective_end startOrEnd endValue stepValue)
          (effective_start startOrEnd endValue stepValue
           + Z.of_nat n * effective_step stepValue)%Z = true ->
        Z.to_nat (effective_start startOrEnd endValue stepValue
                  + Z.of_nat n * effective_step stepValue) < length xs ->
        length xs < F ->
        exists out g',
          take_pulls (islice_next src_next F) (S n)
            (islice_generator s (inj startOrEnd) (option_map inj endValue)
                              (option_map inj stepValue))
          = Some (Normal out, g')
          /\ length out = S n
          /\ forall j, j <= n ->
               nth_error out j
               = nth_error xs
                   (Z.to_nat
                      (effective_start startOrEnd endValue stepValue
                       + Z.of_nat j * effective_step stepValue)))
  /\ (forall (N : Type) (num : Number N) (Src T : Type)
             (src_next : Next Src T) (s : Src) (k : N) (F : nat),
        num_ltb k num_zero = false ->
        islice_next src_next F (islice_generator s k None None)
        = islice_next src_next F
            (islice_generator s num_zero (Some k) (Some num_one)))
  /\ option_map fst
       (collect (islice_next range_next 101) 101
          (islice_generator (range 0%Z (Some 100%Z) 1%Z)
                            2%Z (Some 10%Z) (Some 3%Z)))
     = Some (Normal [2; 5; 8]%Z)
  /\ option_map fst
       (collect (islice_next range_next 101) 101
          (islice_generator (range 0%float (Some 100%float) 1%float)
                            2%float (Some 10%float) (Some 3%float)))
     = Some (Normal [2; 5; 8]%float).
Proof.
  split; [|split; [|split; [|split]]].
  2:{ intros N num inj B Src T src_next s s' xs startOrEnd endValue stepValue
        F n exact Hy Hstart Hend Hstep [Wend Wmax] Hlt Hin HF.
      assert (Wstart : within B (effective_start startOrEnd endValue stepValue))
        by (unfold within in *; lia).
      assert (Wstep : within B (effective_step stepValue))
        by (unfold within in *; lia).
      rewrite (islice_first_take src_next s _ _ _ _ _ _ F n
                 (islice_arguments_ok inj B exact _ _ _ Hstart Hend Hstep
                    Wstart Wend Wstep)).
      rewrite <- (exact_zero exact).
      destruct (islice_loop_take src_next inj B exact (S n) xs s s'
                  (effective_end startOrEnd endValue stepValue)
                  (effective_start startOrEnd endValue stepValue)
                  (effective_step stepValue) 0%Z F Hy)
        as (out & g' & Htake & Hlen & Hout); try assumption; try lia.
      { right. cbn [Nat.sub]. rewrite Nat.sub_0_r, Z.sub_0_r. now split. }
      exists out, g'. split; [exact Htake|]. split; [exact Hlen|].
      intros j Hj. rewrite Hout by lia. now rewrite Z.sub_0_r. }
  - intros N num inj B Src T src_next s s' xs startOrEnd endValue stepValue
      F fuel exact Hy Htail Hstart Hend Hstep [Wend Wmax] HF Hfuel.
    assert (Wstart : within B (effective_start startOrEnd endValue stepValue))
      by (unfold within in *; lia).
    assert (Wstep : within B (effective_step stepValue))
      by (unfold within in *; lia).
    rewrite (islice_first_pull src_next s _ _ _ _ _ _ F fuel
               (islice_arguments_ok inj B exact _ _ _ Hstart Hend Hstep
                  Wstart Wend Wstep)).
    rewrite <- (exact_zero exact).
    destruct (islice_loop_collect src_next inj B exact fuel xs s s'
                (effective_end startOrEnd endValue stepValue)
                (effective_start startOrEnd endValue stepValue)
                (effective_step stepValue) 0%Z F Hy)
      as (out & g' & Hcollect & Hout); try assumption; try lia.
    exists out, g'. split; [exact Hcollect|].
    intros j. rewrite Hout. now rewrite Z.sub_0_r.
  - intros N num Src T src_next s k F Hk.
    unfold islice_next, islice_generator. cbn [is_pc enumerated].
    unfold islice_arguments. rewrite Hk. reflexivity.
  - vm_compute. reflexivity.
  - vm_compute. reflexivity.
Qed.

(** The statement above on the doubles, at a five-element array and
    positions 1 and 3. *)
Lemma islice_selects_positions_witness :
  exists out g',
    collect (islice_next array_next 6) 6
      (islice_generator [10; 20; 30; 40; 50]%Z (float_of_Z 1)
         (option_map float_of_Z (Some 4%Z)) (option_map float_of_Z (Some 2%Z)))
    = Some (Normal out, g')
    /\ forall j,
         nth_error out j
         = if below_end (Some 4%Z) (1 + Z.of_nat j * 2)%Z
           then nth_error [10; 20; 30; 40; 50]%Z (Z.to_nat (1 + Z.of_nat j * 2))
           else None.
Proof.
  apply (proj1 islice_selects_positions float float_number float_of_Z 64%Z
           (list Z) Z array_next
           [10; 20; 30; 40; 50]%Z [] [10; 20; 30; 40; 50]%Z
           1%Z (Some 4%Z) (Some 2%Z) 6 6).
  - exact exact_within_float.
  - repeat (econstructor; [reflexivity|]). constructor.
  - left. exists []. reflexivity.
  - cbn. lia.
  - cbn. intros e He. injection He as <-. lia.
  - cbn. lia.
  - unfold slice_within, within. cbn.
    split; [|lia].
    intros e He. injection He as <-. lia.
  - cbn. lia.
  - cbn. lia.
Defined.

(** The claim as it was made, at a step that is not an integer:
    [islice(xs, 0, 7, 1.5)] over seven elements.  The arguments pass the
    checks ([start >= 0], [end >= 0], [step > 0]), and 0, 3 and 6 are
    among the positions 0, 1.5, 3, 4.5, 6 below 7; yet the code yields the
    element at position 0 alone: looking for position 1.5 it runs through
    the whole source without finding it, and returns. *)
Lemma islice_fractional_step_drains_source :
  islice_arguments 0%float (Some 7%float) (Some 1.5%float)
  = Normal (0%float, Some 7%float, 1.5%float)
  /\ option_map fst
       (collect (islice_next array_next 8) 8
          (islice_generator [10; 11; 12; 13; 14; 15; 16]
                            0%float (Some 7%float) (Some 1.5%float)))
     = Some (Normal [10])
  /\ option_map (fun r => en_iterable (enumerated (snd r)))
       (collect (islice_next array_next 8) 8
          (islice_generator [10; 11; 12; 13; 14; 15; 16]
                            0%float (Some 7%float) (Some 1.5%float)))
     = Some [].
Proof.
  split; [reflexivity|]. split; vm_compute; reflexivity.
Qed.

(** C8 as the code has it: when [start < 0], [end < 0] or [step <= 0], the
    call itself hands back a generator and raises nothing; the first pull
    on that generator raises a [TypeError], yields nothing, and leaves the
    source (and the enumeration over it) as the call found it. *)
Theorem islice_rejects_at_first_pull
  (Src T : Type) (src_next : Next Src T) (s : Src)
  (startOrEnd : Z) (endValue stepValue : option Z) :
  (effective_start startOrEnd endValue stepValue < 0)%Z
  \/ (exists e, effective_end startOrEnd endValue stepValue = Some e
                /\ (e < 0)%Z)
  \/ (effective_step stepValue <= 0)%Z ->
  exists g msg,
    islice s startOrEnd endValue stepValue = Normal g
    /\ forall fuel,
         islice_next src_next fuel g
         = Some (Throw (TypeError msg),
                 mk_islice IsliceDone (enumerate s 0%Z)).
Proof.
  intros Hbad.
  destruct (islice_arguments_bad _ _ _ Hbad) as (msg & Hmsg).
  exists (islice_generator s startOrEnd endValue stepValue), msg.
  split; [reflexivity|]. intros fuel.
  unfold islice_next, islice_generator. cbn [is_pc enumerated].
  now rewrite Hmsg.
Qed.

(** The statement above for a zero step over a three-element array. *)
Lemma islice_rejects_at_first_pull_witness :
  (effective_step (Some 0%Z) <= 0)%Z
  /\ exists g msg,
       islice [1; 2; 3]%Z 0%Z (Some 5%Z) (Some 0%Z) = Normal g
       /\ forall fuel,
            islice_next array_next fuel g
            = Some (Throw (TypeError msg),
                    mk_islice IsliceDone (enumerate [1; 2; 3]%Z 0%Z)).
Proof.
  split; [cbn; lia|].
  apply (islice_rejects_at_first_pull (list Z) Z array_next [1; 2; 3]%Z
           0%Z (Some 5%Z) (Some 0%Z)).
  right. right. cbn. lia.
Defined.

(** A call with a negative start is in the domain of C8, yet it raises
    nothing: it returns the generator. *)
Lemma islice_call_raises_nothing :
  (effective_start (-1) (Some 5%Z) (Some 1%Z) < 0)%Z
  /\ ~ (exists e, islice [1; 2; 3]%Z (-1)%Z (Some 5%Z) (Some 1%Z) = Throw e).
Proof.
  split; [cbn; lia|]. intros (e & He). discriminate He.
Qed.
(** ** groupBy *)

Section GroupByFacts.
Context {T K : Type}.
Variable key_eq : K -> K -> bool.
Variable keyFunc : T -> K.

Lemma skip_stop (target ck : slot K) (cv : slot T) (l : list T) :
  strict_eq key_eq ck target = false ->
  skip key_eq keyFunc target ck cv l = (false, ck, cv, l).
Proof. intros H. destruct l; cbn [skip]; now rewrite H. Qed.

Lemma skip_end (target ck : slot K) (cv : slot T) :
  strict_eq key_eq ck target = true ->
  skip key_eq keyFunc target ck cv [] = (true, ck, Undefined, []).
Proof. intros H. cbn [skip]. now rewrite H. Qed.

Lemma keys_self_equal_app (l1 l2 : list T) :
  keys_self_equal key_eq keyFunc (l1 ++ l2) ->
  keys_self_equal key_eq keyFunc l2.
Proof.
  unfold keys_self_equal. rewrite Forall_app. tauto.
Qed.

(** The group of [k] has been entered and the grouper made for it sits at
    its [yield], [currKey] holding a key [c] that is [===] to [k]:
    spreading it gives the run of elements at the front of what is left
    whose keys are [===] to [k], and stops at the first element whose key
    is not, with that element held in [currValue], or at the end of the
    source. *)
Lemma spread_yielded (k : K) (tid : nat) (fin : bool) :
  forall (rest : list T) (c : K) (cv : slot T) (F : nat),
    key_eq c k = true ->
    length rest < F ->
    exists run g',
      spread_grouper key_eq keyFunc F
        (mk_groupBy rest (Item c) (Item k) cv tid fin)
        (mk_grouper tid GrouperYielded)
      = Some (map (@Item T) run, g')
      /\ Forall (fun y => key_eq (keyFunc y) k = true) run
      /\ ((exists y rest',
             rest = run ++ y :: rest'
             /\ g' = mk_groupBy rest' (Item (keyFunc y)) (Item k) (Item y) tid fin
             /\ key_eq (keyFunc y) k = false)
          \/ (rest = run
              /\ exists c',
                   g' = mk_groupBy [] (Item c') (Item k) Undefined tid fin
                   /\ key_eq c' k = true)).
Proof.
  induction rest as [|y rest IH]; intros c cv F Hc HF;
    (destruct F as [|F]; [cbn [length] in HF; lia|]).
  - exists [], (mk_groupBy [] (Item c) (Item k) Undefined tid fin).
    split; [reflexivity|]. split; [constructor|]. right.
    split; [reflexivity|]. exists c. now split.
  - cbn [spread_grouper grouper_next g_pc it targetKey id
         gb_finished targetId currKey].
    unfold grouper_head.
    cbn [id targetId currKey targetKey currValue].
    rewrite Nat.eqb_refl. cbn [andb strict_eq].
    destruct (key_eq (keyFunc y) k) eqn:Hk.
    + destruct (IH (keyFunc y) (Item y) F Hk ltac:(cbn [length] in HF; lia))
        as (run & g' & Hspread & Hrun & Hg').
      rewrite Hspread. exists (y :: run), g'. split; [reflexivity|].
      split; [now constructor|].
      destruct Hg' as [(z & rest' & -> & -> & Hz)|[-> Hg']].
      * left. exists z, rest'. now repeat split.
      * right. now split.
    + exists [], (mk_groupBy rest (Item (keyFunc y)) (Item k) (Item y) tid fin).
      split; [reflexivity|]. split; [constructor|].
      left. exists y, rest. now repeat split.
Qed.

(** From a state whose skipping loop stops at once on the pending element
    [x], and with no [NaN] among the keys to come: the groups, spread one
    after the other, are runs that hand out [x] and all that is left of
    the source; each group holds elements whose keys are [===] to the key
    yielded with it, and the key of a group is not [===] to the key of
    the group before it. *)
Lemma consume_runs (F : nat) (fuel : nat) :
  forall (g : groupBy_state) (x : T) (rest : list T),
    gb_finished g = false ->
    skip key_eq keyFunc (targetKey g) (currKey g) (currValue g) (it g)
    = (false, Item (keyFunc x), Item x, rest) ->
    keys_self_equal key_eq keyFunc (x :: rest) ->
    S (length rest) < F -> S (length rest) < fuel ->
    exists run rs,
      consume_groups key_eq keyFunc F fuel g
      = Some (map (fun r => (Item (fst r), map (@Item T) (snd r)))
                  ((keyFunc x, x :: run) :: rs))
      /\ concat (map snd ((keyFunc x, x :: run) :: rs)) = x :: rest
      /\ Forall (fun r => snd r <> []
                          /\ Forall (fun y => key_eq (keyFunc y) (fst r) = true)
                                    (snd r))
                ((keyFunc x, x :: run) :: rs)
      /\ adjacent_differ key_eq (map fst ((keyFunc x, x :: run) :: rs)).
Proof.
  induction fuel as [|fuel IH]; intros g x rest Hfin Hskip Hself HF Hfuel;
    [lia|].
  assert (Hx : key_eq (keyFunc x) (keyFunc x) = true)
    by (inversion Hself; assumption).
  assert (Hrest : keys_self_equal key_eq keyFunc rest)
    by (inversion Hself; assumption).
  cbn [consume_groups]. unfold groupBy_next.
  rewrite Hfin, Hskip.
  destruct F as [|F]; [lia|].
  cbn [spread_grouper grouper_next g_pc].
  unfold grouper_head. cbn [id targetId currKey targetKey currValue].
  rewrite Nat.eqb_refl. cbn [strict_eq]. rewrite Hx. cbn [andb].
  destruct (spread_yielded (keyFunc x) (S (id g)) false rest (keyFunc x)
              (Item x) F Hx ltac:(lia))
    as (run & g' & Hspread & Hrun & Hg').
  rewrite Hspread.
  destruct Hg' as [(y & rest' & -> & -> & Hy)|[-> (c' & -> & Hc')]].
  - rewrite length_app in HF, Hfuel. cbn [length] in HF, Hfuel.
    destruct (IH (mk_groupBy rest' (Item (keyFunc y)) (Item (keyFunc x))
                             (Item y) (S (id g)) false) y rest')
      as (run' & rs & Hgroups & Hconcat & Hall & Hadj);
      try lia; try reflexivity.
    { cbn [targetKey currKey currValue it]. now apply skip_stop. }
    { now apply keys_self_equal_app in Hrest. }
    rewrite Hgroups. exists run, ((keyFunc y, y :: run') :: rs).
    split; [reflexivity|]. split; [|split].
    + cbn [map snd concat] in *. rewrite Hconcat. reflexivity.
    + constructor; [|exact Hall]. cbn [fst snd].
      split; [discriminate|]. constructor; [exact Hx|exact Hrun].
    + cbn [map fst adjacent_differ] in *. split; [exact Hy|exact Hadj].
  - destruct fuel as [|fuel]; [lia|].
    cbn [consume_groups]. unfold groupBy_next.
    cbn [gb_finished targetKey currKey currValue it].
    rewrite skip_end by exact Hc'.
    exists run, []. split; [reflexivity|]. split; [|split].
    + cbn [map snd concat]. now rewrite app_nil_r.
    + constructor; [|constructor]. cbn [fst snd].
      split; [discriminate|]. constructor; [exact Hx|exact Hrun].
    + exact I.
Qed.

Lemma groupBy_runs (xs : list T) :
  keys_self_equal key_eq keyFunc xs ->
  exists rs : list (K * list T),
    consume_groups key_eq keyFunc (S (S (length xs))) (S (S (length xs)))
      (groupBy xs)
    = Some (map (fun r => (Item (fst r), map (@Item T) (snd r))) rs)
    /\ concat (map snd rs) = xs
    /\ Forall (fun r => snd r <> []
                        /\ Forall (fun y => key_eq (keyFunc y) (fst r) = true)
                                  (snd r)) rs
    /\ adjacent_differ key_eq (map fst rs).
Proof.
  intros Hself. destruct xs as [|x rest].
  - exists []. repeat split; constructor.
  - destruct (consume_runs (S (S (length (x :: rest))))
                (S (S (length (x :: rest)))) (groupBy (x :: rest)) x rest)
      as (run & rs & H); try reflexivity; try assumption;
      cbn [length]; try lia.
    + cbn [groupBy targetKey currKey currValue it skip strict_eq].
      now apply skip_stop.
    + exists ((keyFunc x, x :: run) :: rs). exact H.
Qed.



(** A grouper made in an earlier round answers done on every pull. *)
Lemma stale_grouper_done (g : groupBy_state) (h : grouper_state) :
  targetId h <> id g ->
  fst (fst (grouper_next key_eq keyFunc g h)) = Done
  /\ g_pc (snd (grouper_next key_eq keyFunc g h)) = GrouperDone.
Proof.
  intros Hstale. unfold grouper_next, grouper_head.
  destruct (g_pc h) eqn:Hpc.
  - replace (id g =? targetId h) with false
      by (symmetry; apply Nat.eqb_neq; congruence).
    now split.
  - destruct (it g) as [|x l]; [now split|].
    cbn [id]. replace (id g =? targetId h) with false
      by (symmetry; apply Nat.eqb_neq; congruence).
    now split.
  - now split.
Qed.

(** A stale grouper that was never pulled, or has ended, leaves the shared
    variables alone. *)
Lemma stale_grouper_untouched (g : groupBy_state) (h : grouper_state) :
  targetId h <> id g -> g_pc h <> GrouperYielded ->
  snd (fst (grouper_next key_eq keyFunc g h)) = g.
Proof.
  intros Hstale Hpc. unfold grouper_next, grouper_head.
  destruct (g_pc h); [|contradiction|reflexivity].
  replace (id g =? targetId h) with false
    by (symmetry; apply Nat.eqb_neq; congruence).
  reflexivity.
Qed.
End GroupByFacts.

(** *** A key that is NaN *)








(** C2, on the code: over [[0, 0, 1, 2]] with the default key, pull the
    first group once, then advance the outer sequence to the group of 1.
    The next pull on the first group, now stale, does answer done, but it
    has first taken the element 2 from the shared iterator: the group of 1
    then yields nothing, where it yields [[1]] if the stale grouper is left
    alone. *)
Theorem stale_grouper_pull_advances_cursor :
  exists k1 h1 g1 g2 h1' h2 g3 g4 h1'' g5,
    groupBy_next Z.eqb (fun v : Z => v) (groupBy [0; 0; 1; 2]%Z)
    = (Value (k1, h1), g1)
    /\ grouper_next Z.eqb (fun v : Z => v) g1 h1
       = (Value (Item 0%Z), g2, h1')
    /\ groupBy_next Z.eqb (fun v : Z => v) g2 = (Value (Item 1%Z, h2), g3)
    /\ targetId h1' <> id g3
    /\ it g3 = [2%Z]
    /\ grouper_next Z.eqb (fun v : Z => v) g3 h1' = (Done, g4, h1'')
    /\ it g4 = []
    /\ currValue g4 = Item 2%Z
    /\ spread_grouper Z.eqb (fun v : Z => v) 5 g4 h2 = Some ([], g4)
    /\ spread_grouper Z.eqb (fun v : Z => v) 5 g3 h2
       = Some ([Item 1%Z], g5).
Proof.
  do 10 eexists.
  split; [reflexivity|]. split; [reflexivity|]. split; [reflexivity|].
  split; [cbn; lia|].
  split; [reflexivity|]. split; [reflexivity|]. split; [reflexivity|].
  split; [reflexivity|]. split; reflexivity.
Qed.
(** ** range *)

Section RangeExact.
Context {N : Type} {num : Number N}.
Variable inj : Z -> N.
Variable B : Z.
Hypothesis exact : exact_within B inj.

Lemma range_predicate_exact (step end_ c : Z) :
  within B step -> within B end_ -> within B c ->
  range_predicate (inj step) (inj end_) (inj c) = range_predicate step end_ c.
Proof.
  intros Hstep Hend Hc.
  assert (W0 : within B 0) by (unfold within in *; lia).
  unfold range_predicate, num_gtb. rewrite <- (exact_zero exact).
  rewrite (exact_ltb exact 0 step W0 Hstep). num_Z.
  destruct (0 <? step)%Z.
  - apply (exact_ltb exact c end_ Hc Hend).
  - apply (exact_ltb exact end_ c Hend Hc).
Qed.

Lemma range_loop_values (fuel : nat) :
  forall (c step end_ : Z),
    step <> 0%Z ->
    within B c -> within B (Z.abs end_ + Z.abs step) ->
    0 < fuel ->
    (range_predicate step end_ c = true ->
     Z.to_nat (Z.abs (end_ - c)) < fuel) ->
    exists out,
      collect (total range_next) fuel
        (RangeLoop (inj step) (inj end_)
                   (mk_takeWhile (mk_count (inj c) (inj step)) false))
      = Some (Normal (map inj out), RangeDone)
      /\ forall j,
           nth_error out j
           = if range_predicate step end_ (c + Z.of_nat j * step)%Z
             then Some (c + Z.of_nat j * step)%Z
             else None.
Proof.
  induction fuel as [|fuel IH]; intros c step end_ Hstep Wc Wend Hpos Hfuel;
    [lia|].
  assert (Wstep : within B step) by (unfold within in *; lia).
  assert (Wend' : within B end_) by (unfold within in *; lia).
  rewrite collect_S. unfold total at 1. cbn [range_next].
  unfold range_loop, takeWhile_next.
  cbn [tw_finished tw_iterable count_next c_i c_step].
  rewrite (range_predicate_exact step end_ c Wstep Wend' Wc).
  destruct (range_predicate step end_ c) eqn:Hc; cbn [negb].
  - specialize (Hfuel eq_refl).
    assert (Hgap : (c <> end_)%Z).
    { unfold range_predicate in Hc. num_Z. destruct (Z.ltb_spec 0 step).
      - apply Z.ltb_lt in Hc. lia.
      - apply Z.ltb_lt in Hc. lia. }
    assert (Wnext : within B (c + step)).
    { unfold range_predicate in Hc. num_Z. unfold within in *.
      destruct (Z.ltb_spec 0 step); apply Z.ltb_lt in Hc; lia. }
    rewrite (exact_add exact c step Wc Wstep Wnext).
    destruct (IH (c + step)%Z step end_ Hstep Wnext Wend)
      as (out & Hout & Hnth); [lia| |].
    { intros Hnext. unfold range_predicate in Hc, Hnext. num_Z.
      destruct (Z.ltb_spec 0 step); apply Z.ltb_lt in Hc, Hnext; lia. }
    rewrite Hout. exists (c :: out). split; [reflexivity|].
    intros [|j].
    + cbn [nth_error Z.of_nat]. rewrite Z.mul_0_l, Z.add_0_r, Hc. reflexivity.
    + cbn [nth_error]. rewrite Hnth.
      replace (c + step + Z.of_nat j * step)%Z
        with (c + Z.of_nat (S j) * step)%Z by lia.
      reflexivity.
  - exists []. split; [reflexivity|]. intros j.
    replace (nth_error [] j) with (@None Z) by now destruct j.
    replace (range_predicate step end_ (c + Z.of_nat j * step)%Z) with false;
      [reflexivity|].
    symmetry. unfold range_predicate in *. num_Z.
    destruct (Z.ltb_spec 0 step); apply Z.ltb_ge in Hc; apply Z.ltb_ge; nia.
Qed.

Lemma range_first_pull (start end_ step : Z) (fuel : nat) :
  step <> 0%Z ->
  range_within B start end_ step ->
  collect (total range_next) fuel
    (range (inj start) (Some (inj end_)) (inj step))
  = collect (total range_next) fuel
      (RangeLoop (inj step) (inj end_)
                 (mk_takeWhile (mk_count (inj start) (inj step)) false)).
Proof.
  intros Hstep [Wstart Wend].
  assert (Wstep : within B step) by (unfold within in *; lia).
  assert (Wend' : within B end_) by (unfold within in *; lia).
  assert (W0 : within B 0) by (unfold within in *; lia).
  destruct fuel as [|fuel]; [reflexivity|].
  rewrite !collect_S. unfold total at 1 3. unfold range. cbn [range_next].
  rewrite <- (exact_zero exact), (exact_eqb exact step 0 Wstep W0).
  replace (step =? 0)%Z with false by (symmetry; now apply Z.eqb_neq).
  rewrite !(exact_is_integer exact) by assumption.
  reflexivity.
Qed.
End RangeExact.

(** X2: take numbers that are exact on the integers within [B], as
    [exact_within_float] shows the doubles to be for [B = 64].  For
    integers [start], [end] and [step] within [B] ([end] with a step to
    spare) and a step other than zero, spreading
    [range(start, end, step)] gives [start], [start + step], ... for as
    long as the value is below [end] (positive step) or above [end]
    (negative step), and nothing when the first value already fails.
    [range(end)] is [range(0, end)].  With a zero step the first pull
    raises a [TypeError] and nothing is yielded, whatever [start] and
    [end]; on the doubles the same holds of a step [-0], and an argument
    that is not an integer makes the first pull raise a [TypeError] as
    well. *)
Theorem range_values :
  (forall (N : Type) (num : Number N) (inj : Z -> N) (B : Z)
          (start end_ step : Z) (fuel : nat),
      exact_within B inj ->
      step <> 0%Z ->
      range_within B start end_ step ->
      Z.to_nat (Z.abs (end_ - start)) < fuel ->
      exists out,
        collect (total range_next) fuel
          (range (inj start) (Some (inj end_)) (inj step))
        = Some (Normal (map inj out), RangeDone)
        /\ forall j,
             nth_error out j
             = if (if (step >? 0)%Z
                   then (start + Z.of_nat j * step <? end_)%Z
                   else (start + Z.of_nat j * step >? end_)%Z)
               then Some (start + Z.of_nat j * step)%Z
               else None)
  /\ (forall (N : Type) (num : Number N) (e s : N),
        range_next (range e None s) = range_next (range num_zero (Some e) s))
  /\ (forall (start : Z) (maybeEnd : option Z),
        exists msg,
          range_next (range start maybeEnd 0%Z)
          = (Throw (TypeError msg), RangeDone))
  /\ (forall (a : float) (maybeEnd : option float),
        exists msg,
          range_next (range a maybeEnd 0%float)
          = (Throw (TypeError msg), RangeDone)
          /\ range_next (range a maybeEnd (-0)%float)
             = (Throw (TypeError msg), RangeDone))
  /\ range_next (range 0.5%float (Some 3%float) 1%float)
     = (Throw (TypeError "The range arguments must be integers."), RangeDone)
  /\ range_next (range 0%float (Some 3%float) 0.5%float)
     = (Throw (TypeError "The range arguments must be integers."), RangeDone)
  /\ collect (total range_next) 5 (range 4%float (Some 0%float) (-1)%float)
     = Some (Normal [4; 3; 2; 1]%float, RangeDone).
Proof.
  split; [|split; [|split; [|split; [|split; [|split]]]]].
  - intros N num inj B start end_ step fuel exact Hstep Hwithin Hfuel.
    rewrite (range_first_pull inj B exact start end_ step fuel Hstep Hwithin).
    destruct Hwithin as [Wstart Wend].
    destruct (range_loop_values inj B exact fuel start step end_ Hstep
                Wstart Wend)
      as (out & Hout & Hnth); [lia|now intros _|].
    exists out. split; [exact Hout|].
    intros j. rewrite Hnth. unfold range_predicate. num_Z.
    rewrite !Z.gtb_ltb. destruct (0 <? step)%Z; reflexivity.
  - intros N num e s. reflexivity.
  - intros start maybeEnd. eexists. reflexivity.
  - intros a maybeEnd. eexists. split; reflexivity.
  - vm_compute. reflexivity.
  - vm_compute. reflexivity.
  - vm_compute. reflexivity.
Qed.

(** X2 on the doubles, at [range(10, 0, -3)]. *)
Lemma range_values_witness :
  exists out,
    collect (total range_next) 11
      (range (float_of_Z 10) (Some (float_of_Z 0)) (float_of_Z (-3)))
    = Some (Normal (map float_of_Z out), RangeDone)
    /\ forall j,
         nth_error out j
         = if (if (-3 >? 0)%Z
               then (10 + Z.of_nat j * -3 <? 0)%Z
               else (10 + Z.of_nat j * -3 >? 0)%Z)
           then Some (10 + Z.of_nat j * -3)%Z
           else None.
Proof.
  apply (proj1 range_values float float_number float_of_Z 64%Z
           10%Z 0%Z (-3)%Z 11).
  - exact exact_within_float.
  - lia.
  - unfold range_within, within. cbn. lia.
  - cbn. lia.
Defined.

(** ** map, filter, filterFalse, takeWhile, dropWhile over arrays *)

Ltac pull_once := rewrite collect_S; unfold total at 1.

Section TransformFacts.
Context {T : Type}.

Lemma take_drop_while (p : T -> bool) (xs : list T) :
  take_while p xs ++ drop_while p xs = xs.
Proof.
  induction xs as [|x xs IH]; [reflexivity|].
  cbn [take_while drop_while]. destruct (p x); [|reflexivity].
  cbn [app]. now rewrite IH.
Qed.

Lemma drop_while_length (p : T -> bool) (xs : list T) :
  length (drop_while p xs) <= length xs.
Proof.
  induction xs as [|x xs IH]; [reflexivity|].
  cbn [drop_while]. destruct (p x); cbn [length]; lia.
Qed.

Lemma drop_while_filter (p : T -> bool) (xs : list T) :
  List.filter p xs
  = match drop_while (fun v => negb (p v)) xs with
    | [] => []
    | x :: rest => x :: List.filter p rest
    end.
Proof.
  induction xs as [|x xs IH]; [reflexivity|].
  cbn [List.filter drop_while]. destruct (p x); cbn [negb]; [reflexivity|].
  exact IH.
Qed.

Lemma map_collect {M : Type} (f : T -> M) (xs : list T) :
  collect (total (Itertools.map_next array_next f)) (S (length xs))
    (Itertools.map xs)
  = Some (Normal (List.map f xs), mk_loop [] true).
Proof.
  induction xs as [|x xs IH]; pull_once; [reflexivity|].
  change (Itertools.map_next array_next f (Itertools.map (x :: xs)))
    with (Normal (Value (f x)), Itertools.map (S := list T) xs).
  cbn [length]. now rewrite IH.
Qed.

Lemma filter_pull (p : T -> bool) (xs : list T) :
  forall F, length xs < F ->
    filter_loop array_next p F xs
    = Some (match drop_while (fun v => negb (p v)) xs with
            | [] => (Normal Done, mk_loop [] true)
            | x :: rest => (Normal (Value x), mk_loop rest false)
            end).
Proof.
  induction xs as [|x xs IH]; intros F HF;
    (destruct F as [|F]; [cbn [length] in HF; lia|]);
    cbn [filter_loop array_next drop_while]; [reflexivity|].
  destruct (p x); cbn [negb]; [reflexivity|].
  apply IH. cbn [length] in HF. lia.
Qed.

Lemma filter_collect (p : T -> bool) (fuel : nat) :
  forall xs F, length xs < F -> length xs < fuel ->
    collect (filter_next array_next p F) fuel (Itertools.filter xs)
    = Some (Normal (List.filter p xs), mk_loop [] true).
Proof.
  induction fuel as [|fuel IH]; intros xs F HF Hfuel; [lia|].
  rewrite collect_S.
  change (filter_next array_next p F (Itertools.filter xs))
    with (filter_loop array_next p F xs).
  rewrite filter_pull by exact HF.
  rewrite (drop_while_filter p xs).
  pose proof (drop_while_length (fun v => negb (p v)) xs) as Hlen.
  destruct (drop_while (fun v => negb (p v)) xs) as [|x rest];
    [reflexivity|].
  cbn [length] in Hlen.
  change (mk_loop rest false) with (Itertools.filter rest).
  rewrite IH by lia. reflexivity.
Qed.

(** X3: spreading [map(xs, f)] gives [f] of each element of [xs], in
    order. *)
Theorem map_applies_to_each {M : Type} (f : T -> M) (xs : list T) :
  collect (total (Itertools.map_next array_next f)) (S (length xs))
    (Itertools.map xs)
  = Some (Normal (List.map f xs), mk_loop [] true).
Proof. apply map_collect. Qed.

(** X4: spreading [filter(xs, predicate)] gives the elements of [xs] that
    pass the predicate, in order, each as often as it occurs. *)
Theorem filter_keeps_passing (p : T -> bool) (xs : list T) :
  collect (filter_next array_next p (S (length xs))) (S (length xs))
    (Itertools.filter xs)
  = Some (Normal (List.filter p xs), mk_loop [] true).
Proof. apply filter_collect; lia. Qed.

(** X5: [filterFalse] yields what [filter] drops: its output is the
    elements failing the predicate, and the two outputs together are a
    rearrangement of [xs]. *)
Theorem filterFalse_complements_filter (p : T -> bool) (xs : list T) :
  exists kept dropped,
    collect (filter_next array_next p (S (length xs))) (S (length xs))
      (Itertools.filter xs)
    = Some (Normal kept, mk_loop [] true)
    /\ collect (filterFalse_next array_next p (S (length xs))) (S (length xs))
         (Itertools.filterFalse xs)
       = Some (Normal dropped, mk_loop [] true)
    /\ dropped = List.filter (fun v => negb (p v)) xs
    /\ Permutation (kept ++ dropped) xs.
Proof.
  exists (List.filter p xs), (List.filter (fun v => negb (p v)) xs).
  split; [apply filter_collect; lia|].
  split; [apply (filter_collect (fun v => negb (p v))); lia|].
  split; [reflexivity|].
  induction xs as [|x xs IH]; [constructor|].
  cbn [List.filter]. destruct (p x); cbn [negb app].
  - now constructor.
  - apply Permutation_sym, Permutation_cons_app, Permutation_sym, IH.
Qed.

Lemma takeWhile_collect (p : T -> bool) (xs : list T) :
  collect (total (takeWhile_next array_next p)) (S (length xs)) (takeWhile xs)
  = Some (Normal (take_while p xs),
          mk_takeWhile (tl (drop_while p xs)) true).
Proof.
  induction xs as [|x xs IH]; pull_once; [reflexivity|].
  change (takeWhile_next array_next p (takeWhile (x :: xs)))
    with (if negb (p x)
          then (Normal (@Done T), mk_takeWhile xs true)
          else (Normal (Value x), takeWhile xs)).
  cbn [take_while drop_while].
  destruct (p x); cbn [negb]; [|reflexivity].
  cbn [length]. now rewrite IH.
Qed.

(** X6: spreading [takeWhile] over the iterator of an array gives the
    longest prefix whose elements pass the predicate, and leaves the
    iterator after the first element that fails: that element has been
    pulled and is yielded by no one. *)
Theorem takeWhile_prefix_and_loss (p : T -> bool) (xs : list T) :
  exists out rest,
    collect (total (takeWhile_next array_next p)) (S (length xs)) (takeWhile xs)
    = Some (Normal out, mk_takeWhile rest true)
    /\ Forall (fun x => p x = true) out
    /\ (xs = out /\ rest = []
        \/ exists x, p x = false /\ xs = out ++ x :: rest).
Proof.
  exists (take_while p xs), (tl (drop_while p xs)).
  split; [apply takeWhile_collect|]. split.
  - induction xs as [|x xs IH]; [constructor|].
    cbn [take_while]. destruct (p x) eqn:E; constructor; assumption.
  - induction xs as [|x xs IH]; [now left|].
    cbn [take_while drop_while]. destruct (p x) eqn:E.
    + destruct IH as [[IH1 IH2]|(y & Hy & IH)].
      * left. split; [now f_equal|exact IH2].
      * right. exists y. split; [exact Hy|]. cbn [app]. now f_equal.
    + right. exists x. now split.
Qed.

Lemma dropWhile_pull (p : T -> bool) (xs : list T) :
  forall F, length xs < F ->
    dropWhile_loop array_next p F xs
    = Some (match drop_while p xs with
            | [] => (Normal Done, DropWhileTail (mk_loop [] true))
            | x :: rest => (Normal (Value x), DropWhileTail (tailIterable rest))
            end).
Proof.
  induction xs as [|x xs IH]; intros F HF;
    (destruct F as [|F]; [cbn [length] in HF; lia|]);
    cbn [dropWhile_loop array_next drop_while]; [reflexivity|].
  destruct (p x); cbn [negb]; [|reflexivity].
  apply IH. cbn [length] in HF. lia.
Qed.

Lemma dropWhile_tail_collect (p : T -> bool) (F : nat) (xs : list T) :
  forall fuel, length xs < fuel ->
    collect (dropWhile_next array_next p F) fuel
      (DropWhileTail (tailIterable xs))
    = Some (Normal xs, DropWhileTail (mk_loop [] true)).
Proof.
  induction xs as [|x xs IH]; intros fuel Hfuel;
    (destruct fuel as [|fuel]; [cbn [length] in Hfuel; lia|]);
    rewrite collect_S; [reflexivity|].
  change (dropWhile_next array_next p F
            (DropWhileTail (tailIterable (x :: xs))))
    with (Some (Normal (Value x), DropWhileTail (tailIterable xs))).
  cbv iota beta. rewrite IH by (cbn [length] in Hfuel; lia). reflexivity.
Qed.

Lemma dropWhile_collect (p : T -> bool) (xs : list T) :
  collect (dropWhile_next array_next p (S (length xs))) (S (length xs))
    (dropWhile xs)
  = Some (Normal (drop_while p xs), DropWhileTail (mk_loop [] true)).
Proof.
  rewrite collect_S.
  change (dropWhile_next array_next p (S (length xs)) (dropWhile xs))
    with (dropWhile_loop array_next p (S (length xs)) xs).
  rewrite dropWhile_pull by lia.
  pose proof (drop_while_length p xs) as Hlen.
  destruct (drop_while p xs) as [|x rest]; [reflexivity|].
  cbn [length] in Hlen.
  rewrite dropWhile_tail_collect by lia. reflexivity.
Qed.

(** X7: over the same array, [takeWhile] and [dropWhile] split it in two:
    what [dropWhile] yields starts with the first element failing the
    predicate, and put after what [takeWhile] yields it gives the array
    back. *)
Theorem takeWhile_dropWhile_split (p : T -> bool) (xs : list T) :
  exists taken dropped g,
    collect (total (takeWhile_next array_next p)) (S (length xs)) (takeWhile xs)
    = Some (Normal taken, g)
    /\ collect (dropWhile_next array_next p (S (length xs))) (S (length xs))
         (dropWhile xs)
       = Some (Normal dropped, DropWhileTail (mk_loop [] true))
    /\ taken ++ dropped = xs
    /\ match dropped with [] => True | x :: _ => p x = false end.
Proof.
  exists (take_while p xs), (drop_while p xs). eexists.
  split; [apply takeWhile_collect|].
  split; [apply dropWhile_collect|].
  split; [apply take_drop_while|].
  induction xs as [|x xs IH]; [exact I|].
  cbn [drop_while]. destruct (p x) eqn:E; [exact IH|exact E].
Qed.
End TransformFacts.

(** ** all, any, contains, reduce, reduce_ over arrays *)

Section ConsumerFacts.
Context {T : Type}.

Lemma all_array (p : T -> bool) (xs : list T) :
  forall fuel, length xs < fuel ->
    all array_next p fuel xs
    = Some (Normal (forallb p xs), tl (drop_while p xs)).
Proof.
  induction xs as [|x xs IH]; intros fuel Hfuel;
    (destruct fuel as [|fuel]; [cbn [length] in Hfuel; lia|]);
    cbn [all array_next forallb drop_while]; [reflexivity|].
  destruct (p x); cbn [negb andb]; [|reflexivity].
  apply IH. cbn [length] in Hfuel. lia.
Qed.

Lemma forallb_negb_existsb (p : T -> bool) (xs : list T) :
  negb (forallb (fun item => negb (p item)) xs) = existsb p xs.
Proof.
  induction xs as [|x xs IH]; [reflexivity|].
  cbn [forallb existsb]. rewrite <- IH. now destruct (p x).
Qed.

(** X8: [all] answers whether every element passes the predicate ([true]
    on an empty array) and stops at the first element that fails: the
    iterator is left just after it. *)
Theorem all_checks_every_element (p : T -> bool) (xs : list T) :
  exists rest,
    all array_next p (S (length xs)) xs = Some (Normal (forallb p xs), rest)
    /\ (forallb p xs = true /\ rest = []
        \/ exists pre x,
             forallb p xs = false /\ Forall (fun y => p y = true) pre
             /\ p x = false /\ xs = pre ++ x :: rest).
Proof.
  exists (tl (drop_while p xs)). split; [apply all_array; lia|].
  induction xs as [|x xs IH]; [now left|].
  cbn [forallb drop_while]. destruct (p x) eqn:E; cbn [andb].
  - destruct IH as [[H1 H2]|(pre & y & H1 & H2 & H3 & H4)].
    + now left.
    + right. exists (x :: pre), y. repeat split; try assumption.
      * now constructor.
      * cbn [app]. now f_equal.
  - right. exists [], x. repeat split; try assumption. constructor.
Qed.

(** X9: [any] answers whether some element passes the predicate ([false]
    on an empty array), and [contains] whether some element of the
    haystack is [===] to the needle: when [===] to the needle is being
    the needle, that is whether the needle is an element; a NaN is found
    in no haystack. *)
Theorem any_and_contains (p : T -> bool) (value_eq : T -> T -> bool)
  (xs : list T) (needle : T) :
  (exists rest,
     any array_next p (S (length xs)) xs = Some (Normal (existsb p xs), rest))
  /\ (exists rest,
        contains array_next value_eq (S (length xs)) xs needle
        = Some (Normal (existsb (fun v => value_eq v needle) xs), rest))
  /\ ((forall v, value_eq v needle = true <-> v = needle) ->
      (existsb (fun v => value_eq v needle) xs = true <-> In needle xs))
  /\ contains array_next PrimFloat.eqb 2 [nan] nan = Some (Normal false, []).
Proof.
  split; [|split; [|split]].
  - eexists. unfold any. rewrite all_array by lia.
    rewrite forallb_negb_existsb. reflexivity.
  - eexists. unfold contains, any. rewrite all_array by lia.
    rewrite forallb_negb_existsb. reflexivity.
  - intros Heq. rewrite existsb_exists. split.
    + intros (x & Hin & Hx). apply Heq in Hx. now subst.
    + intros Hin. exists needle. split; [exact Hin|]. now apply Heq.
  - reflexivity.
Qed.

Lemma reduce_array {R : Type} (f : R -> T -> R) (xs : list T) :
  forall fuel a, length xs < fuel ->
    reduce array_next f fuel xs a = Some (Normal (fold_left f xs a), []).
Proof.
  induction xs as [|x xs IH]; intros fuel a Hfuel;
    (destruct fuel as [|fuel]; [cbn [length] in Hfuel; lia|]);
    cbn [reduce array_next fold_left]; [reflexivity|].
  apply IH. cbn [length] in Hfuel. lia.
Qed.

Lemma reduce_tail {R : Type} (f : R -> T -> R) (xs : list T) :
  forall fuel a, length xs < fuel ->
    reduce (tailIterable_next array_next) f fuel (tailIterable xs) a
    = Some (Normal (fold_left f xs a), mk_loop [] true).
Proof.
  induction xs as [|x xs IH]; intros fuel a Hfuel;
    (destruct fuel as [|fuel]; [cbn [length] in Hfuel; lia|]);
    cbn [reduce]; [reflexivity|].
  change (tailIterable_next array_next (tailIterable (x :: xs)))
    with (Normal (Value x), tailIterable xs).
  cbv iota beta. apply IH. cbn [length] in Hfuel. lia.
Qed.

(** X10: [reduce] folds the reducer over the array from the left, starting
    from the initial value, which it returns for an empty array.
    [reduce_] returns [undefined] for an empty array and otherwise what
    [reduce] gives on the rest of the array with the first element as
    initial value. *)
Theorem reduce_folds_left (f : T -> T -> T) (xs : list T) (initialValue : T) :
  reduce array_next f (S (length xs)) xs initialValue
  = Some (Normal (fold_left f xs initialValue), [])
  /\ reduce_ array_next f (S (length xs)) xs
     = Some (Normal (match xs with
                     | [] => None
                     | x :: rest => Some (fold_left f rest x)
                     end), [])
  /\ (forall x rest r s,
        reduce array_next f (S (length rest)) rest x = Some (Normal r, s) ->
        reduce_ array_next f (S (length (x :: rest))) (x :: rest)
        = Some (Normal (Some r), s)).
Proof.
  split; [apply reduce_array; lia|]. split.
  - destruct xs as [|x rest]; [reflexivity|].
    unfold reduce_. cbn [array_next].
    rewrite reduce_tail by (cbn [length]; lia). reflexivity.
  - intros x rest r s Hr. rewrite reduce_array in Hr by lia.
    injection Hr as <- <-. unfold reduce_. cbn [array_next].
    rewrite reduce_tail by (cbn [length]; lia). reflexivity.
Qed.
End ConsumerFacts.

(** ** accumulate *)

Section AccumulateFacts.
Context {T R : Type}.

Lemma firstn_snoc (xs : list T) :
  forall k y, nth_error xs k = Some y -> firstn (S k) xs = firstn k xs ++ [y].
Proof.
  induction xs as [|x xs IH]; intros [|k] y Hy; try discriminate.
  - cbn [nth_error] in Hy. injection Hy as <-. reflexivity.
  - cbn [nth_error] in Hy. cbn [firstn app]. f_equal. now apply IH.
Qed.

Lemma accumulate_loop_collect (seed : T -> R) (f : R -> T -> R)
  (initial : option R) (xs : list T) :
  forall a,
    exists out,
      collect (total (accumulate_body array_next seed f initial))
        (S (length xs)) (AccumulateLoop a (tailIterable xs))
      = Some (Normal out, AccumulateDone)
      /\ length out = length xs
      /\ forall k, k < length xs ->
           nth_error out k = Some (fold_left f (firstn (S k) xs) a).
Proof.
  induction xs as [|x xs IH]; intros a; pull_once.
  - exists []. split; [reflexivity|]. split; [reflexivity|].
    cbn [length]. lia.
  - change (accumulate_body array_next seed f initial
              (AccumulateLoop a (tailIterable (x :: xs))))
      with (Normal (Value (f a x)), AccumulateLoop (f a x) (tailIterable xs)).
    cbv iota beta. destruct (IH (f a x)) as (out & Hout & Hlen & Hnth).
    cbn [length]. rewrite Hout. exists (f a x :: out).
    split; [reflexivity|]. split; [cbn [length]; now rewrite Hlen|].
    intros [|k] Hk; [reflexivity|].
    cbn [nth_error]. rewrite Hnth by lia. reflexivity.
Qed.

Lemma accumulate_unseeded_collect (seed : T -> R) (f : R -> T -> R)
  (xs : list T) :
  exists out,
    collect (total (accumulate_body array_next seed f None))
      (S (length xs)) (AccumulateStart xs)
    = Some (Normal out, AccumulateDone)
    /\ length out = length xs
    /\ (forall x rest, xs = x :: rest -> nth_error out 0 = Some (seed x))
    /\ (forall k a x,
          nth_error out k = Some a -> nth_error xs (S k) = Some x ->
          nth_error out (S k) = Some (f a x)).
Proof.
  destruct xs as [|x xs].
  - exists []. split; [reflexivity|]. split; [reflexivity|].
    split; [discriminate|]. intros [|k] a y H; discriminate.
  - destruct (accumulate_loop_collect seed f None xs (seed x))
      as (out & Hout & Hlen & Hnth).
    exists (seed x :: out). split; [|split; [|split]].
    + cbn [length]. pull_once.
      change (accumulate_body array_next seed f None (AccumulateStart (x :: xs)))
        with (Normal (Value (seed x)),
              AccumulateLoop (seed x) (tailIterable xs)).
      cbv iota beta. now rewrite Hout.
    + cbn [length]. now rewrite Hlen.
    + intros y rest E. injection E as <- _. reflexivity.
    + intros k a y Ha Hy. cbn [nth_error] in Hy |- *.
      assert (Hk : k < length xs) by (apply nth_error_Some; congruence).
      rewrite Hnth by exact Hk.
      rewrite (firstn_snoc xs k y Hy), fold_left_app. cbn [fold_left].
      do 2 f_equal.
      destruct k as [|k]; cbn [nth_error] in Ha.
      * now injection Ha as <-.
      * rewrite Hnth in Ha by lia. now injection Ha as <-.
Qed.

(** X12: [accumulate(xs, reducer)], without initial value, yields nothing
    for an empty array; otherwise it yields as many values as [xs] has
    elements, the first being [reducer(undefined, xs[0])] and each later
    one the reducer applied to the one before and the next element. *)
Theorem accumulate_without_initial (f : option R -> T -> R) (xs : list T) :
  exists out,
    collect (total (accumulate_seeded_next array_next f))
      (S (length xs)) (accumulate R xs)
    = Some (Normal out, AccumulateDone)
    /\ length out = length xs
    /\ (forall x rest, xs = x :: rest -> nth_error out 0 = Some (f None x))
    /\ (forall k a x,
          nth_error out k = Some a -> nth_error xs (S k) = Some x ->
          nth_error out (S k) = Some (f (Some a) x)).
Proof.
  destruct xs as [|x xs].
  - exists []. split; [reflexivity|]. split; [reflexivity|].
    split; [discriminate|]. intros [|k] a y H; discriminate.
  - destruct (accumulate_loop_collect (fun value => f None value)
                (fun a item => f (Some a) item) None xs (f None x))
      as (out & Hout & Hlen & Hnth).
    exists (f None x :: out). split; [|split; [|split]].
    + cbn [length]. pull_once.
      change (accumulate_seeded_next array_next f (accumulate R (x :: xs)))
        with (Normal (Value (f None x)),
              AccumulateLoop (f None x) (tailIterable xs)).
      cbv iota beta. unfold accumulate_seeded_next. now rewrite Hout.
    + cbn [length]. now rewrite Hlen.
    + intros y rest E. injection E as <- _. reflexivity.
    + intros k a y Ha Hy. cbn [nth_error] in Hy |- *.
      assert (Hk : k < length xs) by (apply nth_error_Some; congruence).
      rewrite Hnth by exact Hk.
      rewrite (firstn_snoc xs k y Hy), fold_left_app. cbn [fold_left].
      do 2 f_equal.
      destruct k as [|k]; cbn [nth_error] in Ha.
      * now injection Ha as <-.
      * rewrite Hnth in Ha by lia. now injection Ha as <-.
Qed.
End AccumulateFacts.

(** X11: [accumulate(xs, reducer, initial)] with an [initial] that is not
    [undefined] yields one value more than [xs] has elements: first
    [initial], then the reduction of the first [k] elements for
    [k = 1, 2, ...]; so the value yielded at place [k] is what [reduce]
    returns on the first [k] elements, and on an empty array [initial]
    alone is yielded.  With an [initial] that is [undefined] the call
    does what [accumulate(xs, reducer)] does: it yields as many values as
    [xs] has elements, the first being [reducer(undefined, xs[0])]. *)
Theorem accumulate_yields_reductions {T R : Type}
  (f : option R -> T -> option R) (xs : list T) :
  (forall initial : R,
     exists out,
       collect (total (accumulate_next array_next f (Some initial)))
         (S (S (length xs))) (accumulate (option R) xs)
       = Some (Normal out, AccumulateDone)
       /\ length out = S (length xs)
       /\ forall k, k <= length xs ->
            exists r,
              nth_error out k = Some r
              /\ reduce array_next f (S k) (firstn k xs) (Some initial)
                 = Some (Normal r, []))
  /\ (exists out,
        collect (total (accumulate_next array_next f None))
          (S (length xs)) (accumulate (option R) xs)
        = Some (Normal out, AccumulateDone)
        /\ length out = length xs
        /\ (forall x rest, xs = x :: rest -> nth_error out 0 = Some (f None x))
        /\ (forall k a x,
              nth_error out k = Some a -> nth_error xs (S k) = Some x ->
              nth_error out (S k) = Some (f a x))).
Proof.
  split.
  - intros initial.
    destruct (accumulate_loop_collect (fun value => f None value) f
                (Some (Some initial)) xs (Some initial))
      as (out & Hout & Hlen & Hnth).
    exists (Some initial :: out). split; [|split].
    + pull_once.
      change (accumulate_next array_next f (Some initial)
                (accumulate (option R) xs))
        with (Normal (Value (Some initial)),
              AccumulateLoop (Some initial) (tailIterable xs)).
      cbv iota beta. unfold accumulate_next. cbn [option_map].
      now rewrite Hout.
    + cbn [length]. now rewrite Hlen.
    + intros k Hk. exists (fold_left f (firstn k xs) (Some initial)). split.
      * destruct k as [|k]; [reflexivity|].
        cbn [nth_error]. apply Hnth. lia.
      * apply reduce_array. rewrite length_firstn. lia.
  - exact (accumulate_unseeded_collect (fun value => f None value) f xs).
Qed.


(** X13: [accumulate(xs)] over numbers yields the running sums of [xs]:
    the first element, then each time the sum so far plus the next
    element, added as the code's numbers add; the last of them is what
    [reduce_(xs, (a, b) => a + b)] returns.  [[1, 2, 3, 4]] gives
    [[1, 3, 6, 10]]; on the doubles [[2 ^ 53, 1, 1]] gives [2 ^ 53] three
    times. *)
Theorem accumulate_prefix_sums :
  (forall (N : Type) (num : Number N) (xs : list N),
     exists out,
       collect (total (accumulate_sum_next array_next)) (S (length xs))
         (accumulate N xs)
       = Some (Normal out, AccumulateDone)
       /\ length out = length xs
       /\ (forall x rest k, xs = x :: rest -> k <= length rest ->
             nth_error out k = Some (fold_left num_add (firstn k rest) x))
       /\ reduce_ array_next num_add (S (length xs)) xs
          = Some (Normal (last (List.map (@Some N) out) None), []))
  /\ collect (total (accumulate_sum_next array_next)) 5
       (accumulate Z [1; 2; 3; 4]%Z)
     = Some (Normal [1; 3; 6; 10]%Z, AccumulateDone)
  /\ collect (total (accumulate_sum_next array_next)) 4
       (accumulate float [0x1p53; 1; 1]%float)
     = Some (Normal [0x1p53; 0x1p53; 0x1p53]%float, AccumulateDone).
Proof.
  split; [|split; vm_compute; reflexivity].
  intros N num xs. destruct xs as [|x xs].
  - exists []. repeat split; try reflexivity. intros; discriminate.
  - destruct (accumulate_loop_collect (fun value : N => value)
                (fun accumulated item => num_add accumulated item) None xs x)
      as (out & Hout & Hlen & Hnth).
    change (fun accumulated item : N => num_add accumulated item)
      with (@num_add N num) in Hnth.
    exists (x :: out). split; [|split; [|split]].
    + cbn [length]. pull_once.
      change (accumulate_sum_next array_next (accumulate N (x :: xs)))
        with (Normal (Value x), AccumulateLoop x (tailIterable xs)).
      cbv iota beta. unfold accumulate_sum_next. now rewrite Hout.
    + cbn [length]. now rewrite Hlen.
    + intros y rest k E Hk. injection E as <- <-.
      destruct k as [|k]; cbn [nth_error firstn fold_left]; [reflexivity|].
      rewrite Hnth by lia. reflexivity.
    + unfold reduce_. cbn [array_next].
      rewrite reduce_tail by (cbn [length]; lia). do 2 f_equal.
      destruct (Nat.eq_dec (length xs) 0) as [E|E].
      * destruct xs; [|discriminate]. destruct out; [|discriminate].
        reflexivity.
      * assert (Hl : nth_error out (length xs - 1)
                     = Some (fold_left num_add xs x)).
        { rewrite Hnth by lia.
          replace (S (length xs - 1)) with (length xs) by lia.
          now rewrite firstn_all. }
        rewrite <- Hlen in Hl.
        clear - Hl E Hlen. cbn [List.map].
        assert (Hout : out <> []) by (intros ->; cbn in Hlen; lia).
        destruct (exists_last Hout) as (pre & z & ->).
        rewrite length_app, Nat.add_sub in Hl.
        rewrite nth_error_app2, Nat.sub_diag in Hl by lia.
        injection Hl as ->.
        rewrite map_app. cbn [List.map].
        change (Some x :: List.map (@Some N) pre ++ [Some (fold_left num_add xs x)])
          with ((Some x :: List.map (@Some N) pre)
                  ++ [Some (fold_left num_add xs x)]).
        now rewrite last_last.
Qed.

(** ** chain, chainFromIterable, compress, cycle, enumerate over arrays *)

Section ChainFacts.
Context {T : Type}.

Lemma chain_collect (xss : list (list T)) :
  collect (total (chain_next array_next)) (S (length (concat xss))) (chain xss)
  = Some (Normal (concat xss), mk_chain [] true).
Proof.
  induction xss as [|xs xss IH]; [reflexivity|].
  induction xs as [|x xs IHx].
  - cbn [concat app]. rewrite collect_S in *. exact IH.
  - cbn [concat app length]. pull_once.
    change (chain_next array_next (chain ((x :: xs) :: xss)))
      with (Normal (Value x), chain (xs :: xss)).
    cbv iota beta. cbn [concat] in IHx. now rewrite IHx.
Qed.

Lemma chain_seek_pull (outer : list (list T)) :
  forall l F, 2 * length outer + 2 <= F ->
    chainFrom_loop array_next array_next F outer (Some l)
    = Some (chain_seek outer l).
Proof.
  induction outer as [|i outer IH]; intros l F HF;
    (destruct F as [|F]; [lia|]); cbn [chainFrom_loop];
    destruct l as [|x l]; cbn [array_next chain_seek]; try reflexivity.
  - destruct F as [|F]; [cbn [length] in HF; lia|]. reflexivity.
  - destruct F as [|F]; [cbn [length] in HF; lia|].
    cbn [chainFrom_loop array_next]. apply IH. cbn [length] in HF. lia.
Qed.

Lemma chain_seek_collect (fuel : nat) :
  forall (outer : list (list T)) (l : list T) F,
    2 * length outer + 2 <= F -> length (l ++ concat outer) < fuel ->
    collect (chainFromIterable_next array_next array_next F) fuel
      (mk_chainFrom outer (Some l) false)
    = Some (Normal (l ++ concat outer), mk_chainFrom [] None true).
Proof.
  induction fuel as [|fuel IH]; intros outer l F HF Hfuel; [lia|].
  rewrite collect_S.
  change (chainFromIterable_next array_next array_next F
            (mk_chainFrom outer (Some l) false))
    with (chainFrom_loop array_next array_next F outer (Some l)).
  rewrite chain_seek_pull by exact HF.
  revert l HF Hfuel. induction outer as [|i outer IHo]; intros l HF Hfuel.
  - destruct l as [|x l]; cbn [chain_seek]; [reflexivity|].
    rewrite IH by (cbn [length app] in *; lia). reflexivity.
  - destruct l as [|x l]; cbn [chain_seek].
    + cbn [concat app]. apply IHo; cbn [length concat app] in *; lia.
    + rewrite IH by (cbn [length app] in *; lia). reflexivity.
Qed.

(** X14: spreading [chain(a, b, ...)] gives the elements of [a], then
    those of [b], and so on, empty arrays contributing nothing; and
    [chainFromIterable] over the array of the same arrays yields the same
    elements. *)
Theorem chain_concatenates (xss : list (list T)) :
  collect (total (chain_next array_next)) (S (length (concat xss))) (chain xss)
  = Some (Normal (concat xss), mk_chain [] true)
  /\ collect (chainFromIterable_next array_next array_next
                (2 * length xss + 2))
       (S (length (concat xss))) (chainFromIterable xss)
     = Some (Normal (concat xss), mk_chainFrom [] None true).
Proof.
  split; [apply chain_collect|].
  destruct xss as [|i outer]; [reflexivity|].
  transitivity
    (collect (chainFromIterable_next array_next array_next
                (2 * length (i :: outer) + 2))
       (S (length (concat (i :: outer))))
       (mk_chainFrom outer (Some i) false)).
  - rewrite !collect_S.
    change (chainFromIterable_next array_next array_next
              (2 * length (i :: outer) + 2) (chainFromIterable (i :: outer)))
      with (chainFrom_loop array_next array_next
              (2 * length (i :: outer) + 2) (i :: outer) None).
    change (chainFromIterable_next array_next array_next
              (2 * length (i :: outer) + 2)
              (mk_chainFrom outer (Some i) false))
      with (chainFrom_loop array_next array_next
              (2 * length (i :: outer) + 2) outer (Some i)).
    replace (2 * length (i :: outer) + 2)
      with (S (S (2 * length outer + 2))) by (cbn [length]; lia).
    remember (2 * length outer + 2) as F0 eqn:HF0.
    change (chainFrom_loop array_next array_next (S (S F0)) (i :: outer) None)
      with (chainFrom_loop array_next array_next (S F0) outer (Some i)).
    rewrite (chain_seek_pull outer i (S (S F0))) by lia.
    rewrite (chain_seek_pull outer i (S F0)) by lia.
    reflexivity.
  - apply chain_seek_collect; cbn [length concat]; lia.
Qed.
End ChainFacts.

Section CompressFacts.
Context {A B VA VB : Type}.
Variable nextA : Next A VA.
Variable nextB : Next B VB.

(** [zip2] does what [zip] does on its two sources. *)
Lemma zip2_as_zip (g : zip2_state A B) :
  zip_next (sum_next nextA nextB) (zip2_as_zip_state g)
  = (pair_as_tuple (fst (zip2_next nextA nextB g)),
     zip2_as_zip_state (snd (zip2_next nextA nextB g))).
Proof.
  destruct g as [a b [|]]; [reflexivity|].
  unfold zip_next, zip2_next, zip2_as_zip_state.
  cbn [zip_finished iterators z_ended z_first z_second pull_all sum_next].
  destruct (nextA a) as [[[x|]|e] a'];
    destruct (nextB b) as [[[y|]|e'] b']; reflexivity.
Qed.
End CompressFacts.

Section CompressArrays.
Context {D Sel : Type}.
Variable truthy : Sel -> bool.

Lemma compress_pull (data : list D) :
  forall (selectors : list Sel) (F : nat),
    length data < F ->
    exists r,
      compress_loop array_next array_next truthy F
        (mk_zip2 data selectors false) = Some r
      /\ match drop_while (fun ds => negb (truthy (snd ds)))
                 (combine data selectors) with
         | [] => fst r = Normal Done /\ z_ended (snd r) = true
         | (d, _) :: rest =>
             exists data' selectors',
               r = (Normal (Value d), mk_zip2 data' selectors' false)
               /\ combine data' selectors' = rest
               /\ length data' < length data
         end.
Proof.
  induction data as [|d data IH]; intros selectors F HF;
    (destruct F as [|F]; [cbn [length] in HF; lia|]).
  - destruct selectors; (eexists; split; [reflexivity|]); now split.
  - destruct selectors as [|s selectors].
    + eexists. split; [reflexivity|]. cbn [combine drop_while]. now split.
    + cbn [compress_loop].
      change (zip2_next array_next array_next
                (mk_zip2 (d :: data) (s :: selectors) false))
        with (Normal (Value (d, s)), mk_zip2 data selectors false).
      cbv iota beta. cbn [combine drop_while snd].
      destruct (truthy s); cbn [negb].
      * eexists. split; [reflexivity|].
        exists data, selectors. repeat split. cbn [length]. lia.
      * destruct (IH selectors F ltac:(cbn [length] in HF; lia))
          as (r & Hr & Hspec).
        exists r. split; [exact Hr|].
        destruct (drop_while (fun ds => negb (truthy (snd ds)))
                    (combine data selectors)) as [|[d' s'] rest];
          [exact Hspec|].
        destruct Hspec as (data' & selectors' & -> & Hc & Hlen).
        exists data', selectors'. repeat split; [exact Hc|].
        cbn [length]. lia.
Qed.

Lemma compress_collect (fuel : nat) :
  forall (data : list D) (selectors : list Sel) (F : nat),
    length data < F -> length data < fuel ->
    exists g',
      collect (compress_next array_next array_next truthy F) fuel
        (mk_zip2 data selectors false)
      = Some (Normal (List.map fst
                        (List.filter (fun ds => truthy (snd ds))
                                     (combine data selectors))), g')
      /\ z_ended g' = true.
Proof.
  induction fuel as [|fuel IH]; intros data selectors F HF Hfuel; [lia|].
  rewrite collect_S. unfold compress_next at 1.
  destruct (compress_pull data selectors F HF) as (r & -> & Hspec).
  rewrite (drop_while_filter (fun ds => truthy (snd ds))).
  destruct (drop_while (fun ds => negb (truthy (snd ds)))
              (combine data selectors)) as [|[d s] rest].
  - destruct r as [c g']. cbn [fst snd] in Hspec. destruct Hspec as [-> Hg].
    exists g'. now split.
  - destruct Hspec as (data' & selectors' & -> & <- & Hlen).
    destruct (IH data' selectors' F ltac:(lia) ltac:(lia))
      as (g' & Hcollect & Hg).
    rewrite Hcollect. exists g'. now split.
Qed.

(** X15: spreading [compress(data, selectors)] gives, in order, the
    elements of [data] whose selector (the element of [selectors] at the
    same position) is truthy; positions beyond the end of the shorter of
    the two arrays give nothing. *)
Theorem compress_selects (data : list D) (selectors : list Sel) :
  exists g',
    collect (compress_next array_next array_next truthy (S (length data)))
      (S (length data)) (compress data selectors)
    = Some (Normal (List.map fst
                      (List.filter (fun ds => truthy (snd ds))
                                   (combine data selectors))), g')
    /\ z_ended g' = true.
Proof. apply compress_collect; lia. Qed.
End CompressArrays.

(** ** cycle *)

Section CycleFacts.
Context {T : Type}.
Variable x0 : T.
Variable more : list T.

Lemma mod_step (n k j : nat) :
  n <> 0 -> (k - 1) mod n = j -> 0 < k ->
  k mod n = if S j <? n then S j else 0.
Proof.
  intros Hn Hj Hk.
  pose proof (Nat.div_mod_eq (k - 1) n) as Hdiv. rewrite Hj in Hdiv.
  assert (Hlt : j < n) by (rewrite <- Hj; now apply Nat.mod_upper_bound).
  destruct (Nat.ltb_spec (S j) n).
  - symmetry. apply (Nat.mod_unique k n ((k - 1) / n) (S j)); lia.
  - symmetry. apply (Nat.mod_unique k n (S ((k - 1) / n)) 0); lia.
Qed.

Lemma skipn_nth_error (xs : list T) :
  forall k y, nth_error xs k = Some y -> skipn k xs = y :: skipn (S k) xs.
Proof.
  induction xs as [|x xs IH]; intros [|k] y Hy; try discriminate.
  - cbn [nth_error] in Hy. now injection Hy as <-.
  - cbn [nth_error] in Hy. cbn [skipn]. rewrite (IH k y Hy). reflexivity.
Qed.

Lemma cycle_states (k : nat) :
  let xs := x0 :: more in
  let g := after (cycle_next array_next) k (cycle xs) in
  (k = 0 /\ g = CycleStart xs
   \/ (1 <= k <= length xs
       /\ exists item, nth_error xs (k - 1) = Some item
                       /\ g = CycleFirst (skipn k xs) (firstn (k - 1) xs) item)
   \/ (length xs < k /\ g = CycleAgain xs ((k - 1) mod length xs)))
  /\ exists item,
       nth_error xs (k mod length xs) = Some item
       /\ fst (cycle_next array_next g) = Normal (Value item).
Proof.
  cbv zeta. set (xs := x0 :: more).
  assert (Hn : length xs <> 0) by discriminate.
  assert (Hstep : forall k g,
            (k = 0 /\ g = CycleStart xs
             \/ (1 <= k <= length xs
                 /\ exists item, nth_error xs (k - 1) = Some item
                      /\ g = CycleFirst (skipn k xs) (firstn (k - 1) xs) item)
             \/ (length xs < k /\ g = CycleAgain xs ((k - 1) mod length xs))) ->
            (exists item,
               nth_error xs (k mod length xs) = Some item
               /\ fst (cycle_next array_next g) = Normal (Value item))
            /\ (1 <= S k <= length xs
                /\ (exists item, nth_error xs (S k - 1) = Some item
                     /\ snd (cycle_next array_next g)
                        = CycleFirst (skipn (S k) xs) (firstn (S k - 1) xs) item)
                \/ (length xs < S k
                    /\ snd (cycle_next array_next g)
                       = CycleAgain xs ((S k - 1) mod length xs)))).
  { clear k. intros k g [[-> ->]|[(Hk & item & Hitem & ->)|[Hk ->]]].
    - split.
      + exists x0. split; [now rewrite Nat.Div0.mod_0_l|reflexivity].
      + left. split; [cbn [length xs]; lia|]. exists x0. split; reflexivity.
    - cbn [cycle_next]. unfold cycle_first.
      replace (firstn (k - 1) xs ++ [item]) with (firstn k xs)
        by (rewrite <- (firstn_snoc xs (k - 1) item Hitem);
            f_equal; lia).
      destruct (Nat.eq_dec k (length xs)) as [->|Hne].
      + rewrite skipn_all, firstn_all. cbn [array_next].
        unfold cycle_again. split.
        * exists x0. split; [now rewrite Nat.Div0.mod_same|reflexivity].
        * right. split; [lia|].
          replace (S (length xs) - 1) with (length xs) by lia.
          rewrite Nat.Div0.mod_same. reflexivity.
      + destruct (nth_error xs k) as [y|] eqn:Hy;
          [|apply nth_error_None in Hy; lia].
        rewrite (skipn_nth_error xs k y Hy). cbn [array_next].
        rewrite Nat.mod_small by lia. split.
        * exists y. split; [exact Hy|reflexivity].
        * left. split; [lia|]. exists y.
          replace (S k - 1) with k by lia.
          split; [exact Hy|reflexivity].
    - cbn [cycle_next]. unfold cycle_again.
      replace (S k - 1) with k by lia.
      rewrite (mod_step (length xs) k _ Hn eq_refl) by lia.
      destruct (Nat.ltb_spec (S ((k - 1) mod length xs)) (length xs))
        as [Hlt|Hge].
      + destruct (nth_error xs (S ((k - 1) mod length xs))) as [y|] eqn:Hy;
          [|apply nth_error_None in Hy; lia].
        split; [exists y; now split|]. right. split; [lia|reflexivity].
      + replace (nth_error xs (S ((k - 1) mod length xs))) with (@None T)
          by (symmetry; apply nth_error_None; lia).
        cbn [xs nth_error]. split; [exists x0; now split|].
        right. split; [lia|reflexivity]. }
  induction k as [|k IH].
  - assert (H0 : 0 = 0 /\ cycle (T := T) xs = CycleStart xs) by now split.
    split; [left; exact H0|]. apply (Hstep 0 _ (or_introl H0)).
  - destruct IH as [IH _].
    destruct (Hstep k _ IH) as [_ Hnext].
    assert (Hafter : after (cycle_next array_next) (S k) (cycle xs)
                     = snd (cycle_next array_next
                              (after (cycle_next array_next) k (cycle xs)))).
    { clear. generalize (cycle (T := T) xs) as g.
      induction k as [|k IHk]; intros g; [reflexivity|].
      cbn [after] in *. apply IHk. }
    rewrite Hafter.
    assert (Hinv : S k = 0
                   /\ snd (cycle_next array_next
                             (after (cycle_next array_next) k (cycle xs)))
                      = CycleStart xs
                   \/ (1 <= S k <= length xs
                       /\ exists item, nth_error xs (S k - 1) = Some item
                            /\ snd (cycle_next array_next
                                      (after (cycle_next array_next) k (cycle xs)))
                               = CycleFirst (skipn (S k) xs)
                                            (firstn (S k - 1) xs) item)
                   \/ (length xs < S k
                       /\ snd (cycle_next array_next
                                 (after (cycle_next array_next) k (cycle xs)))
                          = CycleAgain xs ((S k - 1) mod length xs)))
      by (right; exact Hnext).
    split; [exact Hinv|]. apply (Hstep (S k) _ Hinv).
Qed.

(** X16: [cycle] over a non-empty array never ends: pull number [k]
    (counting from 0) yields the element at position [k mod n], so the
    array is repeated over and over.  Over an empty array the first pull
    answers done. *)
Theorem cycle_repeats :
  (forall k,
     exists item,
       nth_error (x0 :: more) (k mod length (x0 :: more)) = Some item
       /\ fst (cycle_next array_next
                 (after (cycle_next array_next) k (cycle (x0 :: more))))
          = Normal (Value item))
  /\ cycle_next (@array_next T) (cycle []) = (Normal Done, CycleDone).
Proof.
  split; [|reflexivity]. intros k. exact (proj2 (cycle_states k)).
Qed.
End CycleFacts.

(** ** enumerate *)

Section EnumerateFacts.
Context {T N : Type} {num : Number N}.

Lemma enumerate_collect (xs : list T) :
  forall i : N,
    exists out g',
      collect (total (enumerate_next array_next)) (S (length xs)) (en_at i xs)
      = Some (Normal out, g')
      /\ length out = length xs
      /\ forall k x, nth_error xs k = Some x ->
           nth_error out k = Some (count_value i num_one k, x).
Proof.
  induction xs as [|x xs IH]; intros i; pull_once.
  - eexists [], _. split; [reflexivity|]. split; [reflexivity|].
    intros [|k] y H; discriminate.
  - rewrite (enumerate_next_value array_next i (x :: xs) xs x eq_refl).
    destruct (IH (num_add i num_one)) as (out & g' & Hout & Hlen & Hnth).
    cbn [length]. rewrite Hout. exists ((i, x) :: out), g'.
    split; [reflexivity|]. split; [cbn [length]; now rewrite Hlen|].
    intros [|k] y Hy; cbn [nth_error] in *.
    + now injection Hy as <-.
    + now rewrite (Hnth k y Hy).
Qed.
End EnumerateFacts.

Lemma count_value_exact {N : Type} {num : Number N} (inj : Z -> N) (B : Z)
  (exact : exact_within B inj) (k : nat) :
  forall start : Z,
    within B start -> within B (start + Z.of_nat k) ->
    count_value (inj start) num_one k = inj (start + Z.of_nat k)%Z.
Proof.
  induction k as [|k IH]; intros start Wstart Wlast; cbn [count_value].
  - f_equal. lia.
  - assert (W1 : within B 1) by (unfold within in *; lia).
    assert (Wnext : within B (start + 1)) by (unfold within in *; lia).
    assert (Hadd : num_add (inj start) num_one = inj (start + 1)%Z)
      by (rewrite <- (exact_one exact); now apply (exact_add exact)).
    rewrite Hadd, IH; [f_equal; lia|exact Wnext|].
    replace (start + 1 + Z.of_nat k)%Z with (start + Z.of_nat (S k))%Z by lia.
    exact Wlast.
Qed.

(** X17: spreading [enumerate(xs, start)] gives one pair for each element
    of [xs]: at place [k] the pair of [xs[k]] and the number that adding 1
    to [start] [k] times gives.  On numbers that are exact on the
    integers within [B] (the doubles for [B = 64], by
    [exact_within_float]) that number is [start + k] whenever the
    integers [start] and [start + k] are within [B]; on the doubles, from
    [2 ^ 53] on every element is numbered [2 ^ 53]. *)
Theorem enumerate_numbers_elements :
  (forall (T N : Type) (num : Number N) (xs : list T) (start : N),
     exists out g',
       collect (total (enumerate_next array_next)) (S (length xs))
         (enumerate xs start)
       = Some (Normal out, g')
       /\ length out = length xs
       /\ forall k x, nth_error xs k = Some x ->
            nth_error out k = Some (count_value start num_one k, x))
  /\ (forall (N : Type) (num : Number N) (inj : Z -> N) (B : Z)
             (start : Z) (k : nat),
        exact_within B inj ->
        within B start -> within B (start + Z.of_nat k) ->
        count_value (inj start) num_one k = inj (start + Z.of_nat k)%Z)
  /\ option_map fst
       (collect (total (enumerate_next array_next)) 4
          (enumerate [7; 8; 9] 1%float))
     = Some (Normal [(1%float, 7); (2%float, 8); (3%float, 9)])
  /\ option_map fst
       (collect (total (enumerate_next array_next)) 4
          (enumerate [7; 8; 9] 0x1p53%float))
     = Some (Normal [(0x1p53%float, 7); (0x1p53%float, 8); (0x1p53%float, 9)]).
Proof.
  split; [|split; [|split; vm_compute; reflexivity]].
  - intros T N num xs start. apply enumerate_collect.
  - intros N num inj B start k exact. now apply count_value_exact.
Qed.

(** X17 on the doubles: counting seven times from 5 gives 12. *)
Lemma enumerate_numbers_elements_witness :
  count_value (float_of_Z 5) num_one 7 = float_of_Z (5 + Z.of_nat 7)%Z.
Proof.
  apply (proj1 (proj2 enumerate_numbers_elements) float float_number
           float_of_Z 64%Z 5%Z 7 exact_within_float).
  - unfold within. cbn. lia.
  - unfold within. cbn. lia.
Defined.



(** ** groupBy: the groups are the runs *)

Section GroupByRuns.
Context {T K : Type}.
Variable key_eq : K -> K -> bool.
Variable keyFunc : T -> K.

(** X18: when no key is NaN and every group is spread as soon as it is
    yielded, the groups of [groupBy(xs, keyFunc)] are the runs of [xs]: no
    group is empty, the key of every element of a group is [===] to the
    key yielded with the group, the key of a group is not [===] to the key
    of the group before it, and end to end the groups give [xs]; an empty
    [xs] gives no group. *)
Theorem groupBy_maximal_runs (xs : list T) :
  keys_self_equal key_eq keyFunc xs ->
  exists rs : list (K * list T),
    consume_groups key_eq keyFunc (S (S (length xs))) (S (S (length xs)))
      (groupBy xs)
    = Some (List.map (fun r => (Item (fst r), List.map (@Item T) (snd r))) rs)
    /\ concat (List.map snd rs) = xs
    /\ Forall (fun r => snd r <> []
                        /\ Forall (fun y => key_eq (keyFunc y) (fst r) = true)
                                  (snd r)) rs
    /\ adjacent_differ key_eq (List.map fst rs).
Proof.
  intros Hself.
  destruct (groupBy_runs key_eq keyFunc xs Hself) as (rs & Hrs).
  exists rs. exact Hrs.
Qed.

(** *** Spreading the outer sequence first *)

Lemma skip_same_key (k : K) (rest : list T) :
  forall c cv,
    key_eq c k = true ->
    match drop_while (fun y => key_eq (keyFunc y) k) rest with
    | [] =>
        exists ck,
          skip key_eq keyFunc (Item k) (Item c) cv rest
          = (true, ck, Undefined, [])
    | y :: rest' =>
        skip key_eq keyFunc (Item k) (Item c) cv rest
        = (false, Item (keyFunc y), Item y, rest')
    end.
Proof.
  induction rest as [|y rest IH]; intros c cv Hc.
  - cbn [skip drop_while strict_eq]. rewrite Hc. eexists. reflexivity.
  - cbn [skip drop_while strict_eq]. rewrite Hc.
    destruct (key_eq (keyFunc y) k) eqn:Hy.
    + apply IH. exact Hy.
    + apply skip_stop. exact Hy.
Qed.

Lemma run_keys_same_key (k : K) (rest : list T) :
  run_keys key_eq keyFunc (Some k) rest
  = match drop_while (fun y => key_eq (keyFunc y) k) rest with
    | [] => []
    | y :: rest' => keyFunc y :: run_keys key_eq keyFunc (Some (keyFunc y)) rest'
    end.
Proof.
  induction rest as [|y rest IH]; [reflexivity|].
  cbn [run_keys drop_while].
  destruct (key_eq (keyFunc y) k); [exact IH|reflexivity].
Qed.

Lemma drop_while_self_equal (p : T -> bool) (rest : list T) :
  keys_self_equal key_eq keyFunc rest ->
  keys_self_equal key_eq keyFunc (drop_while p rest).
Proof.
  induction rest as [|y rest IH]; intros Hself; [exact Hself|].
  cbn [drop_while]. destruct (p y); [|exact Hself].
  apply IH. now inversion Hself.
Qed.

Lemma spread_groupBy_keys (fuel : nat) :
  forall (rest : list T) (k : K) (cv : slot T) (n : nat),
    key_eq k k = true ->
    keys_self_equal key_eq keyFunc rest ->
    length rest < fuel ->
    exists pairs g',
      spread_groupBy key_eq keyFunc fuel
        (mk_groupBy rest (Item k) (Item k) cv n false)
      = Some (pairs, g')
      /\ List.map fst pairs
         = List.map (@Item K) (run_keys key_eq keyFunc (Some k) rest)
      /\ Forall (fun kh => g_pc (snd kh) = GrouperStart
                           /\ n < targetId (snd kh) < id g') pairs
      /\ n < id g'.
Proof.
  induction fuel as [|fuel IH]; intros rest k cv n Hk Hself Hfuel; [lia|].
  cbn [spread_groupBy]. unfold groupBy_next.
  cbn [gb_finished targetKey currKey currValue it id].
  rewrite run_keys_same_key.
  pose proof (skip_same_key k rest k cv Hk) as Hskip.
  pose proof (drop_while_length (fun y => key_eq (keyFunc y) k) rest) as Hlen.
  pose proof (drop_while_self_equal (fun y => key_eq (keyFunc y) k) rest Hself)
    as Hself'.
  destruct (drop_while (fun y => key_eq (keyFunc y) k) rest) as [|y rest'].
  - destruct Hskip as (ck & ->).
    eexists [], _. split; [reflexivity|]. split; [reflexivity|].
    split; [constructor|]. cbn [id]. lia.
  - rewrite Hskip. cbn [length] in Hlen.
    destruct (IH rest' (keyFunc y) (Item y) (S n))
      as (pairs & g' & Hspread & Hkeys & Hall & Hid);
      [now inversion Hself'|now inversion Hself'|lia|].
    rewrite Hspread. eexists (_ :: pairs), g'. split; [reflexivity|].
    split; [cbn [List.map fst]; now rewrite Hkeys|].
    split; [|lia]. constructor.
    + cbn [snd g_pc targetId]. split; [reflexivity|lia].
    + eapply Forall_impl; [|exact Hall]. cbn beta. intros kh [H1 H2].
      split; [exact H1|lia].
Qed.

Lemma spread_each_stale (F : nat) (g : groupBy_state (T := T) (K := K)) :
  forall pairs,
    Forall (fun kh => g_pc (snd kh) = GrouperStart
                      /\ targetId (snd kh) <> id g) pairs ->
    spread_each key_eq keyFunc (S F) g pairs
    = Some (List.map (fun _ => []) pairs, g).
Proof.
  induction pairs as [|[k h] pairs IH]; intros Hall; [reflexivity|].
  inversion Hall as [|? ? [Hpc Hid] Hall']; subst. cbn [snd] in *.
  cbn [spread_each spread_grouper]. unfold grouper_next. rewrite Hpc.
  unfold grouper_head.
  replace (id g =? targetId h) with false
    by (symmetry; apply Nat.eqb_neq; congruence).
  cbn [andb]. rewrite (IH Hall'). reflexivity.
Qed.

(** X19: when no key is NaN and the outer sequence of
    [groupBy(xs, keyFunc)] is spread before any of its groups, it yields
    the key of each run of [xs], in order, and every group then comes out
    empty: the groups are not saved as the outer sequence moves on. *)
Theorem groupBy_outer_first (xs : list T) :
  keys_self_equal key_eq keyFunc xs ->
  exists pairs g',
    spread_groupBy key_eq keyFunc (S (S (length xs))) (groupBy xs)
    = Some (pairs, g')
    /\ List.map fst pairs
       = List.map (@Item K) (run_keys key_eq keyFunc None xs)
    /\ spread_each key_eq keyFunc 1 g' pairs
       = Some (List.map (fun _ => []) pairs, g').
Proof.
  intros Hself. destruct xs as [|x rest].
  - eexists [], _. repeat split; reflexivity.
  - destruct (spread_groupBy_keys (S (length (x :: rest))) rest (keyFunc x)
                (Item x) 1)
      as (pairs & g' & Hspread & Hkeys & Hall & Hid);
      [now inversion Hself|now inversion Hself|cbn [length]; lia|].
    remember (S (length (x :: rest))) as fuel eqn:Efuel.
    cbn [spread_groupBy]. unfold groupBy_next.
    cbn [groupBy gb_finished targetKey currKey currValue it id skip strict_eq].
    rewrite skip_stop by reflexivity.
    rewrite Hspread. eexists (_ :: pairs), g'. split; [reflexivity|].
    split; [cbn [List.map fst run_keys]; now rewrite Hkeys|].
    apply spread_each_stale. constructor.
    + cbn [snd g_pc targetId]. split; [reflexivity|lia].
    + eapply Forall_impl; [|exact Hall]. cbn beta. intros kh [H1 H2].
      split; [exact H1|lia].
Qed.
End GroupByRuns.

(** X18 on [[0, 0, 1]] with the default key. *)
Lemma groupBy_maximal_runs_witness :
  keys_self_equal Z.eqb (fun v : Z => v) [0; 0; 1]%Z
  /\ exists rs : list (Z * list Z),
       consume_groups Z.eqb (fun v : Z => v) (S (S (length [0; 0; 1]%Z)))
         (S (S (length [0; 0; 1]%Z))) (groupBy [0; 0; 1]%Z)
       = Some (List.map (fun r => (Item (fst r), List.map (@Item Z) (snd r))) rs)
       /\ concat (List.map snd rs) = [0; 0; 1]%Z
       /\ Forall (fun r => snd r <> []
                           /\ Forall (fun y => Z.eqb y (fst r) = true) (snd r))
                 rs
       /\ adjacent_differ Z.eqb (List.map fst rs).
Proof.
  assert (H : keys_self_equal Z.eqb (fun v : Z => v) [0; 0; 1]%Z)
    by (repeat constructor).
  split; [exact H|].
  apply (groupBy_maximal_runs Z.eqb (fun v : Z => v) [0; 0; 1]%Z H).
Defined.

(** X19 on the example of the code's own comment: keys 0, 1, 0, 2. *)
Lemma groupBy_outer_first_witness :
  keys_self_equal Z.eqb (fun v : Z => (v / 2)%Z) [0; 1; 2; 3; 1; 4; 5]%Z
  /\ exists pairs g',
       spread_groupBy Z.eqb (fun v : Z => (v / 2)%Z)
         (S (S (length [0; 1; 2; 3; 1; 4; 5]%Z)))
         (groupBy [0; 1; 2; 3; 1; 4; 5]%Z)
       = Some (pairs, g')
       /\ List.map fst pairs
          = List.map (@Item Z)
              (run_keys Z.eqb (fun v : Z => (v / 2)%Z) None
                        [0; 1; 2; 3; 1; 4; 5]%Z)
       /\ spread_each Z.eqb (fun v : Z => (v / 2)%Z) 1 g' pairs
          = Some (List.map (fun _ => []) pairs, g').
Proof.
  assert (H : keys_self_equal Z.eqb (fun v : Z => (v / 2)%Z)
                [0; 1; 2; 3; 1; 4; 5]%Z)
    by (repeat constructor).
  split; [exact H|].
  apply (groupBy_outer_first Z.eqb (fun v : Z => (v / 2)%Z)
           [0; 1; 2; 3; 1; 4; 5]%Z H).
Defined.

(** ** islice with a count alone; zip inside zipLongest *)

Section IslicePrefix.
Context {T : Type}.

Lemma islice_count_loop (k : nat) :
  forall (xs : list T) (c : Z),
    exists g',
      collect (islice_next array_next 1) (S k)
        (loop_at (Some (c + Z.of_nat k)%Z) c 1%Z c xs)
      = Some (Normal (firstn k xs), g')
      /\ en_iterable (enumerated g') = skipn k xs.
Proof.
  induction k as [|k IH]; intros xs c;
    rewrite collect_S; unfold islice_next at 1, loop_at;
    cbn [is_pc enumerated]; unfold islice_loop, takeWhile_next;
    cbn [tw_finished tw_iterable count_next c_i c_step lt_end]; num_Z.
  - replace (c <? c + Z.of_nat 0)%Z with false
      by (symmetry; apply Z.ltb_ge; lia).
    cbn [negb]. eexists. split; reflexivity.
  - replace (c <? c + Z.of_nat (S k))%Z with true
      by (symmetry; apply Z.ltb_lt; lia).
    cbn [negb].
    destruct xs as [|x rest].
    + cbn [seek]. unfold enumerate_next, en_at.
      cbn [en_finished en_count en_iterable count_next c_i c_step array_next].
      eexists. split; reflexivity.
    + cbn [seek].
      rewrite (enumerate_next_value array_next c (x :: rest) rest x eq_refl).
      num_Z.
      rewrite Z.eqb_refl.
      destruct (IH rest (c + 1)%Z) as (g' & Hcollect & Hleft).
      replace (c + 1 + Z.of_nat k)%Z with (c + Z.of_nat (S k))%Z in Hcollect
        by lia.
      unfold loop_at in Hcollect. rewrite Hcollect.
      exists g'. split; [reflexivity|exact Hleft].
Qed.

(** X20: [islice(xs, k)] with a count alone yields the first [k] elements
    of [xs] (all of them when there are fewer), and when it is done it
    has taken from the source only those: what the source still holds is
    [xs] without its first [k] elements. *)
Theorem islice_takes_prefix (xs : list T) (k : nat) :
  exists g',
    collect (islice_next array_next 1) (S k)
      (islice_generator xs (Z.of_nat k) None None)
    = Some (Normal (firstn k xs), g')
    /\ en_iterable (enumerated g') = skipn k xs.
Proof.
  rewrite (islice_first_pull array_next xs (Z.of_nat k) None None
             0%Z 1%Z (Some (Z.of_nat k)) 1 (S k)).
  - exact (islice_count_loop k xs 0%Z).
  - unfold islice_arguments. num_Z.
    replace (Z.of_nat k <? 0)%Z with false by (symmetry; apply Z.ltb_ge; lia).
    reflexivity.
Qed.
End IslicePrefix.

Section ZipPrefix.
Context {T : Type}.

Lemma firstn_seq_le (m : nat) :
  forall start len, m <= len -> firstn m (seq start len) = seq start m.
Proof.
  induction m as [|m IH]; intros start len Hle; [reflexivity|].
  destruct len as [|len]; [lia|].
  cbn [seq firstn]. f_equal. apply IH. lia.
Qed.

Lemma min_le_max_length (s0 : list T) (rest : list (list T)) :
  min_length s0 rest <= max_length (s0 :: rest).
Proof.
  unfold min_length, max_length. cbn [map list_max fold_right].
  induction rest as [|s rest IH]; cbn [map fold_right]; lia.
Qed.

Lemma column_undefined (s0 : list T) (rest : list (list T)) (k : nat) :
  In None (column (s0 :: rest) k) <-> min_length s0 rest <= k.
Proof.
  unfold column, min_length. cbn [map In].
  rewrite nth_error_None.
  induction rest as [|s rest IH]; cbn [map In fold_right].
  - tauto.
  - rewrite nth_error_None.
    split.
    + intros [H|[H|H]]; [| lia |].
      * assert (fold_right Nat.min (length s0) (map (@length T) rest) <= k)
          by (apply IH; now left). lia.
      * assert (fold_right Nat.min (length s0) (map (@length T) rest) <= k)
          by (apply IH; now right). lia.
    + intros H.
      destruct (Nat.le_gt_cases (length s) k) as [Hs|Hs]; [tauto|].
      assert (H' : fold_right Nat.min (length s0) (map (@length T) rest) <= k)
        by lia.
      apply IH in H'. tauto.
Qed.

(** X21: over the same arrays, the tuples of [zip] are the tuples of
    [zipLongest] up to the length of the shortest array; in these every
    slot holds an element of its array, and every tuple [zipLongest]
    yields after them has a slot filled in for an array that has ended.
    Slot [j] of the tuple at place [k] is [Some] of element [k] of array
    [j], whatever that element is, and [None] when the array has no
    element [k]. *)
Theorem zip_is_prefix_of_zipLongest (s0 : list T) (rest : list (list T)) :
  exists short long gs gl,
    collect (total (zip_next array_next)) (S (min_length s0 rest))
      (zip (s0 :: rest))
    = Some (Normal short, gs)
    /\ collect (total (zipLongest_next array_next))
         (S (max_length (s0 :: rest))) (zipLongest (s0 :: rest))
       = Some (Normal long, gl)
    /\ long = map (fun k => map (fun s => nth_error s k) (s0 :: rest))
                  (seq 0 (max_length (s0 :: rest)))
    /\ short = firstn (min_length s0 rest) long
    /\ Forall (fun t => ~ In None t) short
    /\ Forall (fun t => In None t) (skipn (min_length s0 rest) long).
Proof.
  do 4 eexists.
  split; [apply zip_collect; reflexivity|].
  split; [apply zipLongest_collect; reflexivity|].
  pose proof (min_le_max_length s0 rest) as Hle.
  split; [reflexivity|].
  change (map (fun k => map (fun s => nth_error s k) (s0 :: rest)))
    with (map (column (s0 :: rest))).
  split; [|split].
  - now rewrite firstn_map, firstn_seq_le.
  - apply Forall_forall. intros t Ht. apply in_map_iff in Ht.
    destruct Ht as (k & <- & Hk). apply in_seq in Hk.
    rewrite column_undefined. lia.
  - rewrite skipn_map, skipn_seq.
    apply Forall_forall. intros t Ht. apply in_map_iff in Ht.
    destruct Ht as (k & <- & Hk). apply in_seq in Hk.
    rewrite column_undefined. lia.
Qed.
End ZipPrefix.

(** ** combinations: unique and sorted inputs *)

Lemma lex_lt_irrefl (x : list nat) : ~ lex_lt x x.
Proof.
  induction x as [|a x IH]; intros H; inversion H; subst; [lia|auto].
Qed.

Lemma StronglySorted_NoDup {A} (R : A -> A -> Prop) (l : list A) :
  (forall a, ~ R a a) -> StronglySorted R l -> NoDup l.
Proof.
  intros Hirr. induction 1 as [|a l Hs IH Hall]; constructor; [|exact IH].
  intros Hin. rewrite Forall_forall in Hall. exact (Hirr a (Hall a Hin)).
Qed.

Lemma StronglySorted_map_on {A B} (R1 : A -> A -> Prop) (R2 : B -> B -> Prop)
  (f : A -> B) (l : list A) :
  (forall x y, In x l -> In y l -> R1 x y -> R2 (f x) (f y)) ->
  StronglySorted R1 l -> StronglySorted R2 (map f l).
Proof.
  intros Hf Hs. induction Hs as [|a l Hs IH Hall]; cbn [map]; constructor.
  - apply IH. intros x y Hx Hy. apply Hf; now right.
  - rewrite Forall_forall in *. intros b Hb. apply in_map_iff in Hb.
    destruct Hb as (y & <- & Hy).
    apply Hf; [now left|now right|now apply Hall].
Qed.

Section CombinationsOfSpecialInputs.
Context {T : Type}.
Variable saved : list T.
Variable r : nat.

Lemma combinations_spread :
  exists idxs,
    collect (total combinations_next) (S (choose (length saved) r))
      (combinations saved r)
    = Some (Normal (map (pick saved) idxs), CombDone)
    /\ (forall x, In x idxs ->
                  StronglySorted lt x /\ Forall (fun i => i < length saved) x)
    /\ StronglySorted lex_lt idxs.
Proof.
  destruct (Nat.le_gt_cases r (length saved)) as [Hr|Hr].
  - exists (tuples 1 (length saved) r 0).
    assert (Hcount : length (tuples 1 (length saved) r 0)
                     = choose (length saved) r)
      by (rewrite tuples_count_strict; f_equal; lia).
    split; [|split].
    + destruct (tuples_run 1 (length saved) r
                  (fun i => i + length saved - r) 0) as [Hrun _].
      { intros i Hi. lia. }
      destruct Hrun as (l & El & Hrun); [destruct r; [now left|right; lia]|].
      rewrite <- Hcount, El. cbn [length].
      rewrite collect_S. unfold total at 1, combinations.
      cbn [combinations_next].
      replace (length saved <? r) with false
        by (symmetry; apply Nat.ltb_ge; exact Hr).
      rewrite seq_ramp, (combinations_loop_collect saved r l _ Hrun).
      reflexivity.
    + intros x Hx. apply tuples_strict_members in Hx. tauto.
    + apply tuples_lex_sorted.
  - exists []. split; [|split].
    + rewrite choose_small by exact Hr.
      rewrite collect_S. unfold total at 1, combinations.
      cbn [combinations_next].
      replace (length saved <? r) with true
        by (symmetry; apply Nat.ltb_lt; exact Hr).
      reflexivity.
    + intros x [].
    + constructor.
Qed.

Lemma combinationsWithReplacement_spread_all :
  exists idxs,
    collect (total combinationsWithReplacement_next)
      (S (choose (length saved + r - 1) r))
      (combinationsWithReplacement saved r)
    = Some (Normal (map (pick saved) idxs), CombDone)
    /\ (forall x, In x idxs ->
                  StronglySorted le x /\ Forall (fun i => i < length saved) x)
    /\ StronglySorted lex_lt idxs.
Proof.
  destruct (combinationsWithReplacement_spread saved r)
    as (idxs & Hcollect & Hpos & Hzero & Hnone & Hmem & Hsorted).
  exists idxs. split; [|split; [|exact Hsorted]].
  - destruct (Nat.eq_dec (length saved) 0) as [Hn|Hn].
    + rewrite Hn in *. cbn [Nat.add].
      destruct r as [|r'] eqn:Er.
      * rewrite (Hzero eq_refl eq_refl) in *. exact Hcollect.
      * rewrite (Hnone eq_refl ltac:(lia)) in *.
        rewrite choose_small by lia. exact Hcollect.
    + rewrite <- Hpos by lia. exact Hcollect.
  - intros x Hx. apply Hmem in Hx. tauto.
Qed.

Lemma pick_injective (x : list nat) :
  NoDup saved ->
  forall y,
    Forall (fun i => i < length saved) x ->
    Forall (fun i => i < length saved) y ->
    pick saved x = pick saved y -> x = y.
Proof.
  intros Hnd. rewrite NoDup_nth_error in Hnd.
  induction x as [|a x IH]; intros [|b y] Hx Hy Heq;
    try reflexivity; try discriminate.
  inversion Hx; subst. inversion Hy; subst.
  unfold pick in Heq. cbn [map] in Heq.
  injection Heq as Hab Hrest.
  f_equal; [now apply Hnd|now apply IH].
Qed.

Lemma pick_NoDup (x : list nat) :
  NoDup saved -> NoDup x -> Forall (fun i => i < length saved) x ->
  NoDup (pick saved x).
Proof.
  intros Hnd Hx Hall. rewrite NoDup_nth_error in Hnd.
  apply NoDup_map_NoDup_ForallPairs; [|exact Hx].
  intros i j Hi Hj Heq. rewrite Forall_forall in Hall.
  apply Hnd; [now apply Hall|exact Heq].
Qed.

Lemma picks_NoDup (idxs : list (list nat)) :
  NoDup saved ->
  (forall x, In x idxs -> Forall (fun i => i < length saved) x) ->
  StronglySorted lex_lt idxs ->
  NoDup (map (pick saved) idxs).
Proof.
  intros Hnd Hall Hsorted.
  apply NoDup_map_NoDup_ForallPairs.
  - intros x y Hx Hy. apply pick_injective; auto.
  - apply (StronglySorted_NoDup lex_lt); [exact lex_lt_irrefl|exact Hsorted].
Qed.

Lemma sorted_slots (R : T -> T -> Prop) :
  StronglySorted R saved ->
  forall a b, a < b -> b < length saved ->
              on_defined R (nth_error saved a) (nth_error saved b).
Proof.
  induction 1 as [|v l Hs IH Hall]; intros a b Hab Hb;
    cbn [length] in Hb; [lia|].
  destruct b as [|b]; [lia|]. cbn [nth_error].
  destruct (nth_error l b) as [w|] eqn:Ew;
    [|apply nth_error_None in Ew; lia].
  destruct a as [|a]; cbn [nth_error on_defined].
  - rewrite Forall_forall in Hall. apply Hall.
    eapply nth_error_In; exact Ew.
  - specialize (IH a b ltac:(lia) ltac:(lia)). now rewrite Ew in IH.
Qed.

Lemma pick_lex (R : T -> T -> Prop) (x y : list nat) :
  StronglySorted R saved ->
  NoDup saved ->
  Forall (fun i => i < length saved) y ->
  lex_lt x y ->
  lex (on_defined R) (pick saved x) (pick saved y).
Proof.
  intros Hs Hnd Hy Hlt. rewrite NoDup_nth_error in Hnd.
  induction Hlt as [b y|a b x y Hab|a x y Hlt IH];
    unfold pick; cbn [map].
  - constructor.
  - inversion Hy; subst. apply lex_head; [now apply sorted_slots|].
    intros Heq. apply Hnd in Heq; lia.
  - apply lex_tail. apply IH. now inversion Hy.
Qed.

Lemma picks_sorted (R : T -> T -> Prop) (idxs : list (list nat)) :
  StronglySorted R saved ->
  NoDup saved ->
  (forall x, In x idxs -> Forall (fun i => i < length saved) x) ->
  StronglySorted lex_lt idxs ->
  StronglySorted (lex (on_defined R)) (map (pick saved) idxs).
Proof.
  intros Hs Hnd Hall. apply StronglySorted_map_on.
  intros x y Hx Hy. apply pick_lex; auto.
Qed.

(** X22: when the elements of the input are unique, no combination that
    [combinations] yields holds a value twice, and no combination is
    yielded twice. *)
Theorem combinations_of_unique_elements :
  NoDup saved ->
  exists out,
    collect (total combinations_next) (S (choose (length saved) r))
      (combinations saved r)
    = Some (Normal out, CombDone)
    /\ Forall (@NoDup (option T)) out
    /\ NoDup out.
Proof.
  intros Hnd.
  destruct combinations_spread as (idxs & Hcollect & Hmem & Hsorted).
  eexists. split; [exact Hcollect|]. split.
  - apply Forall_forall. intros t Ht. apply in_map_iff in Ht.
    destruct Ht as (x & <- & Hx). destruct (Hmem x Hx) as [Hinc Hrange].
    apply pick_NoDup; [exact Hnd| |exact Hrange].
    apply (StronglySorted_NoDup lt); [exact Nat.lt_irrefl|exact Hinc].
  - apply picks_NoDup; [exact Hnd| |exact Hsorted].
    intros x Hx. now apply Hmem.
Qed.

(** X23: when the elements of the input are unique, no combination is
    yielded twice by [combinationsWithReplacement]. *)
Theorem combinationsWithReplacement_of_unique_elements :
  NoDup saved ->
  exists out,
    collect (total combinationsWithReplacement_next)
      (S (choose (length saved + r - 1) r))
      (combinationsWithReplacement saved r)
    = Some (Normal out, CombDone)
    /\ NoDup out.
Proof.
  intros Hnd.
  destruct combinationsWithReplacement_spread_all
    as (idxs & Hcollect & Hmem & Hsorted).
  eexists. split; [exact Hcollect|].
  apply picks_NoDup; [exact Hnd| |exact Hsorted].
  intros x Hx. now apply Hmem.
Qed.

Lemma combinations_sorted (R : T -> T -> Prop) :
  StronglySorted R saved -> NoDup saved ->
  (exists out,
     collect (total combinations_next) (S (choose (length saved) r))
       (combinations saved r)
     = Some (Normal out, CombDone)
     /\ StronglySorted (lex (on_defined R)) out)
  /\ (exists out,
        collect (total combinationsWithReplacement_next)
          (S (choose (length saved + r - 1) r))
          (combinationsWithReplacement saved r)
        = Some (Normal out, CombDone)
        /\ StronglySorted (lex (on_defined R)) out).
Proof.
  intros Hs Hnd. split.
  - destruct combinations_spread as (idxs & Hcollect & Hmem & Hsorted).
    eexists. split; [exact Hcollect|].
    apply picks_sorted; [exact Hs|exact Hnd| |exact Hsorted].
    intros x Hx. now apply Hmem.
  - destruct combinationsWithReplacement_spread_all
      as (idxs & Hcollect & Hmem & Hsorted).
    eexists. split; [exact Hcollect|].
    apply picks_sorted; [exact Hs|exact Hnd| |exact Hsorted].
    intros x Hx. now apply Hmem.
Qed.
End CombinationsOfSpecialInputs.

(** X24: when the input is sorted by [R] (each element stands in [R] to
    every later one) and its elements are unique, [combinations] and
    [combinationsWithReplacement] yield their tuples in the lexicographic
    order that [R] gives: of two tuples, the one yielded first has the
    entry that stands in [R] to the other's at the first place where they
    differ, or is a proper prefix.  Unique elements are needed: over
    [[1, 1, 2]], which is sorted, [combinationsWithReplacement] yields
    [[1, 2]] before the last [[1, 1]]. *)
Theorem combinations_of_sorted_input :
  (forall (T : Type) (saved : list T) (r : nat) (R : T -> T -> Prop),
     StronglySorted R saved -> NoDup saved ->
     (exists out,
        collect (total combinations_next) (S (choose (length saved) r))
          (combinations saved r)
        = Some (Normal out, CombDone)
        /\ StronglySorted (lex (on_defined R)) out)
     /\ (exists out,
           collect (total combinationsWithReplacement_next)
             (S (choose (length saved + r - 1) r))
             (combinationsWithReplacement saved r)
           = Some (Normal out, CombDone)
           /\ StronglySorted (lex (on_defined R)) out))
  /\ collect (total combinationsWithReplacement_next) 7
       (combinationsWithReplacement [1; 1; 2] 2)
     = Some (Normal [[Some 1; Some 1]; [Some 1; Some 1]; [Some 1; Some 2];
                     [Some 1; Some 1]; [Some 1; Some 2]; [Some 2; Some 2]],
             CombDone).
Proof.
  split; [|reflexivity].
  intros T saved r R. apply combinations_sorted.
Qed.

(** X22 on [combinations([1, 2, 3], 2)]. *)
Lemma combinations_of_unique_elements_witness :
  NoDup [1; 2; 3]
  /\ exists out,
       collect (total combinations_next) (S (choose (length [1; 2; 3]) 2))
         (combinations [1; 2; 3] 2)
       = Some (Normal out, CombDone)
       /\ Forall (@NoDup (option nat)) out
       /\ NoDup out.
Proof.
  assert (H : NoDup [1; 2; 3]) by (repeat constructor; simpl; lia).
  split; [exact H|].
  apply (combinations_of_unique_elements [1; 2; 3] 2 H).
Defined.

(** X23 on [combinationsWithReplacement([1, 2, 3], 2)]. *)
Lemma combinationsWithReplacement_of_unique_elements_witness :
  NoDup [1; 2; 3]
  /\ exists out,
       collect (total combinationsWithReplacement_next)
         (S (choose (length [1; 2; 3] + 2 - 1) 2))
         (combinationsWithReplacement [1; 2; 3] 2)
       = Some (Normal out, CombDone)
       /\ NoDup out.
Proof.
  assert (H : NoDup [1; 2; 3]) by (repeat constructor; simpl; lia).
  split; [exact H|].
  apply (combinationsWithReplacement_of_unique_elements [1; 2; 3] 2 H).
Defined.

(** X24 on [[1, 2, 3]] with [r = 2] and the order [<]. *)
Lemma combinations_of_sorted_input_witness :
  StronglySorted lt [1; 2; 3] /\ NoDup [1; 2; 3]
  /\ (exists out,
        collect (total combinations_next) (S (choose (length [1; 2; 3]) 2))
          (combinations [1; 2; 3] 2)
        = Some (Normal out, CombDone)
        /\ StronglySorted (lex (on_defined lt)) out)
  /\ (exists out,
        collect (total combinationsWithReplacement_next)
          (S (choose (length [1; 2; 3] + 2 - 1) 2))
          (combinationsWithReplacement [1; 2; 3] 2)
        = Some (Normal out, CombDone)
        /\ StronglySorted (lex (on_defined lt)) out).
Proof.
  assert (H : StronglySorted lt [1; 2; 3]) by (repeat constructor; lia).
  assert (Hnd : NoDup [1; 2; 3]) by (repeat constructor; simpl; lia).
  split; [exact H|]. split; [exact Hnd|].
  apply (proj1 combinations_of_sorted_input nat [1; 2; 3] 2 lt H Hnd).
Defined.
